(** * Polaris tools: benchmark dataset generator, workload phases and
      console API helpers

    A shallow embedding of
    - [benchmarks/.../util/Mangler.scala] (entity names),
    - [benchmarks/.../simulations/ReadTreeDataset.scala] (verification
      phases driven by shared [AtomicInteger] counters),
    - the console's views API client ([encodeNamespace], [viewsApi]) and
    - the table-details query function ([tableQuery.queryFn]),
    together with the dataset topology arithmetic they rely on, which is
    taken from the specification and the README.

    Part I holds the embedding, one module per source unit; Part II the
    properties, one module of facts per module of definitions. *)

From Stdlib Require Import ZArith Lia List Bool Ascii String.
From Stdlib Require Import DecimalString DecimalZ Sorted.
From stdpp Require Import base tactics list.

Import ListNotations.
Local Open Scope string_scope.
Local Open Scope list_scope.
Local Open Scope Z_scope.

(* ===================================================================== *)
(** * Part I: definitions                                                 *)
(* ===================================================================== *)

(** ** Dataset topology *)

Module Topology.

(** The [dataset.tree] block of the benchmark configuration
    (README, "Dataset Structure Parameters"). *)
Record ShapeParameters := mkShape {
  numCatalogs : Z;
  treeWidth : Z;       (* namespace-width, N *)
  treeDepth : Z;       (* namespace-depth, D *)
  tablesPerLeaf : Z;   (* tables-per-namespace, T *)
  viewsPerLeaf : Z;    (* views-per-namespace, V *)
  maxTables : Z;       (* max-tables, -1 for no cap *)
  maxViews : Z;        (* max-views, -1 for no cap *)
  mangleNames : bool   (* mangle-names *)
}.

(** Modelled from the spec: [dp.nAryTree.numberOfNodes], read by
    [ReadTreeDataset.numNamespaces], belongs to the n-ary tree builder,
    which is not part of the sources at hand.  Section 4.1:
    "totalNamespaces = (N^D - 1) / (N - 1) when N > 1, else D". *)
Definition numberOfNodes (N D : Z) : Z :=
  if 1 <? N then (N ^ D - 1) / (N - 1) else D.

(** Number of namespaces on level [l] of a complete [N]-ary tree and
    the node count obtained by adding the levels [0 .. D-1]. *)
Definition levelSize (N : Z) (l : nat) : Z := N ^ Z.of_nat l.

Fixpoint levelSum (N : Z) (D : nat) : Z :=
  match D with
  | O => 0
  | S d => levelSum N d + levelSize N d
  end.

(** Modelled from the spec: the number of leaf namespaces, [N^(D-1)],
    of the same absent tree builder. *)
Definition numberOfLastLevelElements (N D : Z) : Z := N ^ (D - 1).

(** Modelled from the spec: [dp.numTables] and [dp.numViews] are fields
    of the dataset parameters, which are not part of the sources at
    hand.  Section 4.1: "totalTables = min(N^(D-1) * T, maxTables if
    capped else infinity)", the cap [-1] meaning "uncapped". *)
Definition capCount (possible cap : Z) : Z :=
  if cap =? -1 then possible else Z.min possible cap.

Definition numTables (sp : ShapeParameters) : Z :=
  capCount (numberOfLastLevelElements (treeWidth sp) (treeDepth sp)
            * tablesPerLeaf sp) (maxTables sp).

Definition numViews (sp : ShapeParameters) : Z :=
  capCount (numberOfLastLevelElements (treeWidth sp) (treeDepth sp)
            * viewsPerLeaf sp) (maxViews sp).

Definition numNamespaces (sp : ShapeParameters) : Z :=
  numberOfNodes (treeWidth sp) (treeDepth sp).

(** The invariant of section 3: [N >= 1], [D >= 1], non-negative leaf
    counts, and caps that are either the sentinel or non-negative. *)
Definition validShape (sp : ShapeParameters) : Prop :=
  1 <= treeWidth sp /\ 1 <= treeDepth sp /\
  0 <= tablesPerLeaf sp /\ 0 <= viewsPerLeaf sp /\
  (maxTables sp = -1 \/ 0 <= maxTables sp) /\
  (maxViews sp = -1 \/ 0 <= maxViews sp).

End Topology.

(** ** The Java library pieces used by the mangler *)

Module JavaLang.

(** A Java [byte] is a signed 8-bit integer. *)
Definition toByte (u : Z) : Z :=
  let r := u mod 256 in if r <? 128 then r else r - 256.

Definition isByte (b : Z) : Prop := -128 <= b <= 127.

(** [Integer.toString]: decimal digits, with a leading minus sign for
    negative values; this is what [prefix + ordinal] and
    [s"$prefix$ordinal"] append to the prefix. *)
Definition Integer_toString (n : Z) : string :=
  NilZero.string_of_int (Z.to_int n).

(** [Integer.parseInt], on the strings [Integer.toString] produces. *)
Definition Integer_parseInt (s : string) : option Z :=
  option_map Z.of_int (NilZero.int_of_string s).

(** [String.getBytes()] with the default charset UTF-8; a [string] is
    kept as the sequence of its UTF-8 code units. *)
Definition getBytes (s : string) : list Z :=
  map (fun c => toByte (Z.of_nat (nat_of_ascii c))) (list_ascii_of_string s).

Definition hexDigit (d : Z) : ascii :=
  nth (Z.to_nat d)
    ["0"; "1"; "2"; "3"; "4"; "5"; "6"; "7";
     "8"; "9"; "a"; "b"; "c"; "d"; "e"; "f"]%char "0"%char.

(** ["%02x".format(b)] for a [Byte] [b]: a negative byte is printed as
    [b + 256]; the two nibbles are printed in lowercase, a leading
    zero filling the minimum width of two. *)
Definition format_02x (b : Z) : string :=
  let u := b mod 256 in
  String (hexDigit (u / 16)) (String (hexDigit (u mod 16)) EmptyString).

(** [Array[String].mkString]: concatenation without separator. *)
Definition mkString (l : list string) : string :=
  fold_right String.append EmptyString l.

Definition isLowerHex (c : ascii) : bool :=
  let n := Z.of_nat (nat_of_ascii c) in
  ((48 <=? n) && (n <=? 57)) || ((97 <=? n) && (n <=? 102)).

End JavaLang.

(** ** MD5 (RFC 1321), the algorithm behind [MessageDigest.getInstance("MD5")] *)

Module Md5.

Definition w32 (x : Z) : Z := x mod 2 ^ 32.
Definition add32 (a b : Z) : Z := w32 (a + b).
Definition not32 (a : Z) : Z := Z.lxor a 0xFFFFFFFF.
Definition rotl32 (x s : Z) : Z :=
  w32 (Z.lor (Z.shiftl x s) (Z.shiftr x (32 - s))).

Definition sines : list Z :=
  [ 0xd76aa478; 0xe8c7b756; 0x242070db; 0xc1bdceee; 0xf57c0faf; 0x4787c62a; 0xa8304613; 0xfd469501;
    0x698098d8; 0x8b44f7af; 0xffff5bb1; 0x895cd7be; 0x6b901122; 0xfd987193; 0xa679438e; 0x49b40821;
    0xf61e2562; 0xc040b340; 0x265e5a51; 0xe9b6c7aa; 0xd62f105d; 0x02441453; 0xd8a1e681; 0xe7d3fbc8;
    0x21e1cde6; 0xc33707d6; 0xf4d50d87; 0x455a14ed; 0xa9e3e905; 0xfcefa3f8; 0x676f02d9; 0x8d2a4c8a;
    0xfffa3942; 0x8771f681; 0x6d9d6122; 0xfde5380c; 0xa4beea44; 0x4bdecfa9; 0xf6bb4b60; 0xbebfbc70;
    0x289b7ec6; 0xeaa127fa; 0xd4ef3085; 0x04881d05; 0xd9d4d039; 0xe6db99e5; 0x1fa27cf8; 0xc4ac5665;
    0xf4292244; 0x432aff97; 0xab9423a7; 0xfc93a039; 0x655b59c3; 0x8f0ccc92; 0xffeff47d; 0x85845dd1;
    0x6fa87e4f; 0xfe2ce6e0; 0xa3014314; 0x4e0811a1; 0xf7537e82; 0xbd3af235; 0x2ad7d2bb; 0xeb86d391 ].

Definition shifts : list Z :=
  [ 7; 12; 17; 22; 7; 12; 17; 22; 7; 12; 17; 22; 7; 12; 17; 22;
    5; 9; 14; 20; 5; 9; 14; 20; 5; 9; 14; 20; 5; 9; 14; 20;
    4; 11; 16; 23; 4; 11; 16; 23; 4; 11; 16; 23; 4; 11; 16; 23;
    6; 10; 15; 21; 6; 10; 15; 21; 6; 10; 15; 21; 6; 10; 15; 21 ].

(** [n] little-endian bytes of [x], each in [0, 256). *)
Fixpoint le_bytes (n : nat) (x : Z) : list Z :=
  match n with
  | O => []
  | S n' => x mod 256 :: le_bytes n' (x / 256)
  end.

(** The little-endian word made of the given (signed or unsigned)
    bytes. *)
Definition word_le (bs : list Z) : Z :=
  fold_right (fun b acc => b mod 256 + 256 * acc) 0 bs.

Fixpoint words (n : nat) (bs : list Z) : list Z :=
  match n with
  | O => []
  | S n' => word_le (firstn 4 bs) :: words n' (skipn 4 bs)
  end.

(** Padding: a single [0x80], zeros up to 56 modulo 64, then the bit
    length as a 64-bit little-endian integer. *)
Definition pad (msg : list Z) : list Z :=
  let len := Z.of_nat (length msg) in
  msg ++ [0x80] ++ repeat 0 (Z.to_nat ((55 - len) mod 64))
      ++ le_bytes 8 ((8 * len) mod 2 ^ 64).

Fixpoint blocks (fuel : nat) (bs : list Z) : list (list Z) :=
  match fuel, bs with
  | O, _ => []
  | _, [] => []
  | S f, _ => firstn 64 bs :: blocks f (skipn 64 bs)
  end.

Definition state : Type := Z * Z * Z * Z.

Definition init : state := (0x67452301, 0xefcdab89, 0x98badcfe, 0x10325476).

Definition round (M : list Z) (st : state) (i : nat) : state :=
  let '(a, b, c, d) := st in
  let iz := Z.of_nat i in
  let '(f, g) :=
    if iz <? 16 then (Z.lor (Z.land b c) (Z.land (not32 b) d), iz)
    else if iz <? 32 then
      (Z.lor (Z.land d b) (Z.land (not32 d) c), (5 * iz + 1) mod 16)
    else if iz <? 48 then (Z.lxor (Z.lxor b c) d, (3 * iz + 5) mod 16)
    else (Z.lxor c (Z.lor b (not32 d)), (7 * iz) mod 16) in
  let f' := add32 (add32 (add32 f a) (nth i sines 0)) (nth (Z.to_nat g) M 0) in
  (d, add32 b (rotl32 f' (nth i shifts 0)), b, c).

Definition compress (st : state) (block : list Z) : state :=
  let '(a0, b0, c0, d0) := st in
  let '(a, b, c, d) := fold_left (round (words 16 block)) (seq 0 64) st in
  (add32 a0 a, add32 b0 b, add32 c0 c, add32 d0 d).

(** The 16-byte digest of a message, as Java bytes. *)
Definition digest (msg : list Z) : list Z :=
  let padded := pad msg in
  let '(a, b, c, d) := fold_left compress (blocks (length padded) padded) init in
  map JavaLang.toByte
      (le_bytes 4 a ++ le_bytes 4 b ++ le_bytes 4 c ++ le_bytes 4 d).

End Md5.

(** ** [java.security.MessageDigest] as used through the field [Mangler.MD5] *)

Module MessageDigest.

(** The engine accumulates the bytes passed to [update] since it was
    last reset. *)
Record t := mk { pending : list Z }.

(** [MessageDigest.getInstance("MD5")] *)
Definition getInstance : t := mk [].

(** [update(input)] *)
Definition update (md : t) (input : list Z) : t := mk (pending md ++ input).

(** [digest()]: completes the computation over the accumulated bytes
    and resets the engine. *)
Definition finish (md : t) : list Z * t := (Md5.digest (pending md), mk []).

(** [digest(input)]: "first calls update(input), then calls digest()". *)
Definition digest (md : t) (input : list Z) : list Z * t :=
  finish (update md input).

End MessageDigest.

(** ** [Mangler.scala] *)

Module Mangler.
Import JavaLang.

(** [case class Mangler(enabled: Boolean)] with its field
    [val MD5: MessageDigest], created once per mangler. *)
Record t := mk { enabled : bool; MD5 : MessageDigest.t }.

Definition new (enabled : bool) : t := mk enabled MessageDigest.getInstance.

(** [maybeMangle(prefix, ordinal)]: returns the name and the mangler
    with the state its digest engine is left in. *)
Definition maybeMangle (m : t) (prefix : string) (ordinal : Z) : string * t :=
  if enabled m then
    let '(bytes, md) :=
      MessageDigest.digest (MD5 m)
        (getBytes (prefix ++ Integer_toString ordinal)) in
    (mkString (map format_02x bytes), mk (enabled m) md)
  else ((prefix ++ Integer_toString ordinal)%string, m).

Definition maybeMangleNs (m : t) (ordinal : Z) := maybeMangle m "NS_" ordinal.
Definition maybeMangleTable (m : t) (ordinal : Z) := maybeMangle m "T_" ordinal.
Definition maybeMangleView (m : t) (ordinal : Z) := maybeMangle m "V_" ordinal.

(** The entity kinds the mangler names; catalogs have no entry point
    here. *)
Inductive Kind := Namespace | Table | View.

Definition kindPrefix (k : Kind) : string :=
  match k with Namespace => "NS_" | Table => "T_" | View => "V_" end.

Definition name (m : t) (k : Kind) (ordinal : Z) : string * t :=
  match k with
  | Namespace => maybeMangleNs m ordinal
  | Table => maybeMangleTable m ordinal
  | View => maybeMangleView m ordinal
  end.

(** The digest-based name as a function of prefix and ordinal only. *)
Definition mangled (prefix : string) (ordinal : Z) : string :=
  mkString (map format_02x
    (Md5.digest (getBytes (prefix ++ Integer_toString ordinal)))).

(** A sequence of calls made one after the other on the same mangler. *)
Fixpoint names (m : t) (calls : list (Kind * Z)) : list string * t :=
  match calls with
  | [] => ([], m)
  | (k, n) :: rest =>
      let '(s, m1) := name m k n in
      let '(ss, m2) := names m1 rest in
      (s :: ss, m2)
  end.

End Mangler.

(** ** The namer over the four kinds of entity *)

Module Namer.
Import JavaLang.

(** [kind] of an entity descriptor: a catalog, or one of the three kinds
    the mangler has an entry point for. *)
Inductive EntityKind :=
| Catalog
| Named (k : Mangler.Kind).

(** Modelled from the spec: the namer's contract [name(kind, ordinal)]
    of section 4.2 over the four kinds of section 3.  The code that names
    catalogs is not under src.  By section 4.2 catalogs use a separate
    caller-supplied prefix and are not mangled: the name is that prefix
    followed by the ordinal and the mangler is not called.  Namespaces,
    tables and views are named by the entry points of [Mangler.scala]. *)
Definition name (m : Mangler.t) (catalogPrefix : string)
    (kind : EntityKind) (ordinal : Z) : string * Mangler.t :=
  match kind with
  | Catalog => ((catalogPrefix ++ Integer_toString ordinal)%string, m)
  | Named k => Mangler.name m k ordinal
  end.

End Namer.

(** ** Calls to one mangler from several threads *)

Module SharedMangler.
Import JavaLang.

(** A thread running one call [maybeMangle(prefix, ordinal)].  In the
    enabled branch the call reaches the shared engine twice, as
    [digest(input)] is [update(input)] followed by [digest()]; nothing
    in [Mangler] serialises the two accesses of different threads.
    Each access is one step here, so the schedules are the interleavings
    of whole engine operations: some, not all, of the ways in which
    calls that nothing synchronises can overlap. *)
Inductive Thread :=
| Called (prefix : string) (ordinal : Z)
| Updated
| Returned (result : string).

Record t := mk { mangler : Mangler.t; threads : list Thread }.

Definition step (i : nat) (s : t) : option t :=
  match threads s !! i with
  | Some (Called prefix ordinal) =>
      let input := (prefix ++ Integer_toString ordinal)%string in
      if Mangler.enabled (mangler s) then
        Some (mk (Mangler.mk (Mangler.enabled (mangler s))
                    (MessageDigest.update (Mangler.MD5 (mangler s))
                                          (getBytes input)))
                 (<[i := Updated]> (threads s)))
      else Some (mk (mangler s) (<[i := Returned input]> (threads s)))
  | Some Updated =>
      let '(bytes, md) := MessageDigest.finish (Mangler.MD5 (mangler s)) in
      Some (mk (Mangler.mk (Mangler.enabled (mangler s)) md)
               (<[i := Returned (mkString (map format_02x bytes))]> (threads s)))
  | Some (Returned _) => None
  | None => None
  end.

(** The threads take their steps in the order given by the schedule. *)
Fixpoint run (schedule : list nat) (s : t) : option t :=
  match schedule with
  | [] => Some s
  | i :: rest =>
      match step i s with
      | Some s' => run rest s'
      | None => None
      end
  end.

Definition results (s : t) : list (option string) :=
  map (fun th => match th with Returned r => Some r | _ => None end)
      (threads s).

End SharedMangler.

(** ** [java.util.concurrent.atomic.AtomicInteger] *)

Module AtomicInteger.

Definition MIN_VALUE : Z := - 2 ^ 31.
Definition MAX_VALUE : Z := 2 ^ 31 - 1.

(** 32-bit two's complement wrap-around of [Int] arithmetic. *)
Definition wrap (x : Z) : Z := (x + 2 ^ 31) mod 2 ^ 32 - 2 ^ 31.

(** [new AtomicInteger()] *)
Definition new : Z := 0.

(** [getAndIncrement()]: the value read and the value stored, in one
    atomic step. *)
Definition getAndIncrement (v : Z) : Z * Z := (v, wrap (v + 1)).

End AtomicInteger.

(** ** [ReadTreeDataset.scala]: one verification scenario *)

Module Phase.

(** Where a virtual user stands in
    [asLongAs(cond)(feed(feeder).exec(actions))]. *)
Inductive Pc :=
| AtCondition          (* about to evaluate the loop condition *)
| AtFeed               (* condition held, about to run [feed] *)
| AtExec (ordinal : Z) (* record fed, about to run the [exec] chain *)
| Exited.              (* left the loop; the scenario is over *)

(** A virtual user: whether its session contains ["accessToken"] once
    [restoreAccessTokenInSession] has run, and its position. *)
Record User := mkUser { hasAccessToken : bool; pc : Pc }.

(** The state shared by the users of one scenario: the loop bound, the
    [AtomicInteger], the records left in the feeder, and the ordinals
    whose [exec] chain has run, in completion order. *)
Record t := mk {
  target : Z;
  counter : Z;
  feeder : list Z;
  users : list User;
  visited : list Z
}.

Definition ordinals (from count : nat) : list Z := map Z.of_nat (seq from count).

(** Modelled from the spec: the feeders ([catalogActions.feeder()],
    [namespaceFetchFeeder()], ...) belong to the action classes, which
    are not part of the sources at hand.  Section 4.3: a finite sequence
    "visiting ordinals 0..count-1 in strictly increasing order"; one
    feeder is shared by the users of a scenario. *)
Definition newFeeder (count : Z) : list Z := ordinals 0 (Z.to_nat count).

(** [scenario.inject(atOnceUsers(n))]: every user starts at the loop
    condition; [sessions] tells for each user whether its session holds
    the access token. *)
Definition inject (count : Z) (sessions : list bool) : t :=
  mk count AtomicInteger.new (newFeeder count)
     (map (fun b => mkUser b AtCondition) sessions) [].

(** The sessions of [n] users that all hold the access token. *)
Definition authenticated (n : nat) : list bool := repeat true n.

Definition moveTo (i : nat) (u : User) (next : Pc) (us : list User) : list User :=
  <[i := mkUser (hasAccessToken u) next]> us.

(** One atomic step of user [i]. *)
Definition step (i : nat) (p : t) : option t :=
  match users p !! i with
  | None => None
  | Some u =>
      match pc u with
      | AtCondition =>
          (* counter.getAndIncrement() < target && session.contains("accessToken") *)
          let '(c, stored) := AtomicInteger.getAndIncrement (counter p) in
          let continue := (c <? target p) && hasAccessToken u in
          Some (mk (target p) stored (feeder p)
                   (moveTo i u (if continue then AtFeed else Exited) (users p))
                   (visited p))
      | AtFeed =>
          match feeder p with
          | record :: rest =>
              Some (mk (target p) (counter p) rest
                       (moveTo i u (AtExec record) (users p)) (visited p))
          | [] =>
              (* an exhausted feeder ends the user *)
              Some (mk (target p) (counter p) []
                       (moveTo i u Exited (users p)) (visited p))
          end
      | AtExec ordinal =>
          Some (mk (target p) (counter p) (feeder p)
                   (moveTo i u AtCondition (users p))
                   (visited p ++ [ordinal]))
      | Exited => None
      end
  end.

(** The users take their steps in the order given by the schedule. *)
Fixpoint run (schedule : list nat) (p : t) : option t :=
  match schedule with
  | [] => Some p
  | i :: rest =>
      match step i p with
      | Some p' => run rest p'
      | None => None
      end
  end.

Definition exited (u : User) : bool :=
  match pc u with Exited => true | _ => false end.

Definition terminated (p : t) : bool := forallb exited (users p).

(** The phase was cut short: some user's session lacks the token. *)
Definition aborted (p : t) : bool :=
  existsb (fun u => negb (hasAccessToken u)) (users p).

(** Bookkeeping over the user list. *)
Definition sumOver (g : User -> Z) (us : list User) : Z :=
  fold_right (fun u acc => g u + acc) 0 us.

Definition atCondition (u : User) : Z :=
  match pc u with AtCondition => 1 | _ => 0 end.
Definition atFeed (u : User) : Z :=
  match pc u with AtFeed => 1 | _ => 0 end.
Definition atExec (u : User) : Z :=
  match pc u with AtExec _ => 1 | _ => 0 end.
Definition atExit (u : User) : Z :=
  match pc u with Exited => 1 | _ => 0 end.

Definition inFlight1 (u : User) : list Z :=
  match pc u with AtExec x => [x] | _ => [] end.

(** Ordinals fed to a user whose [exec] chain has not run yet. *)
Definition inFlight (us : list User) : list Z := flat_map inFlight1 us.

(** What holds of a scenario with [k] records and the given sessions
    after [n] steps: the feeder has handed out the ordinals below [f];
    these are the visited ones and those in flight; the counter has been
    incremented once per record claimed and once per user that left. *)
Definition Inv (k : Z) (sessions : list bool) (n : nat) (p : t) : Prop :=
  target p = k /\
  map hasAccessToken (users p) = sessions /\
  exists f : nat,
    (f <= Z.to_nat k)%nat /\
    feeder p = ordinals f (Z.to_nat k - f) /\
    visited p ++ inFlight (users p) ≡ₚ ordinals 0 f /\
    counter p = Z.of_nat f + sumOver atFeed (users p) + sumOver atExit (users p) /\
    Z.of_nat f + sumOver atFeed (users p) <= k /\
    (forallb (fun b => b) sessions = true ->
     0 < sumOver atExit (users p) ->
     Z.of_nat f + sumOver atFeed (users p) = k) /\
    Z.of_nat n = counter p + Z.of_nat f + Z.of_nat (length (visited p)).

End Phase.

(** ** [ReadTreeDataset.scala]: the chain of populations given to [setUp] *)

Module Simulation.

Inductive ScenarioName :=
| WaitForAuthentication
| VerifyCatalogs
| VerifyNamespaces
| VerifyTables
| VerifyViews
| StopRefreshingToken.

(** What the users of a population run: one of the [asLongAs] loops of
    this file, over the given number of entities, or a setup scenario.

    Modelled from the spec: the scenarios [waitForAuthentication] and
    [stopRefreshingToken] belong to the setup actions, which are not part
    of the sources at hand.  Of the token lifecycle of section 4.4 only
    their place in the chain matters here: each is injected with one
    user, who performs it as one step. *)
Inductive Body :=
| AsLongAs (count : Z)
| SetupAction.

Record Population := mkPopulation {
  scenario : ScenarioName;
  body : Body;
  sessions : list bool
}.

(** A population builder with the populations chained after it.  The
    file chains one child at a time, [a.andThen(b).andThen(c)...]; a child
    starts once all users of the populations before it have terminated. *)
Definition PopulationBuilder : Type := list Population.

Definition inject (name : ScenarioName) (b : Body) (ss : list bool)
  : PopulationBuilder := [mkPopulation name b ss].

Definition andThen (parent child : PopulationBuilder) : PopulationBuilder :=
  parent ++ child.

(** [wp.readTreeDataset]: the number of users of the three throttled
    scenarios. *)
Record WorkloadParameters := mkWorkload {
  namespaceThroughput : nat;
  tableThroughput : nat;
  viewThroughput : nat
}.

(** The sessions of the [n] users injected for a scenario; [tok] tells
    whether a user's session holds the access token. *)
Definition atOnceUsers (tok : nat -> bool) (n : nat) : list bool :=
  map tok (seq 0 n).

(** The second argument of [setUp(...)]; the first, the population that
    keeps refreshing the token, runs beside the chain. *)
Definition setUp (dp : Topology.ShapeParameters) (wp : WorkloadParameters)
    (tok : ScenarioName -> nat -> bool) : PopulationBuilder :=
  andThen (andThen (andThen (andThen (andThen
    (inject WaitForAuthentication SetupAction
       (atOnceUsers (tok WaitForAuthentication) 1))
    (inject VerifyCatalogs (AsLongAs (Topology.numCatalogs dp))
       (atOnceUsers (tok VerifyCatalogs) 1)))
    (inject VerifyNamespaces (AsLongAs (Topology.numNamespaces dp))
       (atOnceUsers (tok VerifyNamespaces) (namespaceThroughput wp))))
    (inject VerifyTables (AsLongAs (Topology.numTables dp))
       (atOnceUsers (tok VerifyTables) (tableThroughput wp))))
    (inject VerifyViews (AsLongAs (Topology.numViews dp))
       (atOnceUsers (tok VerifyViews) (viewThroughput wp))))
    (inject StopRefreshingToken SetupAction
       (atOnceUsers (tok StopRefreshingToken) 1)).

(** The users of a started population. *)
Inductive Running :=
| Loop (p : Phase.t)
| Once (done : bool).

Definition start (pop : Population) : Running :=
  match body pop with
  | AsLongAs count => Loop (Phase.inject count (sessions pop))
  | SetupAction => Once false
  end.

Definition userStep (i : nat) (r : Running) : option Running :=
  match r with
  | Loop p => option_map Loop (Phase.step i p)
  | Once false => match i with O => Some (Once true) | S _ => None end
  | Once true => None
  end.

(** All users of the population have terminated. *)
Definition over (r : Running) : bool :=
  match r with
  | Loop p => Phase.terminated p
  | Once done => done
  end.

(** The simulation: the populations that are over, the one whose users
    are running, those still waiting, and the steps taken so far, each
    as the index of its population in the chain and the user. *)
Record t := mk {
  finished : list (Population * Running);
  current : option (Population * Running);
  waiting : list Population;
  trace : list (nat * nat)
}.

Definition boot (pb : PopulationBuilder) : t :=
  match pb with
  | [] => mk [] None [] []
  | pop :: rest => mk [] (Some (pop, start pop)) rest []
  end.

Inductive Label :=
| UserStep (i : nat)   (* user [i] of the running population acts *)
| StartNext.           (* the running population is over, its child starts *)

Definition step (l : Label) (s : t) : option t :=
  match current s with
  | None => None
  | Some (pop, r) =>
      match l with
      | UserStep i =>
          match userStep i r with
          | Some r' =>
              Some (mk (finished s) (Some (pop, r')) (waiting s)
                       (trace s ++ [(length (finished s), i)]))
          | None => None
          end
      | StartNext =>
          if over r then
            Some (mk (finished s ++ [(pop, r)])
                     (match waiting s with
                      | [] => None
                      | next :: _ => Some (next, start next)
                      end)
                     (tl (waiting s)) (trace s))
          else None
      end
  end.

Fixpoint run (labels : list Label) (s : t) : option t :=
  match labels with
  | [] => Some s
  | l :: rest =>
      match step l s with
      | Some s' => run rest s'
      | None => None
      end
  end.

(** A population is complete when all its users have terminated and, for
    a verification loop, either the counter has reached the target, every
    entity having been visited, or the phase was aborted for want of the
    access token. *)
Definition completed (st : Population * Running) : Prop :=
  over (snd st) = true /\
  match snd st with
  | Loop p =>
      (Phase.target p <= Phase.counter p /\
       Phase.visited p ≡ₚ Phase.ordinals 0 (Z.to_nat (Phase.target p))) \/
      Phase.aborted p = true
  | Once _ => True
  end.

(** The populations of the chain whose users have been started. *)
Definition started (s : t) : list Population :=
  map fst (finished s) ++
  match current s with Some (pop, _) => [pop] | None => [] end.

(** The sizes the counters can hold. *)
Definition populationOk (pop : Population) : Prop :=
  match body pop with
  | AsLongAs count =>
      0 <= count /\ (1 <= length (sessions pop))%nat /\
      count + Z.of_nat (length (sessions pop)) <= AtomicInteger.MAX_VALUE
  | SetupAction => True
  end.

(** The running population is in a state its users can reach. *)
Definition reachable (st : Population * Running) : Prop :=
  match body (fst st), snd st with
  | AsLongAs count, Loop p => exists n, Phase.Inv count (sessions (fst st)) n p
  | SetupAction, Once _ => True
  | _, _ => False
  end.

(** What holds of a simulation of the chain [pb] at any time: the
    populations started so far and those waiting make up the chain, in
    its order; every population that is over is complete; the steps
    recorded are ordered by population and none belongs to a population
    that has not started. *)
Definition Ordered (pb : PopulationBuilder) (s : t) : Prop :=
  started s ++ waiting s = pb /\
  Forall completed (finished s) /\
  match current s with
  | Some st => reachable st
  | None => waiting s = []
  end /\
  StronglySorted le (map fst (trace s)) /\
  Forall (fun e => (fst e <= length (finished s))%nat) (trace s).

End Simulation.

(** ** JavaScript strings and [encodeURIComponent] *)

Module Js.

(** A JavaScript string is a sequence of UTF-16 code units. *)
Definition JsString : Type := list Z.

(** The code units of an ASCII literal. *)
Definition lit (s : string) : JsString :=
  map (fun c => Z.of_nat (nat_of_ascii c)) (list_ascii_of_string s).

(** [Array.prototype.join] on an array of strings. *)
Definition join (sep : JsString) (parts : list JsString) : JsString :=
  match parts with
  | [] => []
  | first :: others => first ++ flat_map (fun part => sep ++ part) others
  end.

Definition isLeadSurrogate (c : Z) : bool := (0xD800 <=? c) && (c <=? 0xDBFF).
Definition isTrailSurrogate (c : Z) : bool := (0xDC00 <=? c) && (c <=? 0xDFFF).

(** The characters [encodeURIComponent] leaves alone: letters, digits
    and the marks [- _ . ! ~ * ' ( )]. *)
Definition isUnreserved (c : Z) : bool :=
  ((65 <=? c) && (c <=? 90)) || ((97 <=? c) && (c <=? 122)) ||
  ((48 <=? c) && (c <=? 57)) ||
  existsb (Z.eqb c) [45; 95; 46; 33; 126; 42; 39; 40; 41].

Definition codePoint (lead trail : Z) : Z :=
  (lead - 0xD800) * 0x400 + (trail - 0xDC00) + 0x10000.

Definition utf8 (cp : Z) : list Z :=
  if cp <? 0x80 then [cp]
  else if cp <? 0x800 then [0xC0 + cp / 64; 0x80 + cp mod 64]
  else if cp <? 0x10000 then
    [0xE0 + cp / 4096; 0x80 + (cp / 64) mod 64; 0x80 + cp mod 64]
  else
    [0xF0 + cp / 262144; 0x80 + (cp / 4096) mod 64;
     0x80 + (cp / 64) mod 64; 0x80 + cp mod 64].

Definition hexUpper (d : Z) : ascii :=
  nth (Z.to_nat d)
    ["0"; "1"; "2"; "3"; "4"; "5"; "6"; "7";
     "8"; "9"; "A"; "B"; "C"; "D"; "E"; "F"]%char "0"%char.

(** One octet as [%XX]. *)
Definition escape (octet : Z) : string :=
  String "%" (String (hexUpper (octet / 16))
                     (String (hexUpper (octet mod 16)) EmptyString)).

Definition escapeAll (octets : list Z) : string :=
  fold_right (fun o acc => (escape o ++ acc)%string) EmptyString octets.

Definition charOf (c : Z) : ascii := ascii_of_nat (Z.to_nat c).

(** [encodeURIComponent]: [None] stands for the [URIError] thrown on a
    surrogate that is not part of a pair. *)
Fixpoint encodeURIComponent (s : JsString) : option string :=
  match s with
  | [] => Some EmptyString
  | c :: rest =>
      if isUnreserved c then
        option_map (String (charOf c)) (encodeURIComponent rest)
      else if isLeadSurrogate c then
        match rest with
        | d :: rest' =>
            if isTrailSurrogate d then
              option_map (String.append (escapeAll (utf8 (codePoint c d))))
                         (encodeURIComponent rest')
            else None
        | [] => None
        end
      else if isTrailSurrogate c then None
      else option_map (String.append (escapeAll (utf8 c)))
                      (encodeURIComponent rest)
  end.

(** [String.prototype.isWellFormed]: no surrogate outside a pair. *)
Fixpoint isWellFormed (s : JsString) : bool :=
  match s with
  | [] => true
  | c :: rest =>
      if isLeadSurrogate c then
        match rest with
        | d :: rest' => isTrailSurrogate d && isWellFormed rest'
        | [] => false
        end
      else negb (isTrailSurrogate c) && isWellFormed rest
  end.

End Js.

(** ** The console's views API client *)

Module ViewsApi.
Import Js.

Inductive Method := GET | DELETE | POST.

(** A call on the catalog client: method, path and whether a request
    body is sent along. *)
Record Request := mkRequest { method : Method; url : string; withBody : bool }.

(** [encodeNamespace]: the parts joined by the unit separator. *)
Definition encodeNamespace (namespace : list JsString) : JsString :=
  join [0x1F] namespace.

Definition bind {A B : Type} (o : option A) (k : A -> option B) : option B :=
  match o with Some a => k a | None => None end.

(** [`/${encodeURIComponent(prefix)}/namespaces/${encodeURIComponent(namespaceStr)}/views`] *)
Definition viewsPath (prefix : JsString) (namespaceStr : JsString) : option string :=
  bind (encodeURIComponent prefix) (fun p =>
  bind (encodeURIComponent namespaceStr) (fun n =>
  Some ("/" ++ p ++ "/namespaces/" ++ n ++ "/views")%string)).

(** [`/${...}/namespaces/${...}/views/${encodeURIComponent(viewName)}`] *)
Definition viewPath (prefix namespaceStr viewName : JsString) : option string :=
  bind (encodeURIComponent prefix) (fun p =>
  bind (encodeURIComponent namespaceStr) (fun n =>
  bind (encodeURIComponent viewName) (fun v =>
  Some ("/" ++ p ++ "/namespaces/" ++ n ++ "/views/" ++ v)%string))).

(** The four operations of [viewsApi], [list_] standing for [list];
    [None] when building the path throws, in which case no request is
    made. *)
Definition list_ (prefix : JsString) (namespace : list JsString) : option Request :=
  let namespaceStr := encodeNamespace namespace in
  option_map (fun u => mkRequest GET u false) (viewsPath prefix namespaceStr).

Definition get (prefix : JsString) (namespace : list JsString)
    (viewName : JsString) : option Request :=
  let namespaceStr := encodeNamespace namespace in
  option_map (fun u => mkRequest GET u false)
             (viewPath prefix namespaceStr viewName).

Definition delete (prefix : JsString) (namespace : list JsString)
    (viewName : JsString) : option Request :=
  let namespaceStr := encodeNamespace namespace in
  option_map (fun u => mkRequest DELETE u false)
             (viewPath prefix namespaceStr viewName).

Definition create (prefix : JsString) (namespace : list JsString) : option Request :=
  let namespaceStr := encodeNamespace namespace in
  option_map (fun u => mkRequest POST u true) (viewsPath prefix namespaceStr).

(** The segments of a path, split at every [/]. *)
Fixpoint segments (s : string) : list string :=
  match s with
  | EmptyString => [EmptyString]
  | String c rest =>
      if Ascii.eqb c "/" then EmptyString :: segments rest
      else match segments rest with
           | seg :: more => String c seg :: more
           | [] => [String c EmptyString]
           end
  end.

Definition noSlash (s : string) : bool :=
  forallb (fun c => negb (Ascii.eqb c "/")) (list_ascii_of_string s).

(** The encoded parts joined by the encoded separator. *)
Definition joinEncoded (parts : list string) : string :=
  match parts with
  | [] => EmptyString
  | first :: others =>
      (first ++ fold_right (fun part acc => ("%1F" ++ part ++ acc)%string)
                           EmptyString others)%string
  end.

End ViewsApi.

(** ** The query function that loads the details of a table *)

Module TableQuery.

(** The arguments both fetches receive. *)
Record Args := mkArgs {
  catalogName : Js.JsString;
  namespace : list Js.JsString;
  tableName : Js.JsString
}.

Inductive Call :=
| TablesGet (a : Args)          (* [tablesApi.get] *)
| TablesGetGeneric (a : Args).  (* [tablesApi.getGeneric] *)

Section Async.
Variables (IcebergTable GenericTable Error : Type).

(** [LoadTableResult | LoadGenericTableResponse] *)
Inductive TableData :=
| Iceberg (t : IcebergTable)
| Generic (t : GenericTable).

(** The body of an [async] function: it returns, throws, or awaits one
    of the two fetches and goes on with the outcome, [inl] for a
    rejected promise and [inr] for a resolved one. *)
Inductive Async :=
| Return (d : TableData)
| Throw (e : Error)
| AwaitGet (a : Args) (k : Error + IcebergTable -> Async)
| AwaitGetGeneric (a : Args) (k : Error + GenericTable -> Async).

(** [tableQuery.queryFn] of the table details page. *)
Definition queryFn (a : Args) : Async :=
  (* Try to fetch as an Iceberg table first *)
  AwaitGet a (fun iceberg =>
    match iceberg with
    | inr table => Return (Iceberg table)
    | inl icebergError =>
        (* If that fails, try to fetch as a generic table *)
        AwaitGetGeneric a (fun generic =>
          match generic with
          | inr table => Return (Generic table)
          | inl _ =>
              (* If both fail, throw the original Iceberg error *)
              Throw icebergError
          end)
    end).

(** [queryFn] of [TableDetailsDrawer], in the create-view modal. *)
Definition drawerQueryFn (a : Args) : Async :=
  AwaitGet a (fun iceberg =>
    match iceberg with
    | inr table => Return (Iceberg table)
    | inl icebergError =>
        AwaitGetGeneric a (fun generic =>
          match generic with
          | inr table => Return (Generic table)
          | inl _ => Throw icebergError
          end)
    end).

(** The catalog service behind the two fetches, with its own state. *)
Record Server (S : Type) := mkServer {
  tablesGet : Args -> S -> (Error + IcebergTable) * S;
  tablesGetGeneric : Args -> S -> (Error + GenericTable) * S
}.

(** Running an async body against a server: the outcome, the state the
    server is left in, and the fetches made, in order. *)
Fixpoint exec {S : Type} (srv : Server S) (p : Async) (st : S) (calls : list Call)
  : (Error + TableData) * S * list Call :=
  match p with
  | Return d => (inr d, st, calls)
  | Throw e => (inl e, st, calls)
  | AwaitGet a k =>
      let '(r, st') := tablesGet S srv a st in
      exec srv (k r) st' (calls ++ [TablesGet a])
  | AwaitGetGeneric a k =>
      let '(r, st') := tablesGetGeneric S srv a st in
      exec srv (k r) st' (calls ++ [TablesGetGeneric a])
  end.

End Async.

Arguments Iceberg {IcebergTable GenericTable} t.
Arguments Generic {IcebergTable GenericTable} t.
Arguments Return {IcebergTable GenericTable Error} d.
Arguments Throw {IcebergTable GenericTable Error} e.
Arguments AwaitGet {IcebergTable GenericTable Error} a k.
Arguments AwaitGetGeneric {IcebergTable GenericTable Error} a k.
Arguments queryFn {IcebergTable GenericTable Error} a.
Arguments drawerQueryFn {IcebergTable GenericTable Error} a.
Arguments mkServer {IcebergTable GenericTable Error S} _ _.
Arguments tablesGet {IcebergTable GenericTable Error S} _ _ _.
Arguments tablesGetGeneric {IcebergTable GenericTable Error S} _ _ _.
Arguments exec {IcebergTable GenericTable Error S} srv p st calls.

End TableQuery.

(** ** Further invariants of a verification scenario *)

Module PhaseInvariants.
Import Phase.

(** A scenario none of whose sessions holds the access token: every
    user is at the loop condition or has left, nothing was fed or
    visited, and the counter counts the users that left. *)
Definition Unauthenticated (k : Z) (p : t) : Prop :=
  target p = k /\
  visited p = [] /\
  feeder p = newFeeder k /\
  Forall (fun u => hasAccessToken u = false /\
                   (pc u = AtCondition \/ pc u = Exited)) (users p) /\
  counter p = sumOver atExit (users p).

(** A scenario with a single user: the feeder has handed out the
    ordinals below [f], and they have been visited in that order, the
    last one possibly still in flight. *)
Definition InOrder (k : Z) (p : t) : Prop :=
  exists (f : nat) (u : User),
    users p = [u] /\
    feeder p = ordinals f (Z.to_nat k - f) /\
    match pc u with
    | AtExec x =>
        exists g : nat, f = S g /\ x = Z.of_nat g /\ visited p = ordinals 0 g
    | _ => visited p = ordinals 0 f
    end.

End PhaseInvariants.

(** ** Further invariants of the simulation *)

Module SimulationInvariants.
Import Simulation.

(** A population that is over has done all its work: a verification
    loop has visited each of its entities once, a setup scenario has
    run. *)
Definition visitedAll (st : Population * Running) : Prop :=
  match body (fst st), snd st with
  | AsLongAs count, Loop p =>
      Phase.terminated p = true /\
      Phase.visited p ≡ₚ Phase.ordinals 0 (Z.to_nat count)
  | SetupAction, Once done => done = true
  | _, _ => False
  end.

(** Every session of the population holds the access token. *)
Definition authenticated (pop : Population) : Prop :=
  forallb (fun b => b) (sessions pop) = true.

(** [Ordered], keeping in addition how each finished population was
    reached. *)
Definition Tracked (pb : PopulationBuilder) (s : t) : Prop :=
  Ordered pb s /\
  Forall (fun st => reachable st /\ over (snd st) = true) (finished s).

End SimulationInvariants.

(** ** What threads sharing a mangler can observe *)

Module SharedManglerInvariants.
Import JavaLang SharedMangler.

Definition called (th : Thread) : bool :=
  match th with Called _ _ => true | _ => false end.

(** A thread of a disabled mangler has either not run yet or returned
    the plain name of its call. *)
Definition plainOutcome (init cur : Thread) : Prop :=
  cur = init \/
  exists prefix ordinal,
    init = Called prefix ordinal /\
    cur = Returned (prefix ++ Integer_toString ordinal)%string.

(** A string of 32 lowercase hexadecimal characters. *)
Definition hexName (name : string) : Prop :=
  String.length name = 32%nat /\
  forallb isLowerHex (list_ascii_of_string name) = true.

Definition hexOutcome (cur : Thread) : Prop :=
  match cur with Returned name => hexName name | _ => True end.

Definition inProgress (th : Thread) : bool :=
  match th with Updated => true | _ => false end.

End SharedManglerInvariants.

(** ** The namespace of the details pages and drawers *)

Module Route.
Import Js.

(** [String.prototype.split] with a separator of one code unit. *)
Fixpoint split (sep : Z) (s : JsString) : list JsString :=
  match s with
  | [] => [[]]
  | c :: rest =>
      if c =? sep then [] :: split sep rest
      else match split sep rest with
           | part :: more => (c :: part) :: more
           | [] => [[c]]
           end
  end.

(** The code unit of ["."]. *)
Definition dot : Z := 46.

(** [const namespaceArray = namespaceParam?.split(".") || []]; a route
    parameter that is missing is [None]. *)
Definition namespaceArray (namespaceParam : option JsString) : list JsString :=
  match namespaceParam with
  | Some s => split dot s
  | None => []
  end.

(** [const nsPath = namespaceArray.join(".")] *)
Definition nsPath (namespaceParam : option JsString) : JsString :=
  join [dot] (namespaceArray namespaceParam).

(** [!!param] for a route parameter: defined and not the empty string. *)
Definition truthy (param : option JsString) : bool :=
  match param with
  | Some (_ :: _) => true
  | _ => false
  end.

(** [enabled: !!catalogName && namespaceArray.length > 0 && !!viewName]
    of [viewQuery] (and of [tableQuery], with the table name). *)
Definition queryEnabled (catalogName namespaceParam entityName : option JsString)
  : bool :=
  truthy catalogName
  && (0 <? length (namespaceArray namespaceParam))%nat
  && truthy entityName.

(** [if (!catalogName || !namespaceParam || !viewName)]: the page shows
    that the parameters are required. *)
Definition paramsMissing (catalogName namespaceParam entityName : option JsString)
  : bool :=
  negb (truthy catalogName) || negb (truthy namespaceParam)
  || negb (truthy entityName).

(** [queryKey: ["view", catalogName, namespace.join("."), viewName]] of
    the drawers; the table drawer uses ["table"]. *)
Definition queryKey (kind : string) (catalogName : JsString)
    (namespace : list JsString) (entityName : JsString)
  : JsString * JsString * JsString * JsString :=
  (lit kind, catalogName, join [dot] namespace, entityName).

(** The text of the encoded parts with a dot between them. *)
Definition joinDots (parts : list string) : string :=
  match parts with
  | [] => EmptyString
  | first :: others =>
      (first ++ fold_right (fun part acc => ("." ++ part ++ acc)%string)
                           EmptyString others)%string
  end.

End Route.

(** ** The create-view form *)

Module ViewForm.
Import Js.

Definition isNameStart (c : Z) : bool :=
  ((65 <=? c) && (c <=? 90)) || ((97 <=? c) && (c <=? 122)) || (c =? 95).

Definition isNameChar (c : Z) : bool :=
  isNameStart c || ((48 <=? c) && (c <=? 57)).

(** [/^[a-zA-Z_][a-zA-Z0-9_]*$/.test(name)] *)
Definition nameRegex (name : JsString) : bool :=
  match name with
  | c :: rest => isNameStart c && forallb isNameChar rest
  | [] => false
  end.

Record FormValues := mkValues {
  name : JsString;
  sql : JsString;
  dialect : JsString
}.

(** [z.string().min(1)] *)
Definition min1 (s : JsString) : bool := (1 <=? length s)%nat.

(** The form's [schema]: the values are accepted when every check of
    every field passes. *)
Definition schemaAccepts (v : FormValues) : bool :=
  (min1 (name v) && nameRegex (name v)) && min1 (sql v) && min1 (dialect v).

(** [defaultValues] of the form. *)
Definition defaultValues : FormValues := mkValues [] [] (lit "spark").

(** The characters of a string of code units below 256. *)
Definition text (s : JsString) : string :=
  string_of_list_ascii (map charOf s).

(** The characters a path built by the views API can contain: the
    unreserved ones, the percent sign and the slash. *)
Definition pathChar (ch : ascii) : bool :=
  let n := Z.of_nat (nat_of_ascii ch) in
  isUnreserved n || (n =? 37) || (n =? 47).

End ViewForm.

(** ** The table details page: what it shows and what it deletes *)

Module TableDetails.
Import TableQuery.

(** The requests of the two delete mutations. *)
Inductive Mutation :=
| TablesDelete (a : Args)          (* [tablesApi.delete] *)
| TablesDeleteGeneric (a : Args).  (* [tablesApi.deleteGeneric] *)

Section Page.
Variables (LoadTableResult LoadGenericTableResponse GenericTable Error : Type).

(** [tableQuery.data] when defined: the object one of the two fetches
    resolved with. *)
Definition Data : Type := TableData LoadTableResult LoadGenericTableResponse.

(** Two observations of the object, as JavaScript makes them whatever
    the declared type: ["table" in tableData], and the value of
    [tableData.table] when it is truthy ([None] for a missing property,
    [null] or any other falsy value). *)
Variable hasTableKey : Data -> bool.
Variable tableProperty : Data -> option GenericTable.

(** The responses are as their TypeScript types declare them: a
    [LoadTableResult] has no [table], a [LoadGenericTableResponse] has
    one that holds a [GenericTable]. *)
Definition wellTyped : Prop :=
  (forall t, hasTableKey (Iceberg t) = false) /\
  (forall g, hasTableKey (Generic g) = true /\ tableProperty (Generic g) <> None).

(** What the page reads of [tableQuery]. *)
Record QueryResult := mkQueryResult {
  isLoading : bool;
  error : option Error;
  data : option Data
}.

(** The query while its first fetch is running, retries included. *)
Definition loading : QueryResult := mkQueryResult true None None.

(** The query once its first fetch is over: the outcome of the last run
    of the query function, the data of a resolved promise or the error
    of a rejected one. *)
Definition settled (outcome : Error + Data) : QueryResult :=
  match outcome with
  | inr d => mkQueryResult false None (Some d)
  | inl e => mkQueryResult false (Some e) None
  end.

(** The first fetch of [useQuery]: the query function is run, and after
    a rejection it is run again as long as retries are left.  [tableQuery]
    passes no [retry] option, so the count is the query client's, which
    is configured outside this page (3 unless set otherwise); every run
    makes its fetches anew. *)
Fixpoint firstFetch {S : Type}
    (srv : Server LoadTableResult LoadGenericTableResponse Error S)
    (retry : nat) (a : Args) (st : S) (calls : list Call)
  : (Error + Data) * S * list Call :=
  let '(outcome, st', calls') := exec srv (queryFn a) st calls in
  match outcome, retry with
  | inl _, Datatypes.S retry' => firstFetch srv retry' a st' calls'
  | _, _ => (outcome, st', calls')
  end.

(** [const isGenericTable = tableData ? "table" in tableData : false] *)
Definition isGenericTable (tableData : option Data) : bool :=
  match tableData with
  | Some d => hasTableKey d
  | None => false
  end.

(** [isGenericTable && tableData ? (tableData as
    LoadGenericTableResponse).table : null], as far as its truthiness
    and, when truthy, its value go. *)
Definition genericTableData (tableData : option Data) : option GenericTable :=
  match isGenericTable tableData, tableData with
  | true, Some d => tableProperty d
  | _, _ => None
  end.

(** [!isGenericTable && tableData ? (tableData as LoadTableResult) :
    null]: the object itself, whichever fetch it came from. *)
Definition icebergTableData (tableData : option Data) : option Data :=
  match negb (isGenericTable tableData), tableData with
  | true, Some d => Some d
  | _, _ => None
  end.

(** What [renderTableContent] puts on the page. *)
Inductive Content :=
| Loading                              (* [renderLoading] *)
| ErrorMessage (e : Error)             (* [renderError] *)
| NotFound                             (* [renderNotFound] *)
| GenericTableCard (t : GenericTable)  (* [renderGenericTable] *)
| IcebergTableCard (d : Data)          (* [renderIcebergTable] *)
| Null.                                (* [return null] *)

(** [if (!genericTableData) return null] and then the card. *)
Definition renderGenericTable (q : QueryResult) : Content :=
  match genericTableData (data q) with
  | None => Null
  | Some t => GenericTableCard t
  end.

(** [if (!icebergTableData) return null] and then the card. *)
Definition renderIcebergTable (q : QueryResult) : Content :=
  match icebergTableData (data q) with
  | None => Null
  | Some d => IcebergTableCard d
  end.

Definition renderTableContent (q : QueryResult) : Content :=
  if isLoading q then Loading
  else match error q with
       | Some e => ErrorMessage e
       | None =>
           match data q with
           | None => NotFound
           | Some _ =>
               if isGenericTable (data q) then renderGenericTable q
               else renderIcebergTable q
           end
       end.

(** [handleDelete]: the mutation that is run. *)
Definition handleDelete (a : Args) (q : QueryResult) : Mutation :=
  if isGenericTable (data q) then TablesDeleteGeneric a else TablesDelete a.

(** The Rename and Edit Properties buttons are there for
    [!isGenericTable]; they and Delete are [disabled={!tableData}]. *)
Definition renameShown (q : QueryResult) : bool := negb (isGenericTable (data q)).

Definition buttonsDisabled (q : QueryResult) : bool :=
  match data q with
  | Some _ => false
  | None => true
  end.

(** The rename and edit modals are mounted for [icebergTableData], the
    delete confirmation for [tableData]. *)
Definition modalsMounted (q : QueryResult) : bool :=
  match icebergTableData (data q) with
  | Some _ => true
  | None => false
  end.

Definition deleteDialogMounted (q : QueryResult) : bool :=
  match data q with
  | Some _ => true
  | None => false
  end.

End Page.

Arguments wellTyped {LoadTableResult LoadGenericTableResponse GenericTable}
  hasTableKey tableProperty.
Arguments mkQueryResult {LoadTableResult LoadGenericTableResponse Error} _ _ _.
Arguments isLoading {LoadTableResult LoadGenericTableResponse Error} _.
Arguments error {LoadTableResult LoadGenericTableResponse Error} _.
Arguments data {LoadTableResult LoadGenericTableResponse Error} _.
Arguments loading {LoadTableResult LoadGenericTableResponse Error}.
Arguments settled {LoadTableResult LoadGenericTableResponse Error} outcome.
Arguments firstFetch {LoadTableResult LoadGenericTableResponse Error S}
  srv retry a st calls.
Arguments isGenericTable {LoadTableResult LoadGenericTableResponse}
  hasTableKey tableData.
Arguments genericTableData {LoadTableResult LoadGenericTableResponse GenericTable}
  hasTableKey tableProperty tableData.
Arguments icebergTableData {LoadTableResult LoadGenericTableResponse}
  hasTableKey tableData.
Arguments Loading {LoadTableResult LoadGenericTableResponse GenericTable Error}.
Arguments ErrorMessage {LoadTableResult LoadGenericTableResponse GenericTable Error} e.
Arguments NotFound {LoadTableResult LoadGenericTableResponse GenericTable Error}.
Arguments GenericTableCard
  {LoadTableResult LoadGenericTableResponse GenericTable Error} t.
Arguments IcebergTableCard
  {LoadTableResult LoadGenericTableResponse GenericTable Error} d.
Arguments Null {LoadTableResult LoadGenericTableResponse GenericTable Error}.
Arguments renderGenericTable
  {LoadTableResult LoadGenericTableResponse GenericTable Error}
  hasTableKey tableProperty q.
Arguments renderIcebergTable
  {LoadTableResult LoadGenericTableResponse GenericTable Error} hasTableKey q.
Arguments renderTableContent
  {LoadTableResult LoadGenericTableResponse GenericTable Error}
  hasTableKey tableProperty q.
Arguments handleDelete {LoadTableResult LoadGenericTableResponse Error}
  hasTableKey a q.
Arguments renameShown {LoadTableResult LoadGenericTableResponse Error}
  hasTableKey q.
Arguments buttonsDisabled {LoadTableResult LoadGenericTableResponse Error} q.
Arguments modalsMounted {LoadTableResult LoadGenericTableResponse Error}
  hasTableKey q.
Arguments deleteDialogMounted {LoadTableResult LoadGenericTableResponse Error} q.

End TableDetails.

(** ** The current schema, version and SQL of a table or view *)

Module Metadata.

Record TableSchema := mkSchema {
  schema_id : Z;              (* ["schema-id"] *)
  fields : list string
}.

Record Representation := mkRepresentation {
  type : string;
  sql : string;
  dialect : string
}.

Record ViewVersion := mkVersion {
  version_id : Z;                           (* ["version-id"] *)
  version_schema_id : Z;                    (* ["schema-id"] *)
  representations : option (list Representation)
}.

Record ViewMetadata := mkViewMetadata {
  view_schemas : option (list TableSchema);  (* [schemas] *)
  versions : option (list ViewVersion);
  current_version_id : Z                     (* ["current-version-id"] *)
}.

Record LoadViewResult := mkView {
  view_metadata : option ViewMetadata        (* [metadata] *)
}.

Record TableMetadata := mkTableMetadata {
  table_schemas : option (list TableSchema); (* [schemas] *)
  current_schema_id : Z                      (* ["current-schema-id"] *)
}.

Record LoadTableResult := mkTable {
  table_metadata : option TableMetadata      (* [metadata] *)
}.

(** [a || b] where [a] is an object or [undefined]. *)
Definition orElse {A : Type} (a b : option A) : option A :=
  match a with
  | Some x => Some x
  | None => b
  end.

(** [viewData?.metadata?.schemas] *)
Definition schemasOf (viewData : option LoadViewResult) : option (list TableSchema) :=
  match viewData with
  | Some v =>
      match view_metadata v with
      | Some md => view_schemas md
      | None => None
      end
  | None => None
  end.

(** [currentVersion], the same on the view page and in the view drawer:
    [viewData?.metadata?.versions?.find((v) => v["version-id"] ===
    viewData.metadata["current-version-id"])]. *)
Definition currentVersion (viewData : option LoadViewResult) : option ViewVersion :=
  match viewData with
  | Some v =>
      match view_metadata v with
      | Some md =>
          match versions md with
          | Some vs =>
              find (fun v => version_id v =? current_version_id md) vs
          | None => None
          end
      | None => None
      end
  | None => None
  end.

(** [currentSql]: [currentVersion?.representations?.find((r) => r.type
    === "sql")]. *)
Definition currentSql (viewData : option LoadViewResult) : option Representation :=
  match currentVersion viewData with
  | Some v =>
      match representations v with
      | Some rs => find (fun r => String.eqb (type r) "sql") rs
      | None => None
      end
  | None => None
  end.

(** [currentSchema] of the view details page: the schema whose id is the
    current version id, or else the first schema. *)
Definition pageCurrentSchema (viewData : option LoadViewResult) : option TableSchema :=
  orElse
    match viewData with
    | Some v =>
        match view_metadata v with
        | Some md =>
            match view_schemas md with
            | Some ss => find (fun s => schema_id s =? current_version_id md) ss
            | None => None
            end
        | None => None
        end
    | None => None
    end
    match schemasOf viewData with
    | Some ss => hd_error ss
    | None => None
    end.

(** [currentSchema] of the view details drawer: the schema whose id is
    the schema id of the current version, or else the first schema.  With
    no current version the id compared with is [undefined], which no
    schema id equals. *)
Definition drawerCurrentSchema (viewData : option LoadViewResult) : option TableSchema :=
  orElse
    match schemasOf viewData with
    | Some ss =>
        find (fun s =>
                match currentVersion viewData with
                | Some v => schema_id s =? version_schema_id v
                | None => false
                end) ss
    | None => None
    end
    match schemasOf viewData with
    | Some ss => hd_error ss
    | None => None
    end.

(** [currentSchema] of the table details page, for an Iceberg table:
    [icebergTableData?.metadata?.schemas?.find((s) => s["schema-id"] ===
    icebergTableData.metadata["current-schema-id"])], with no fallback. *)
Definition tableCurrentSchema (icebergTableData : option LoadTableResult)
  : option TableSchema :=
  match icebergTableData with
  | Some t =>
      match table_metadata t with
      | Some md =>
          match table_schemas md with
          | Some ss => find (fun s => schema_id s =? current_schema_id md) ss
          | None => None
          end
      | None => None
      end
  | None => None
  end.

End Metadata.

(* ===================================================================== *)
(** * Part II: properties                                                 *)
(* ===================================================================== *)

Module TopologyFacts.
Import Topology.

Lemma levelSum_closed (N : Z) (D : nat) :
  (N - 1) * levelSum N D = N ^ Z.of_nat D - 1.
Proof.
  induction D as [|d IH].
  - simpl. lia.
  - cbn [levelSum]. unfold levelSize.
    rewrite Z.mul_add_distr_l, IH.
    rewrite Nat2Z.inj_succ, Z.pow_succ_r by lia. lia.
Qed.

Lemma levelSum_one (D : nat) : levelSum 1 D = Z.of_nat D.
Proof.
  induction D as [|d IH]; [reflexivity|].
  cbn [levelSum]. unfold levelSize. rewrite IH, Z.pow_1_l by lia. lia.
Qed.

Lemma numberOfNodes_levelSum (N D : Z) :
  1 <= N -> 0 <= D -> numberOfNodes N D = levelSum N (Z.to_nat D).
Proof.
  intros HN HD. unfold numberOfNodes.
  destruct (Z.ltb_spec 1 N) as [Hlt|Hle].
  - pose proof (levelSum_closed N (Z.to_nat D)) as Hc.
    rewrite Z2Nat.id in Hc by lia. rewrite <- Hc.
    rewrite Z.mul_comm, Z.div_mul by lia. reflexivity.
  - assert (N = 1) as -> by lia. rewrite levelSum_one. lia.
Qed.

(** C2: for a tree of width [N >= 1] and depth [D >= 1] the namespace
    count is [(N^D - 1)/(N - 1)] when [N > 1] and [D] when [N = 1]; the
    division is exact and the count is the number of nodes of the
    complete [N]-ary tree, level by level.  Width 2 and depth 3 give 7,
    width 10 and depth 2 give 11, width 1 and depth 1000 give 1000. *)
Theorem totalNamespaces_formula (N D : Z) (HN : 1 <= N) (HD : 1 <= D) :
  (1 < N -> numberOfNodes N D = (N ^ D - 1) / (N - 1)) /\
  (N = 1 -> numberOfNodes N D = D) /\
  (N - 1) * numberOfNodes N D = N ^ D - 1 /\
  numberOfNodes N D = levelSum N (Z.to_nat D) /\
  numberOfNodes 2 3 = 7 /\
  numberOfNodes 10 2 = 11 /\
  numberOfNodes 1 1000 = 1000.
Proof.
  assert (numberOfNodes N D = levelSum N (Z.to_nat D)) as Hsum
    by (apply numberOfNodes_levelSum; lia).
  repeat split; try reflexivity; try exact Hsum.
  - intros Hlt. unfold numberOfNodes.
    destruct (Z.ltb_spec 1 N); [reflexivity | lia].
  - intros ->. reflexivity.
  - rewrite Hsum, levelSum_closed, Z2Nat.id by lia. reflexivity.
Qed.

Lemma totalNamespaces_formula_witness :
  numberOfNodes 3 4 = (3 ^ 4 - 1) / (3 - 1) /\ numberOfNodes 3 4 = 40.
Proof.
  destruct (totalNamespaces_formula 3 4 ltac:(lia) ltac:(lia))
    as (H & _).
  split; [apply H; lia | reflexivity].
Defined.

Lemma lastLevel_nonneg (N D : Z) :
  1 <= N -> 1 <= D -> 1 <= numberOfLastLevelElements N D.
Proof.
  intros HN HD. unfold numberOfLastLevelElements.
  apply Z.lt_pred_le. simpl. apply Z.pow_pos_nonneg; lia.
Qed.

Lemma capCount_spec (possible cap : Z) :
  (cap = -1 -> capCount possible cap = possible) /\
  (cap <> -1 -> capCount possible cap = Z.min possible cap) /\
  capCount possible cap <= possible.
Proof.
  unfold capCount. destruct (Z.eqb_spec cap (-1)); repeat split; lia.
Qed.

(** C3: for a valid shape the table count is [N^(D-1) * T] when
    [maxTables] is the sentinel [-1] and [min (N^(D-1) * T) maxTables]
    otherwise, hence never above [N^(D-1) * T]; likewise for views with
    [V] and [maxViews].  Width 2, depth 4, 5 tables per leaf and a cap
    of 10 give 10 tables, not 40. *)
Theorem totalTables_capped (sp : ShapeParameters) (Hv : validShape sp) :
  let leaves := treeWidth sp ^ (treeDepth sp - 1) in
  (maxTables sp = -1 -> numTables sp = leaves * tablesPerLeaf sp) /\
  (maxTables sp <> -1 ->
     numTables sp = Z.min (leaves * tablesPerLeaf sp) (maxTables sp)) /\
  0 <= numTables sp <= leaves * tablesPerLeaf sp /\
  (maxViews sp = -1 -> numViews sp = leaves * viewsPerLeaf sp) /\
  (maxViews sp <> -1 ->
     numViews sp = Z.min (leaves * viewsPerLeaf sp) (maxViews sp)) /\
  0 <= numViews sp <= leaves * viewsPerLeaf sp /\
  numTables (mkShape 1 2 4 5 3 10 (-1) false) = 10 /\
  2 ^ (4 - 1) * 5 = 40.
Proof.
  destruct Hv as (HN & HD & HT & HV & HmT & HmV).
  pose proof (lastLevel_nonneg _ _ HN HD) as Hl.
  unfold numberOfLastLevelElements in Hl.
  intros leaves. unfold numTables, numViews, numberOfLastLevelElements.
  fold leaves. fold leaves in Hl.
  pose proof (capCount_spec (leaves * tablesPerLeaf sp) (maxTables sp))
    as (Ht1 & Ht2 & Ht3).
  pose proof (capCount_spec (leaves * viewsPerLeaf sp) (maxViews sp))
    as (Hv1 & Hv2 & Hv3).
  assert (0 <= leaves * tablesPerLeaf sp) by nia.
  assert (0 <= leaves * viewsPerLeaf sp) by nia.
  repeat split; try assumption; try reflexivity.
  - destruct HmT as [E|E]; [rewrite Ht1 by exact E; lia|].
    destruct (Z.eq_dec (maxTables sp) (-1)) as [E'|E']; [lia|].
    rewrite Ht2 by exact E'. lia.
  - destruct HmV as [E|E]; [rewrite Hv1 by exact E; lia|].
    destruct (Z.eq_dec (maxViews sp) (-1)) as [E'|E']; [lia|].
    rewrite Hv2 by exact E'. lia.
Qed.

Lemma totalTables_capped_witness :
  validShape (mkShape 1 2 4 5 3 10 (-1) false) /\
  numTables (mkShape 1 2 4 5 3 10 (-1) false) = Z.min (8 * 5) 10 /\
  numViews (mkShape 1 2 4 5 3 10 (-1) false) = 24.
Proof.
  assert (validShape (mkShape 1 2 4 5 3 10 (-1) false)) as Hv
    by (unfold validShape; simpl; lia).
  split; [exact Hv|].
  destruct (totalTables_capped _ Hv) as (_ & Ht & _ & Hw & _).
  split; [apply Ht; simpl; lia | apply Hw; reflexivity].
Defined.

End TopologyFacts.

Module ManglerFacts.
Import JavaLang Mangler.

Lemma le_bytes_length (n : nat) (x : Z) : length (Md5.le_bytes n x) = n.
Proof. revert x. induction n as [|n IH]; intros x; simpl; [|rewrite IH]; reflexivity. Qed.

Lemma digest_length (msg : list Z) : length (Md5.digest msg) = 16%nat.
Proof.
  unfold Md5.digest.
  destruct (fold_left Md5.compress _ Md5.init) as [[[a b] c] d].
  rewrite length_map, !length_app, !le_bytes_length. reflexivity.
Qed.

Lemma toByte_isByte (u : Z) : isByte (toByte u).
Proof.
  unfold isByte, toByte. pose proof (Z.mod_pos_bound u 256 ltac:(lia)).
  cbv zeta. destruct (Z.ltb_spec (u mod 256) 128); lia.
Qed.

Lemma digest_bytes (msg : list Z) : Forall isByte (Md5.digest msg).
Proof.
  unfold Md5.digest.
  destruct (fold_left Md5.compress _ Md5.init) as [[[a b] c] d].
  apply Forall_forall. intros x Hx. apply list_elem_of_In, in_map_iff in Hx.
  destruct Hx as (u & <- & _). apply toByte_isByte.
Qed.

Lemma hexDigit_lower (d : Z) : 0 <= d < 16 -> isLowerHex (hexDigit d) = true.
Proof.
  intros H. unfold hexDigit.
  assert (Z.to_nat d < 16)%nat as Hn by lia.
  revert Hn. generalize (Z.to_nat d). intros n Hn.
  do 16 (destruct n as [|n]; [reflexivity|]). lia.
Qed.

Lemma format_02x_hex (b : Z) :
  String.length (format_02x b) = 2%nat /\
  forallb isLowerHex (list_ascii_of_string (format_02x b)) = true.
Proof.
  split; [reflexivity|]. unfold format_02x. cbv zeta.
  pose proof (Z.mod_pos_bound b 256 ltac:(lia)) as Hb.
  cbn [list_ascii_of_string forallb].
  rewrite !hexDigit_lower; [reflexivity| |].
  - apply Z.mod_pos_bound. lia.
  - split; [apply Z.div_pos; lia | apply Z.div_lt_upper_bound; lia].
Qed.

Lemma list_ascii_of_string_app (s1 s2 : string) :
  list_ascii_of_string (s1 ++ s2)
  = list_ascii_of_string s1 ++ list_ascii_of_string s2.
Proof. induction s1 as [|c s1 IH]; simpl; [|rewrite IH]; reflexivity. Qed.

Lemma string_length_app (s1 s2 : string) :
  String.length (s1 ++ s2) = (String.length s1 + String.length s2)%nat.
Proof. induction s1 as [|c s1 IH]; simpl; [|rewrite IH]; reflexivity. Qed.

Lemma mkString_hex (bytes : list Z) :
  String.length (mkString (map format_02x bytes)) = (2 * length bytes)%nat /\
  forallb isLowerHex
    (list_ascii_of_string (mkString (map format_02x bytes))) = true.
Proof.
  induction bytes as [|b bs [IHl IHh]]; [split; reflexivity|].
  destruct (format_02x_hex b) as [Hl Hh].
  cbn [map mkString fold_right]. fold (mkString (map format_02x bs)).
  split.
  - rewrite string_length_app, Hl, IHl. simpl. lia.
  - rewrite list_ascii_of_string_app, forallb_app, Hh, IHh. reflexivity.
Qed.

Lemma mangled_hex (prefix : string) (ordinal : Z) :
  String.length (mangled prefix ordinal) = 32%nat /\
  forallb isLowerHex (list_ascii_of_string (mangled prefix ordinal)) = true.
Proof.
  unfold mangled.
  destruct (mkString_hex
    (Md5.digest (getBytes (prefix ++ Integer_toString ordinal)))) as [Hl Hh].
  rewrite digest_length in Hl. split; assumption.
Qed.

(** A call on an enabled mangler whose engine is in its reset state
    returns the digest-based name and leaves the engine reset. *)
Lemma maybeMangle_enabled (prefix : string) (ordinal : Z) :
  maybeMangle (new true) prefix ordinal = (mangled prefix ordinal, new true).
Proof.
  unfold maybeMangle, new, MessageDigest.digest, MessageDigest.finish,
    MessageDigest.update, MessageDigest.getInstance, mangled.
  reflexivity.
Qed.

Lemma maybeMangle_disabled (m : t) (prefix : string) (ordinal : Z) :
  enabled m = false ->
  maybeMangle m prefix ordinal = ((prefix ++ Integer_toString ordinal)%string, m).
Proof. intros H. unfold maybeMangle. rewrite H. reflexivity. Qed.

Lemma name_enabled (k : Kind) (ordinal : Z) :
  name (new true) k ordinal = (mangled (kindPrefix k) ordinal, new true).
Proof. destruct k; apply maybeMangle_enabled. Qed.

Lemma names_enabled (calls : list (Kind * Z)) :
  names (new true) calls
  = (map (fun c => mangled (kindPrefix (fst c)) (snd c)) calls, new true).
Proof.
  induction calls as [|[k n] rest IH]; [reflexivity|].
  cbn [names]. rewrite name_enabled, IH. reflexivity.
Qed.

Lemma toString_parseInt (n : Z) :
  Integer_parseInt (Integer_toString n) = Some n.
Proof.
  unfold Integer_parseInt, Integer_toString.
  rewrite NilZero.isi.
  - simpl. f_equal. apply DecimalZ.of_to.
  - destruct n; simpl; try discriminate.
    intros [= H]. exact (DecimalPos.Unsigned.to_uint_nonnil _ H).
  - destruct n; simpl; try discriminate.
    intros [= H]. exact (DecimalPos.Unsigned.to_uint_nonnil _ H).
Qed.

(** C4: in mangled mode the name of an entity of any kind and ordinal
    is the MD5-based function [mangled] of prefix and ordinal alone,
    whatever calls were made on the mangler before it, so repeating a
    call repeats its result; the name always has exactly 32 characters,
    all of them lowercase hexadecimal digits.  The README's examples
    for [NS_0], [T_0] and [V_0] are reproduced. *)
Theorem mangled_name_deterministic_hex
    (k : Kind) (ordinal : Z) (earlier : list (Kind * Z)) :
  let m := snd (names (new true) earlier) in
  fst (name m k ordinal) = mangled (kindPrefix k) ordinal /\
  fst (names m [(k, ordinal); (k, ordinal)])
    = [mangled (kindPrefix k) ordinal; mangled (kindPrefix k) ordinal] /\
  String.length (fst (name m k ordinal)) = 32%nat /\
  forallb isLowerHex (list_ascii_of_string (fst (name m k ordinal))) = true /\
  fst (maybeMangleNs (new true) 0) = "f5a4d86558ed1f7fddec42ce11d8ee3a" /\
  fst (maybeMangleTable (new true) 0) = "ab4ffa55f688360e0c12aef543c18351" /\
  fst (maybeMangleView (new true) 0) = "9ef5db61af0c0d69875ff753a249bd2f".
Proof.
  cbv zeta. rewrite names_enabled. cbn [snd].
  rewrite names_enabled, name_enabled. cbn [fst map snd].
  destruct (mangled_hex (kindPrefix k) ordinal) as [Hl Hh].
  repeat split; try assumption; vm_compute; reflexivity.
Qed.

(** C8: in unmangled mode the name of namespace, table and view [n] is
    the prefix [NS_], [T_] and [V_] followed by the decimal digits of
    [n] (which read back as [n]), and the mangler is left as it was; in
    this mode [maybeMangle] returns any prefix its caller supplies
    followed by the ordinal.  A catalog is named by the namer of section
    4.2 from the prefix its caller supplies followed by the ordinal, in
    unmangled and in mangled mode alike and without touching the
    mangler; the other three kinds of the namer are the mangler's.  The
    catalog [C_0] keeps its name in mangled mode, where [maybeMangle]
    itself would turn the same prefix and ordinal into a digest. *)
Theorem unmangled_names (n : Z) :
  let m := new false in
  name m Namespace n = (("NS_" ++ Integer_toString n)%string, m) /\
  name m Table n = (("T_" ++ Integer_toString n)%string, m) /\
  name m View n = (("V_" ++ Integer_toString n)%string, m) /\
  Integer_parseInt (Integer_toString n) = Some n /\
  (forall prefix,
     maybeMangle m prefix n = ((prefix ++ Integer_toString n)%string, m)) /\
  (forall (mangler : Mangler.t) (catalogPrefix : string),
     Namer.name mangler catalogPrefix Namer.Catalog n
     = ((catalogPrefix ++ Integer_toString n)%string, mangler) /\
     forall k, Namer.name mangler catalogPrefix (Namer.Named k) n
               = name mangler k n) /\
  fst (maybeMangleNs m 0) = "NS_0" /\
  fst (maybeMangleTable m 12) = "T_12" /\
  fst (maybeMangleView m 2147483647) = "V_2147483647" /\
  fst (Namer.name (new true) "C_" Namer.Catalog 0) = "C_0" /\
  fst (maybeMangle (new true) "C_" 0) = "532414abe190c1593dfd1c149af333e2".
Proof.
  cbv zeta. repeat split; try (vm_compute; reflexivity).
  apply toString_parseInt.
Qed.

(** Two calls that overlap: the first thread receives the digest of
    both inputs put together, the second the digest of no input. *)
Lemma overlapping_calls_mix_inputs (p1 p2 : string) (n1 n2 : Z) :
  option_map SharedMangler.results
    (SharedMangler.run [0; 1; 0; 1]%nat
       (SharedMangler.mk (new true)
          [SharedMangler.Called p1 n1; SharedMangler.Called p2 n2]))
  = Some [Some (mkString (map format_02x
                  (Md5.digest (getBytes (p1 ++ Integer_toString n1)
                               ++ getBytes (p2 ++ Integer_toString n2)))));
          Some (mkString (map format_02x (Md5.digest [])))].
Proof. reflexivity. Qed.

(** Calls that do not overlap: each thread completes its call before
    the next one starts. *)
Lemma sequential_calls_agree :
  option_map SharedMangler.results
    (SharedMangler.run [0; 0; 1; 1]%nat
       (SharedMangler.mk (new true)
          [SharedMangler.Called "NS_" 0; SharedMangler.Called "T_" 0]))
  = Some [Some (mangled "NS_" 0); Some (mangled "T_" 0)].
Proof. vm_compute. reflexivity. Qed.

(** C7: two threads call [maybeMangleNs(0)] and [maybeMangleTable(0)]
    on the same enabled mangler.  When both have passed their bytes to
    the shared engine before either completes its digest, the first
    thread receives the digest of ["NS_0T_0"] and the second the digest
    of the empty input: neither is the name that the same call returns
    on its own. *)
Theorem shared_engine_overlapping_calls :
  let s0 := SharedMangler.mk (new true)
              [SharedMangler.Called "NS_" 0; SharedMangler.Called "T_" 0] in
  option_map SharedMangler.results (SharedMangler.run [0; 1; 0; 1]%nat s0)
    = Some [Some "430dcf1dd7b2e21319c6cef41f58d02b";
            Some "d41d8cd98f00b204e9800998ecf8427e"] /\
  fst (maybeMangleNs (new true) 0) = "f5a4d86558ed1f7fddec42ce11d8ee3a" /\
  fst (maybeMangleTable (new true) 0) = "ab4ffa55f688360e0c12aef543c18351" /\
  option_map SharedMangler.results (SharedMangler.run [0; 1; 0; 1]%nat s0)
    <> Some [Some (fst (maybeMangleNs (new true) 0));
             Some (fst (maybeMangleTable (new true) 0))].
Proof.
  cbv zeta. repeat split; try (vm_compute; reflexivity).
  vm_compute. discriminate.
Qed.

End ManglerFacts.

Module PhaseFacts.
Import Phase.

Lemma wrap_small (x : Z) :
  AtomicInteger.MIN_VALUE <= x <= AtomicInteger.MAX_VALUE ->
  AtomicInteger.wrap x = x.
Proof.
  unfold AtomicInteger.wrap, AtomicInteger.MIN_VALUE, AtomicInteger.MAX_VALUE.
  intros H. rewrite Z.mod_small; lia.
Qed.

(** *** Counting users by position *)

Lemma sumOver_nonneg (g : User -> Z) (us : list User) :
  (forall u, 0 <= g u) -> 0 <= sumOver g us.
Proof.
  intros Hg. induction us as [|u us IH]; simpl; [lia|].
  specialize (Hg u). lia.
Qed.

Lemma sumOver_lookup (g : User -> Z) (us : list User) (i : nat) (u : User) :
  (forall u, 0 <= g u) -> us !! i = Some u -> g u <= sumOver g us.
Proof.
  intros Hg. revert i. induction us as [|a us IH]; intros [|i] H;
    simpl in *; try discriminate.
  - injection H as ->. pose proof (sumOver_nonneg g us Hg). lia.
  - specialize (IH i H). specialize (Hg a). lia.
Qed.

Lemma sumOver_moveTo (g : User -> Z) (us : list User) (i : nat) (u : User) (next : Pc) :
  us !! i = Some u ->
  sumOver g (moveTo i u next us)
  = sumOver g us - g u + g (mkUser (hasAccessToken u) next).
Proof.
  unfold moveTo. revert i. induction us as [|a us IH]; intros [|i] H;
    simpl in *; try discriminate.
  - injection H as ->. lia.
  - rewrite (IH i H). lia.
Qed.

Lemma inFlight_moveTo (us : list User) (i : nat) (u : User) (next : Pc) :
  us !! i = Some u ->
  inFlight (moveTo i u next us) ++ inFlight1 u
  ≡ₚ inFlight us ++ inFlight1 (mkUser (hasAccessToken u) next).
Proof.
  unfold moveTo, inFlight. revert i.
  induction us as [|a us IH]; intros [|i] H; simpl in *; try discriminate.
  - injection H as ->.
    etransitivity; [apply Permutation_app_comm|].
    rewrite <- app_assoc. apply Permutation_app_head, Permutation_app_comm.
  - rewrite <- !app_assoc. apply Permutation_app_head, IH, H.
Qed.

Lemma tokens_moveTo (us : list User) (i : nat) (u : User) (next : Pc) :
  us !! i = Some u ->
  map hasAccessToken (moveTo i u next us) = map hasAccessToken us.
Proof.
  unfold moveTo. revert i. induction us as [|a us IH]; intros [|i] H;
    simpl in *; try discriminate.
  - injection H as ->. reflexivity.
  - rewrite (IH i H). reflexivity.
Qed.

Lemma token_lookup (us : list User) (i : nat) (u : User) :
  us !! i = Some u ->
  forallb (fun b => b) (map hasAccessToken us) = true ->
  hasAccessToken u = true.
Proof.
  revert i. induction us as [|a us IH]; intros [|i] H Hall;
    simpl in *; try discriminate;
    apply andb_true_iff in Hall as [Ha Hr].
  - injection H as ->. exact Ha.
  - exact (IH i H Hr).
Qed.

Lemma counts_total (us : list User) :
  sumOver atCondition us + sumOver atFeed us + sumOver atExec us
    + sumOver atExit us = Z.of_nat (length us).
Proof.
  induction us as [|[tok []] us IH]; simpl length;
    unfold sumOver in *; cbn [fold_right atCondition atFeed atExec atExit pc];
    lia.
Qed.

Lemma counts_terminated (us : list User) :
  forallb exited us = true ->
  sumOver atCondition us = 0 /\ sumOver atFeed us = 0 /\
  sumOver atExec us = 0 /\ sumOver atExit us = Z.of_nat (length us) /\
  inFlight us = [].
Proof.
  induction us as [|[tok pcu] us IH]; [repeat split|].
  cbn [forallb]. intros H. apply andb_true_iff in H as [Hu Hr].
  destruct pcu; try discriminate.
  destruct (IH Hr) as (H1 & H2 & H3 & H4 & H5).
  unfold sumOver, inFlight in *.
  cbn [fold_right flat_map atCondition atFeed atExec atExit inFlight1 pc app].
  rewrite H1, H2, H3, H4, H5. repeat split. simpl length. lia.
Qed.

Lemma pos_nonneg :
  (forall u, 0 <= atCondition u) /\ (forall u, 0 <= atFeed u) /\
  (forall u, 0 <= atExec u) /\ (forall u, 0 <= atExit u).
Proof.
  repeat split; intros [tok []]; unfold atCondition, atFeed, atExec, atExit;
    simpl; lia.
Qed.

Lemma ordinals_length (from count : nat) : length (ordinals from count) = count.
Proof. unfold ordinals. rewrite length_map, length_seq. reflexivity. Qed.

Lemma ordinals_snoc (f : nat) : ordinals 0 (S f) = ordinals 0 f ++ [Z.of_nat f].
Proof. unfold ordinals. rewrite seq_S, map_app. reflexivity. Qed.

Lemma sumOver_start (g : User -> Z) (l : list bool) :
  (forall b, g (mkUser b AtCondition) = 0) ->
  sumOver g (map (fun b => mkUser b AtCondition) l) = 0.
Proof.
  intros Hg. induction l as [|b bs IH]; simpl; [reflexivity|].
  rewrite Hg, IH. reflexivity.
Qed.

Lemma inFlight_start (l : list bool) :
  inFlight (map (fun b => mkUser b AtCondition) l) = [].
Proof. induction l as [|b bs IH]; [reflexivity|]. exact IH. Qed.

(** *** The invariant of a scenario run *)

Section Invariant.
Variables (k : Z) (sessions : list bool).
Hypothesis Hk : 0 <= k.
Hypothesis Hbound : k + Z.of_nat (length sessions) <= AtomicInteger.MAX_VALUE.

Lemma Inv_inject : Inv k sessions 0 (inject k sessions).
Proof.
  unfold Inv, inject. cbn [target users feeder visited counter].
  split; [reflexivity|]. split.
  - rewrite map_map. simpl. apply map_id.
  - exists 0%nat.
    rewrite !sumOver_start, inFlight_start by reflexivity. unfold newFeeder, AtomicInteger.new.
    rewrite Nat.sub_0_r. repeat split; try reflexivity; try lia.
Qed.

Lemma Inv_step (n i : nat) (p p' : t) :
  Inv k sessions n p -> step i p = Some p' ->
  Inv k sessions (S n) p' /\
  exists u, users p !! i = Some u /\ counter p' = counter p + atCondition u.
Proof.
  intros (Ht & Htok & f & Hf & Hfeed & Hperm & Hc & Hle & Hall & Hn) Hstep.
  unfold step in Hstep.
  destruct (users p !! i) as [u|] eqn:Hu; [|discriminate].
  destruct pos_nonneg as (N1 & N2 & N3 & N4).
  pose proof (sumOver_nonneg _ (users p) N1) as P1.
  pose proof (sumOver_nonneg _ (users p) N2) as P2.
  pose proof (sumOver_nonneg _ (users p) N3) as P3.
  pose proof (sumOver_nonneg _ (users p) N4) as P4.
  pose proof (sumOver_lookup _ _ _ _ N1 Hu) as L1.
  pose proof (sumOver_lookup _ _ _ _ N2 Hu) as L2.
  pose proof (counts_total (users p)) as Htot.
  assert (length (users p) = length sessions) as Hlen
    by (rewrite <- Htok, length_map; reflexivity).
  assert (forall next, inFlight (moveTo i u next (users p)) ++ inFlight1 u
            ≡ₚ inFlight (users p) ++ inFlight1 (mkUser (hasAccessToken u) next))
    as Hfl by (intros; apply inFlight_moveTo, Hu).
  assert (forall next, sumOver atFeed (moveTo i u next (users p))
            = sumOver atFeed (users p) - atFeed u
              + atFeed (mkUser (hasAccessToken u) next))
    as HsF by (intros; apply sumOver_moveTo, Hu).
  assert (forall next, sumOver atExit (moveTo i u next (users p))
            = sumOver atExit (users p) - atExit u
              + atExit (mkUser (hasAccessToken u) next))
    as HsD by (intros; apply sumOver_moveTo, Hu).
  assert (forall next, map hasAccessToken (moveTo i u next (users p)) = sessions)
    as Htok' by (intros; rewrite tokens_moveTo by exact Hu; exact Htok).
  assert (forallb (fun b => b) sessions = true -> hasAccessToken u = true)
    as Hmine by (intros Ha; eapply token_lookup; [exact Hu | rewrite Htok; exact Ha]).
  remember (sumOver atCondition (users p)) as nC eqn:EC.
  remember (sumOver atFeed (users p)) as nF eqn:EF.
  remember (sumOver atExec (users p)) as nE eqn:EE.
  remember (sumOver atExit (users p)) as nD eqn:ED.
  clear EC EF EE ED N1 N2 N3 N4.
  destruct u as [tok pcu].
  unfold atCondition in L1. unfold atFeed in L2, HsF. unfold atExit in HsD.
  unfold inFlight1 in Hfl.
  cbn [pc hasAccessToken] in L1, L2, HsF, HsD, Hfl, Hstep, Hmine.
  destruct pcu as [| |x|].
  - (* the loop condition *)
    unfold AtomicInteger.getAndIncrement in Hstep.
    rewrite wrap_small in Hstep
      by (unfold AtomicInteger.MIN_VALUE, AtomicInteger.MAX_VALUE in *; lia).
    injection Hstep as <-. split.
    2:{ exists (mkUser tok AtCondition). split; reflexivity. }
    unfold Inv. cbn [target users feeder visited counter].
    split; [exact Ht|]. split; [apply Htok'|].
    exists f. rewrite HsF, HsD.
    assert (inFlight (moveTo i (mkUser tok AtCondition)
              (if (counter p <? target p) && tok then AtFeed else Exited)
              (users p)) ≡ₚ inFlight (users p)) as Hfl'.
    { specialize (Hfl (if (counter p <? target p) && tok then AtFeed else Exited)).
      rewrite app_nil_r in Hfl. rewrite Hfl.
      destruct ((counter p <? target p) && tok); rewrite app_nil_r;
        reflexivity. }
    split; [exact Hf|]. split; [exact Hfeed|].
    split; [rewrite Hfl'; exact Hperm|].
    destruct (Z.ltb_spec (counter p) (target p)) as [Hlt|Hge];
      destruct tok; cbn [andb]; repeat split; try lia;
      intros Ha He; try (specialize (Hmine Ha); discriminate Hmine).
    + assert (0 < nD) as He' by lia.
      specialize (Hall Ha He'). lia.
    + destruct (Z.eq_dec nD 0) as [E|E]; [lia|].
      assert (0 < nD) as He' by lia.
      specialize (Hall Ha He'). lia.
  - (* feed *)
    assert (f < Z.to_nat k)%nat as Hlt by lia.
    destruct (Z.to_nat k - f)%nat as [|m] eqn:Hm; [lia|].
    rewrite Hfeed in Hstep. unfold ordinals in Hstep. cbn [seq map] in Hstep.
    injection Hstep as <-. split.
    2:{ exists (mkUser tok AtFeed). split; [reflexivity|].
        unfold atCondition. simpl. lia. }
    unfold Inv. cbn [target users feeder visited counter].
    split; [exact Ht|]. split; [apply Htok'|].
    exists (S f). rewrite HsF, HsD.
    specialize (Hfl (AtExec (Z.of_nat f))). rewrite app_nil_r in Hfl.
    split; [lia|]. split.
    { replace (Z.to_nat k - S f)%nat with m by lia. reflexivity. }
    split.
    { rewrite Hfl, app_assoc, Hperm, ordinals_snoc. reflexivity. }
    repeat split; try lia. intros Ha He. specialize (Hall Ha). lia.
  - (* the exec chain *)
    injection Hstep as <-. split.
    2:{ exists (mkUser tok (AtExec x)). split; [reflexivity|].
        unfold atCondition. simpl. lia. }
    unfold Inv. cbn [target users feeder visited counter].
    split; [exact Ht|]. split; [apply Htok'|].
    exists f. rewrite HsF, HsD.
    specialize (Hfl AtCondition). rewrite app_nil_r in Hfl.
    split; [exact Hf|]. split; [exact Hfeed|]. split.
    { rewrite <- Hperm, <- Hfl, <- !app_assoc.
      apply Permutation_app_head, Permutation_app_comm. }
    rewrite length_app. simpl length.
    repeat split; try lia. intros Ha He. specialize (Hall Ha). lia.
  - discriminate.
Qed.

Lemma Inv_run (schedule : list nat) (n : nat) (p p' : t) :
  Inv k sessions n p -> run schedule p = Some p' ->
  Inv k sessions (n + length schedule) p' /\ counter p <= counter p'.
Proof.
  revert n p. induction schedule as [|i rest IH]; intros n p HI Hrun.
  - injection Hrun as <-. rewrite Nat.add_0_r. split; [exact HI | lia].
  - cbn [run] in Hrun. destruct (step i p) as [p1|] eqn:Hstep; [|discriminate].
    destruct (Inv_step _ _ _ _ HI Hstep) as (HI1 & u & _ & Hc).
    destruct (IH _ _ HI1 Hrun) as (HI' & Hmono).
    simpl length. rewrite <- Nat.add_succ_comm. split; [exact HI'|].
    destruct pos_nonneg as (N1 & _). specialize (N1 u). lia.
Qed.

Lemma Inv_bound (n : nat) (p : t) :
  Inv k sessions n p ->
  Z.of_nat (length (visited p)) <= counter p /\
  Z.of_nat n <= 3 * k + Z.of_nat (length sessions).
Proof.
  intros (Ht & Htok & f & Hf & Hfeed & Hperm & Hc & Hle & Hall & Hn).
  destruct pos_nonneg as (N1 & N2 & N3 & N4).
  pose proof (sumOver_nonneg _ (users p) N1).
  pose proof (sumOver_nonneg _ (users p) N2).
  pose proof (sumOver_nonneg _ (users p) N3).
  pose proof (sumOver_nonneg _ (users p) N4).
  pose proof (counts_total (users p)) as Htot.
  assert (length (users p) = length sessions) as Hlen
    by (rewrite <- Htok, length_map; reflexivity).
  apply Permutation_length in Hperm.
  rewrite length_app, ordinals_length in Hperm. lia.
Qed.

Lemma Inv_terminated (n : nat) (p : t) :
  Inv k sessions n p -> terminated p = true ->
  counter p = Z.of_nat (length (visited p)) + Z.of_nat (length sessions) /\
  (forallb (fun b => b) sessions = true -> (1 <= length sessions)%nat ->
   visited p ≡ₚ ordinals 0 (Z.to_nat k) /\
   counter p = k + Z.of_nat (length sessions)).
Proof.
  intros (Ht & Htok & f & Hf & Hfeed & Hperm & Hc & Hle & Hall & Hn) Hterm.
  destruct (counts_terminated _ Hterm) as (H1 & H2 & H3 & H4 & H5).
  assert (length (users p) = length sessions) as Hlen
    by (rewrite <- Htok, length_map; reflexivity).
  rewrite H5, app_nil_r in Hperm. rewrite H2, H4, Hlen in *.
  pose proof (Permutation_length Hperm) as Hl. rewrite ordinals_length in Hl.
  split; [lia|]. intros Ha Hw. specialize (Hall Ha ltac:(lia)).
  assert (f = Z.to_nat k) as -> by lia. split; [exact Hperm | lia].
Qed.

End Invariant.

Lemma step_progress (p : t) :
  terminated p = false -> exists i p', step i p = Some p'.
Proof.
  unfold terminated. intros H.
  assert (exists i u, users p !! i = Some u /\ exited u = false) as (i & u & Hu & He).
  { induction (users p) as [|a us IH]; [discriminate|].
    cbn [forallb] in H. destruct (exited a) eqn:Ha.
    - destruct (IH H) as (i & u & Hu & He). exists (S i), u. split; assumption.
    - exists 0%nat, a. split; [reflexivity | exact Ha]. }
  exists i. unfold step. rewrite Hu. unfold exited in He.
  destruct (pc u); try discriminate; eauto.
  destruct (feeder p); eauto.
Qed.

Lemma run_app (s1 s2 : list nat) (p : t) :
  run (s1 ++ s2) p = match run s1 p with Some p1 => run s2 p1 | None => None end.
Proof.
  revert p. induction s1 as [|i s1 IH]; intros p; [reflexivity|].
  cbn [app run]. destruct (step i p); [apply IH | reflexivity].
Qed.

(** Every run can be continued until all users have left the loop. *)
Lemma run_completes (k : Z) (sessions : list bool) (n : nat) (p : t) :
  0 <= k -> k + Z.of_nat (length sessions) <= AtomicInteger.MAX_VALUE ->
  Inv k sessions n p ->
  exists schedule p', run schedule p = Some p' /\ terminated p' = true.
Proof.
  intros Hk Hb.
  remember (Z.to_nat (3 * k + Z.of_nat (length sessions)) - n)%nat as m eqn:Hm.
  revert n p Hm. induction m as [|m IH]; intros n p Hm HI;
    (destruct (terminated p) eqn:Ht; [exists [], p; split; [reflexivity|exact Ht]|]);
    destruct (step_progress _ Ht) as (i & p1 & Hstep);
    destruct (Inv_step _ _ Hb _ _ _ _ HI Hstep) as (HI1 & _);
    pose proof (Inv_bound _ _ Hk _ _ HI1) as (_ & Hn1).
  - lia.
  - destruct (IH (S n) p1 ltac:(lia) HI1) as (rest & p' & Hrun & Hterm).
    exists (i :: rest), p'. cbn [run]. rewrite Hstep. split; assumption.
Qed.

(** C1: a verification scenario over [k >= 0] entities and [w >= 1]
    users whose sessions hold the access token (the counter staying
    within the range of an [Int]): in whatever order the users take their
    steps, once all of them have left the loop the ordinals visited are
    exactly [0 .. k-1], each once.  No run is longer than [3k + w] steps,
    a run that is not over can always take a step, and a complete run
    exists. *)
Theorem exactly_once_visitation (k : Z) (w : nat)
    (Hk : 0 <= k) (Hw : (1 <= w)%nat)
    (Hb : k + Z.of_nat w <= AtomicInteger.MAX_VALUE) :
  let start := inject k (authenticated w) in
  (forall schedule p,
     run schedule start = Some p -> terminated p = true ->
     visited p ≡ₚ ordinals 0 (Z.to_nat k) /\ NoDup (visited p)) /\
  (forall schedule p,
     run schedule start = Some p ->
     Z.of_nat (length schedule) <= 3 * k + Z.of_nat w /\
     (terminated p = false -> exists i p', step i p = Some p')) /\
  (exists schedule p, run schedule start = Some p /\ terminated p = true).
Proof.
  cbv zeta. unfold authenticated.
  assert (length (repeat true w) = w) as Hlen by apply repeat_length.
  assert (forallb (fun b => b) (repeat true w) = true) as Hall.
  { clear. induction w as [|n IH]; [reflexivity | exact IH]. }
  pose proof (Inv_inject k (repeat true w) Hk) as H0.
  rewrite <- Hlen in Hb.
  repeat split.
  - destruct (Inv_run _ _ Hb _ _ _ _ H0 H) as (HI & _).
    destruct (Inv_terminated _ _ _ _ HI H1) as (_ & Hv).
    apply Hv; [exact Hall | lia].
  - destruct (Inv_run _ _ Hb _ _ _ _ H0 H) as (HI & _).
    destruct (Inv_terminated _ _ _ _ HI H1) as (_ & Hv).
    destruct (Hv Hall ltac:(lia)) as (Hp & _).
    rewrite Hp. unfold ordinals.
    apply NoDup_fmap_2; [intros a b; apply Nat2Z.inj | apply NoDup_seq].
  - destruct (Inv_run _ _ Hb _ _ _ _ H0 H) as (HI & _).
    pose proof (Inv_bound _ _ Hk _ _ HI) as (_ & Hn). simpl in Hn.
    rewrite Hlen in Hn. exact Hn.
  - apply step_progress.
  - eapply run_completes; eassumption.
Qed.

Lemma exactly_once_visitation_witness :
  exists p, run [0; 1; 1; 0; 0; 1; 0; 1; 0; 0; 0]%nat (inject 3 (authenticated 2)) = Some p /\
            terminated p = true /\ visited p = [1; 0; 2] /\ visited p ≡ₚ [0; 1; 2].
Proof.
  destruct (exactly_once_visitation 3 2 ltac:(lia) ltac:(lia)
              ltac:(unfold AtomicInteger.MAX_VALUE; lia)) as (H & _).
  eexists. split; [vm_compute; reflexivity|]. split; [reflexivity|].
  split; [reflexivity|].
  apply (H [0; 1; 1; 0; 0; 1; 0; 1; 0; 0; 0]%nat); [vm_compute|]; reflexivity.
Defined.


(** C6, as stated: the counter would be incremented after a descriptor
    has been processed, once per processed descriptor.  With one entity
    and one user the first step already increments the counter, before
    anything is fed or processed, and the complete run ends with the
    counter at 2 for a single processed descriptor. *)
Lemma increment_precedes_processing :
  let start := inject 1 (authenticated 1) in
  run [0]%nat start = Some (mk 1 1 [0] [mkUser true AtFeed] []) /\
  run [0; 0; 0; 0]%nat start = Some (mk 1 2 [] [mkUser true Exited] [0]) /\
  ~ (forall schedule p, run schedule start = Some p ->
       counter p <= Z.of_nat (length (visited p))) /\
  ~ (forall schedule p, run schedule start = Some p -> terminated p = true ->
       counter p = Z.of_nat (length (visited p))).
Proof.
  cbv zeta. split; [reflexivity|]. split; [reflexivity|]. split.
  - intros H. specialize (H [0]%nat _ eq_refl).
    vm_compute in H. apply H. reflexivity.
  - intros H. specialize (H [0; 0; 0; 0]%nat _ eq_refl eq_refl).
    vm_compute in H. discriminate H.
Qed.

(** C6, amended: the counter of a scenario over [k] entities changes
    only in the loop condition, where [getAndIncrement] adds exactly one
    before the descriptor is fed and processed; every other step leaves
    it alone, so it never decreases along a run.  The descriptors
    processed never outnumber the increments, and when all [w] users have
    left the loop the counter equals the number of processed descriptors
    plus [w], one increment for each processed descriptor and one for the
    failed condition that ended each user. *)
Theorem counter_incremented_per_claim (k : Z) (sessions : list bool)
    (Hk : 0 <= k)
    (Hb : k + Z.of_nat (length sessions) <= AtomicInteger.MAX_VALUE) :
  forall schedule p,
    run schedule (inject k sessions) = Some p ->
    (forall i p', step i p = Some p' ->
       exists u, users p !! i = Some u /\
                 counter p' = counter p + atCondition u) /\
    (forall later p', run later p = Some p' -> counter p <= counter p') /\
    Z.of_nat (length (visited p)) <= counter p /\
    (terminated p = true ->
       counter p = Z.of_nat (length (visited p)) + Z.of_nat (length sessions)).
Proof.
  intros schedule p Hrun.
  destruct (Inv_run _ _ Hb _ _ _ _ (Inv_inject k sessions Hk) Hrun) as (HI & _).
  repeat split.
  - intros i p' Hstep. exact (proj2 (Inv_step _ _ Hb _ _ _ _ HI Hstep)).
  - intros later p' Hlater. exact (proj2 (Inv_run _ _ Hb _ _ _ _ HI Hlater)).
  - exact (proj1 (Inv_bound _ _ Hk _ _ HI)).
  - intros Ht. exact (proj1 (Inv_terminated _ _ _ _ HI Ht)).
Qed.

Lemma counter_incremented_per_claim_witness :
  exists p, run [0; 0; 0; 0]%nat (inject 1 [true]) = Some p /\
            terminated p = true /\
            counter p = Z.of_nat (length (visited p)) + 1.
Proof.
  eexists. split; [vm_compute; reflexivity|]. split; [reflexivity|].
  refine (proj2 (proj2 (proj2
    (counter_incremented_per_claim 1 [true] ltac:(lia)
       ltac:(unfold AtomicInteger.MAX_VALUE; simpl; lia)
       [0; 0; 0; 0]%nat _ _))) _); reflexivity.
Defined.

End PhaseFacts.

Module SimulationFacts.
Import Simulation.

Lemma aborted_of_sessions (us : list Phase.User) :
  forallb (fun b => b) (map Phase.hasAccessToken us) = false ->
  existsb (fun u => negb (Phase.hasAccessToken u)) us = true.
Proof.
  induction us as [|u us IH]; [discriminate|].
  cbn [map forallb existsb]. destruct (Phase.hasAccessToken u); simpl.
  - exact IH.
  - reflexivity.
Qed.

Lemma reachable_start (pop : Population) :
  populationOk pop -> reachable (pop, start pop).
Proof.
  unfold populationOk, reachable, start. cbn [fst snd].
  destruct (body pop) as [count|]; [|trivial].
  intros (Hk & _). exists 0%nat. apply PhaseFacts.Inv_inject, Hk.
Qed.

Lemma reachable_step (pop : Population) (r r' : Running) (i : nat) :
  populationOk pop -> reachable (pop, r) -> userStep i r = Some r' ->
  reachable (pop, r').
Proof.
  unfold populationOk, reachable. cbn [fst snd].
  destruct (body pop) as [count|]; destruct r as [p|done]; try contradiction.
  - intros (Hk & Hw & Hb) (n & HI) Hstep. cbn [userStep] in Hstep.
    destruct (Phase.step i p) as [p'|] eqn:Hp; [|discriminate].
    injection Hstep as <-. exists (S n).
    exact (proj1 (PhaseFacts.Inv_step _ _ Hb _ _ _ _ HI Hp)).
  - intros _ _ Hstep. destruct done, i; try discriminate.
    injection Hstep as <-. exact I.
Qed.

Lemma completed_of_reachable (pop : Population) (r : Running) :
  populationOk pop -> reachable (pop, r) -> over r = true ->
  completed (pop, r).
Proof.
  unfold populationOk, reachable, completed. cbn [fst snd].
  intros Hok Hr Hover. split; [exact Hover|].
  destruct (body pop) as [count|]; destruct r as [p|done]; try contradiction;
    [|exact I].
  destruct Hok as (Hk & Hw & Hb). destruct Hr as (n & HI).
  cbn [over] in Hover.
  destruct (forallb (fun b => b) (sessions pop)) eqn:Hall.
  - left. destruct (PhaseFacts.Inv_terminated _ _ _ _ HI Hover) as (_ & Hv).
    destruct (Hv Hall Hw) as (Hvis & Hc).
    destruct HI as (Ht & _). rewrite Ht, Hc. split; [lia | exact Hvis].
  - right. destruct HI as (_ & Htok & _). unfold Phase.aborted.
    apply aborted_of_sessions. rewrite Htok. exact Hall.
Qed.

Lemma sorted_snoc (l : list nat) (j : nat) :
  StronglySorted le l -> Forall (fun a => (a <= j)%nat) l ->
  StronglySorted le (l ++ [j]).
Proof.
  induction 1 as [|a l Hs IH Ha]; intros Hj; cbn [app].
  - constructor; constructor.
  - apply Forall_cons in Hj as (Haj & Hj). constructor; [exact (IH Hj)|].
    apply Forall_app. split; [exact Ha|]. constructor; [exact Haj|constructor].
Qed.

Section Chain.
Variable pb : PopulationBuilder.
Hypothesis Hok : Forall populationOk pb.

Lemma Ordered_boot : Ordered pb (boot pb).
Proof.
  unfold Ordered, boot. destruct pb as [|pop rest] eqn:E;
    cbn [started finished current waiting trace map app length].
  - repeat split; constructor.
  - repeat split; try constructor.
    apply reachable_start. apply Forall_cons in Hok as (H & _). exact H.
Qed.

Lemma Ordered_step (l : Label) (s s' : t) :
  Ordered pb s -> step l s = Some s' -> Ordered pb s'.
Proof.
  intros (Hpb & Hfin & Hcur & Hsorted & Hidx) Hstep.
  unfold step in Hstep. unfold started in Hpb.
  destruct (current s) as [[pop r]|] eqn:Ec; [|discriminate].
  assert (populationOk pop) as Hpop.
  { rewrite <- Hpb in Hok. apply Forall_app in Hok as (Hst & _).
    apply Forall_app in Hst as (_ & Hc). apply Forall_cons in Hc as (H & _).
    exact H. }
  destruct l as [i|].
  - destruct (userStep i r) as [r'|] eqn:Er; [|discriminate].
    injection Hstep as <-.
    unfold Ordered, started. cbn [finished current waiting trace].
    split; [exact Hpb|]. split; [exact Hfin|].
    split; [exact (reachable_step _ _ _ _ Hpop Hcur Er)|].
    rewrite map_app. cbn [map fst]. split.
    + apply sorted_snoc; [exact Hsorted|].
      apply Forall_forall. intros a Ha.
      apply list_elem_of_In, in_map_iff in Ha as (e & <- & He).
      rewrite Forall_forall in Hidx. apply Hidx, list_elem_of_In, He.
    + apply Forall_app. split; [exact Hidx|].
      constructor; [cbn [fst]; lia | constructor].
  - destruct (over r) eqn:Eo; [|discriminate]. injection Hstep as <-.
    unfold Ordered, started. cbn [finished current waiting trace].
    rewrite map_app, length_app. cbn [map fst length].
    split; [|split; [|split; [|split]]].
    + rewrite <- Hpb, <- !app_assoc. f_equal. cbn [app].
      destruct (waiting s) as [|next rest]; reflexivity.
    + apply Forall_app. split; [exact Hfin|]. constructor; [|constructor].
      exact (completed_of_reachable _ _ Hpop Hcur Eo).
    + destruct (waiting s) as [|next rest] eqn:Ew; [reflexivity|].
      apply reachable_start.
      rewrite <- Hpb in Hok. apply Forall_app in Hok as (_ & Hw).
      apply Forall_cons in Hw as (H & _). exact H.
    + exact Hsorted.
    + eapply Forall_impl; [exact Hidx|]. intros e He. simpl in He. lia.
Qed.

Lemma Ordered_run (labels : list Label) (s s' : t) :
  Ordered pb s -> run labels s = Some s' -> Ordered pb s'.
Proof.
  revert s. induction labels as [|l rest IH]; intros s HO Hrun.
  - injection Hrun as <-. exact HO.
  - cbn [run] in Hrun. destruct (step l s) as [s1|] eqn:Hs; [|discriminate].
    exact (IH _ (Ordered_step _ _ _ HO Hs) Hrun).
Qed.

End Chain.

Lemma setUp_order (dp : Topology.ShapeParameters) (wp : WorkloadParameters)
    (tok : ScenarioName -> nat -> bool) :
  map scenario (setUp dp wp tok)
  = [WaitForAuthentication; VerifyCatalogs; VerifyNamespaces; VerifyTables;
     VerifyViews; StopRefreshingToken].
Proof. reflexivity. Qed.

(** C5: the populations of [setUp] are started in the order written:
    wait for authentication, verify catalogs, namespaces, tables, views,
    stop the token refresh.  At any moment of any run (each counter
    staying within the range of an [Int], each loop having a user), the
    populations started so far are a prefix of the chain; whenever a user
    takes a step, it belongs to the population running now, and every
    population before that one is over and complete: its counter has
    reached its target, all its entities visited, or it was aborted for
    want of the access token.
    The recorded steps are ordered by population. *)
Theorem phases_in_declared_order
    (dp : Topology.ShapeParameters) (wp : WorkloadParameters)
    (tok : ScenarioName -> nat -> bool)
    (Hok : Forall populationOk (setUp dp wp tok)) :
  map scenario (setUp dp wp tok)
  = [WaitForAuthentication; VerifyCatalogs; VerifyNamespaces; VerifyTables;
     VerifyViews; StopRefreshingToken] /\
  forall labels s,
    run labels (boot (setUp dp wp tok)) = Some s ->
    started s ++ waiting s = setUp dp wp tok /\
    map fst (finished s) = firstn (length (finished s)) (setUp dp wp tok) /\
    Forall completed (finished s) /\
    (forall i s', step (UserStep i) s = Some s' ->
       trace s' = trace s ++ [(length (finished s), i)] /\
       finished s' = finished s) /\
    StronglySorted le (map fst (trace s)) /\
    Forall (fun e => (fst e <= length (finished s))%nat) (trace s).
Proof.
  split; [apply setUp_order|]. intros labels s Hrun.
  destruct (Ordered_run _ Hok _ _ _ (Ordered_boot _ Hok) Hrun)
    as (Hpb & Hfin & _ & Hsorted & Hidx).
  split; [exact Hpb|]. split; [|split; [exact Hfin|split; [|split; assumption]]].
  - rewrite <- Hpb. unfold started. rewrite <- app_assoc.
    rewrite <- (length_map fst (finished s)).
    rewrite firstn_app, Nat.sub_diag, firstn_all. cbn [firstn].
    rewrite app_nil_r. reflexivity.
  - intros i s' Hstep. unfold step in Hstep.
    destruct (current s) as [[pop r]|]; [|discriminate].
    destruct (userStep i r); [|discriminate].
    injection Hstep as <-. split; reflexivity.
Qed.

Lemma phases_in_declared_order_witness :
  let dp := Topology.mkShape 5 2 2 1 1 (-1) (-1) false in
  let pb := setUp dp (mkWorkload 2 1 1) (fun _ _ => true) in
  Forall populationOk pb /\
  exists s,
    run ([UserStep 0; StartNext] ++ repeat (UserStep 0) 16
           ++ [StartNext; UserStep 1]) (boot pb) = Some s /\
    map (fun st => scenario (fst st)) (finished s)
      = [WaitForAuthentication; VerifyCatalogs] /\
    Forall completed (finished s) /\
    map fst (trace s)
      = ([0] ++ repeat 1 16 ++ [2])%nat.
Proof.
  cbv zeta.
  assert (Forall populationOk
            (setUp (Topology.mkShape 5 2 2 1 1 (-1) (-1) false)
                   (mkWorkload 2 1 1) (fun _ _ => true))) as Hok.
  { repeat constructor; vm_compute; intros; discriminate. }
  split; [exact Hok|]. eexists. split; [vm_compute; reflexivity|].
  split; [reflexivity|]. split; [|reflexivity].
  refine (proj1 (proj2 (proj2
    (proj2 (phases_in_declared_order _ _ _ Hok)
       ([UserStep 0; StartNext] ++ repeat (UserStep 0) 16
          ++ [StartNext; UserStep 1]) _ _)))).
  vm_compute. reflexivity.
Defined.

End SimulationFacts.

Module ViewsApiFacts.
Import Js.
Import ViewsApi(segments, noSlash, joinEncoded, encodeNamespace, bind,
                viewsPath, viewPath, mkRequest, url, GET, DELETE, POST).

Lemma list_pairs_ind {A : Type} (P : list A -> Prop) :
  P [] -> (forall a, P [a]) ->
  (forall a b l, P l -> P (b :: l) -> P (a :: b :: l)) ->
  forall l, P l.
Proof.
  intros H0 H1 H2 l.
  assert (P l /\ forall a, P (a :: l)) as [H _]; [|exact H].
  induction l as [|b l [IH1 IH2]]; [split; [exact H0 | exact H1]|].
  split; [apply IH2|]. intros a. apply H2; [exact IH1 | apply IH2].
Qed.

(** *** The encoded text never contains a slash *)

Lemma noSlash_app (a b : string) :
  noSlash (a ++ b) = noSlash a && noSlash b.
Proof.
  unfold noSlash. rewrite ManglerFacts.list_ascii_of_string_app.
  apply forallb_app.
Qed.

Lemma hexUpper_noSlash (d : Z) : Ascii.eqb (hexUpper d) "/" = false.
Proof.
  unfold hexUpper. generalize (Z.to_nat d). intros n.
  do 16 (destruct n as [|n]; [reflexivity|]). destruct n; reflexivity.
Qed.

Lemma escapeAll_noSlash (octets : list Z) : noSlash (escapeAll octets) = true.
Proof.
  induction octets as [|o os IH]; [reflexivity|].
  cbn [escapeAll fold_right]. fold (escapeAll os).
  rewrite noSlash_app, IH. unfold noSlash, escape.
  cbn [list_ascii_of_string forallb]. rewrite !hexUpper_noSlash. reflexivity.
Qed.

Lemma unreserved_range (c : Z) :
  isUnreserved c = true -> 33 <= c <= 126 /\ c <> 47.
Proof.
  unfold isUnreserved. cbn [existsb].
  rewrite !orb_true_iff, !andb_true_iff, !Z.leb_le, !Z.eqb_eq. lia.
Qed.

Lemma unreserved_noSlash (c : Z) :
  isUnreserved c = true -> Ascii.eqb (charOf c) "/" = false.
Proof.
  intros H. apply unreserved_range in H as (Hr & Hne).
  apply Ascii.eqb_neq. intros E. apply (f_equal nat_of_ascii) in E.
  unfold charOf in E. rewrite nat_ascii_embedding in E by lia.
  change (nat_of_ascii "/") with 47%nat in E. lia.
Qed.

Lemma unreserved_not_surrogate (c : Z) :
  isUnreserved c = true -> isLeadSurrogate c = false /\ isTrailSurrogate c = false.
Proof.
  intros H. apply unreserved_range in H as (Hr & _).
  unfold isLeadSurrogate, isTrailSurrogate.
  split; apply andb_false_iff; left; apply Z.leb_gt; lia.
Qed.

Lemma encode_noSlash (s : JsString) (e : string) :
  encodeURIComponent s = Some e -> noSlash e = true.
Proof.
  revert e. induction s as [|a|a b l IHl IHbl] using list_pairs_ind; intros e.
  - intros [= <-]. reflexivity.
  - cbn [encodeURIComponent].
    destruct (isUnreserved a) eqn:Ha.
    + intros [= <-]. unfold noSlash. cbn [list_ascii_of_string forallb].
      rewrite (unreserved_noSlash _ Ha). reflexivity.
    + destruct (isLeadSurrogate a); [discriminate|].
      destruct (isTrailSurrogate a); [discriminate|].
      intros [= <-]. rewrite noSlash_app, escapeAll_noSlash. reflexivity.
  - change (encodeURIComponent (a :: b :: l)) with
      (if isUnreserved a then
         option_map (String (charOf a)) (encodeURIComponent (b :: l))
       else if isLeadSurrogate a then
         if isTrailSurrogate b then
           option_map (String.append (escapeAll (utf8 (codePoint a b))))
                      (encodeURIComponent l)
         else None
       else if isTrailSurrogate a then None
       else option_map (String.append (escapeAll (utf8 a)))
                       (encodeURIComponent (b :: l))).
    destruct (isUnreserved a) eqn:Ha.
    + destruct (encodeURIComponent (b :: l)) as [e'|]; [|discriminate].
      intros [= <-]. specialize (IHbl _ eq_refl). unfold noSlash in *.
      cbn [list_ascii_of_string forallb].
      rewrite (unreserved_noSlash _ Ha), IHbl. reflexivity.
    + destruct (isLeadSurrogate a).
      * destruct (isTrailSurrogate b); [|discriminate].
        destruct (encodeURIComponent l) as [e'|]; [|discriminate].
        intros [= <-]. rewrite noSlash_app, escapeAll_noSlash.
        exact (IHl _ eq_refl).
      * destruct (isTrailSurrogate a); [discriminate|].
        destruct (encodeURIComponent (b :: l)) as [e'|]; [|discriminate].
        intros [= <-]. rewrite noSlash_app, escapeAll_noSlash.
        exact (IHbl _ eq_refl).
Qed.

(** *** Encoding and concatenation *)

Lemma encode_pair (x y : Z) (l : JsString) :
  encodeURIComponent (x :: y :: l)
  = if isUnreserved x then
      option_map (String (charOf x)) (encodeURIComponent (y :: l))
    else if isLeadSurrogate x then
      if isTrailSurrogate y then
        option_map (String.append (escapeAll (utf8 (codePoint x y))))
                   (encodeURIComponent l)
      else None
    else if isTrailSurrogate x then None
    else option_map (String.append (escapeAll (utf8 x)))
                    (encodeURIComponent (y :: l)).
Proof. reflexivity. Qed.

Lemma wellFormed_pair (x y : Z) (l : JsString) :
  isWellFormed (x :: y :: l)
  = if isLeadSurrogate x then isTrailSurrogate y && isWellFormed l
    else negb (isTrailSurrogate x) && isWellFormed (y :: l).
Proof. reflexivity. Qed.

Lemma append_nil_r (a : string) : (a ++ "")%string = a.
Proof. induction a as [|c a IH]; simpl; [|rewrite IH]; reflexivity. Qed.

Lemma append_assoc (a b c : string) :
  ((a ++ b) ++ c)%string = (a ++ (b ++ c))%string.
Proof. induction a as [|x a IH]; simpl; [|rewrite IH]; reflexivity. Qed.

Lemma encode_app (a : JsString) :
  forall (ea : string) (b : JsString),
    encodeURIComponent a = Some ea ->
    encodeURIComponent (a ++ b)
    = option_map (String.append ea) (encodeURIComponent b).
Proof.
  induction a as [|x|x y l IHl IHyl] using list_pairs_ind; intros ea b.
  - intros [= <-]. cbn [app]. destruct (encodeURIComponent b); reflexivity.
  - cbn [app encodeURIComponent].
    destruct (isUnreserved x).
    + intros [= <-]. destruct (encodeURIComponent b); reflexivity.
    + destruct (isLeadSurrogate x); [discriminate|].
      destruct (isTrailSurrogate x); [discriminate|].
      intros [= <-]. cbn [option_map]. rewrite append_nil_r. reflexivity.
  - change ((x :: y :: l) ++ b) with (x :: y :: (l ++ b)).
    rewrite !encode_pair. change (y :: l ++ b) with ((y :: l) ++ b).
    destruct (isUnreserved x).
    + destruct (encodeURIComponent (y :: l)) as [e'|] eqn:E; [|discriminate].
      intros [= <-]. rewrite (IHyl _ b eq_refl).
      destruct (encodeURIComponent b); reflexivity.
    + destruct (isLeadSurrogate x).
      * destruct (isTrailSurrogate y); [|discriminate].
        destruct (encodeURIComponent l) as [e'|] eqn:E; [|discriminate].
        intros [= <-]. rewrite (IHl _ b eq_refl).
        destruct (encodeURIComponent b); cbn [option_map];
          [rewrite append_assoc|]; reflexivity.
      * destruct (isTrailSurrogate x); [discriminate|].
        destruct (encodeURIComponent (y :: l)) as [e'|] eqn:E; [|discriminate].
        intros [= <-]. rewrite (IHyl _ b eq_refl).
        destruct (encodeURIComponent b); cbn [option_map];
          [rewrite append_assoc|]; reflexivity.
Qed.

(** [encodeURIComponent] throws exactly on the strings that are not
    well formed. *)
Lemma encode_wellFormed (s : JsString) :
  isWellFormed s = true <-> exists e, encodeURIComponent s = Some e.
Proof.
  induction s as [|x|x y l IHl IHyl] using list_pairs_ind.
  - split; [eexists|]; reflexivity.
  - cbn [isWellFormed encodeURIComponent].
    destruct (isUnreserved x) eqn:Hu.
    + destruct (unreserved_not_surrogate _ Hu) as [-> ->].
      split; [eexists|]; reflexivity.
    + destruct (isLeadSurrogate x); [split; [discriminate|intros [e [=]]]|].
      destruct (isTrailSurrogate x); [split; [discriminate|intros [e [=]]]|].
      split; [eexists|]; reflexivity.
  - rewrite encode_pair, wellFormed_pair.
    destruct (isUnreserved x) eqn:Hu.
    + destruct (unreserved_not_surrogate _ Hu) as [-> ->]. cbn [negb andb].
      rewrite IHyl. split; intros [e He].
      * rewrite He. eexists. reflexivity.
      * destruct (encodeURIComponent (y :: l)); [eexists; reflexivity|discriminate].
    + destruct (isLeadSurrogate x).
      * destruct (isTrailSurrogate y); cbn [andb];
          [|split; [discriminate|intros [e [=]]]].
        rewrite IHl. split; intros [e He].
        -- rewrite He. eexists. reflexivity.
        -- destruct (encodeURIComponent l); [eexists; reflexivity|discriminate].
      * destruct (isTrailSurrogate x); cbn [negb andb];
          [split; [discriminate|intros [e [=]]]|].
        rewrite IHyl. split; intros [e He].
        -- rewrite He. eexists. reflexivity.
        -- destruct (encodeURIComponent (y :: l)); [eexists; reflexivity|discriminate].
Qed.

(** The encoding of the joined namespace is the encoded parts joined by
    [%1F]. *)
Lemma encode_separated (others : list JsString) (encs : list string) :
  Forall2 (fun part e => encodeURIComponent part = Some e) others encs ->
  encodeURIComponent (flat_map (fun part => [0x1F] ++ part) others)
  = Some (fold_right (fun part acc => ("%1F" ++ part ++ acc)%string)
                     EmptyString encs).
Proof.
  induction 1 as [|part e others encs He _ IH]; [reflexivity|].
  cbn [flat_map fold_right]. rewrite <- app_assoc.
  change ([0x1F] ++ part ++ flat_map (fun part => [0x1F] ++ part) others)
    with (0x1F :: (part ++ flat_map (fun part => [0x1F] ++ part) others)).
  cbn [encodeURIComponent].
  change (isUnreserved 31) with false. change (isLeadSurrogate 31) with false.
  change (isTrailSurrogate 31) with false. cbv iota.
  rewrite (encode_app _ _ _ He), IH. reflexivity.
Qed.

Lemma encode_namespace (namespace : list JsString) (encs : list string) :
  Forall2 (fun part e => encodeURIComponent part = Some e) namespace encs ->
  encodeURIComponent (encodeNamespace namespace) = Some (joinEncoded encs).
Proof.
  intros H. destruct H as [|first e others encs He Hrest]; [reflexivity|].
  unfold encodeNamespace, join, joinEncoded.
  rewrite (encode_app _ _ _ He), (encode_separated _ _ Hrest). reflexivity.
Qed.

Lemma encode_parts (namespace : list JsString) :
  Forall (fun part => isWellFormed part = true) namespace ->
  exists encs,
    Forall2 (fun part e => encodeURIComponent part = Some e) namespace encs.
Proof.
  induction 1 as [|part rest Hp _ (encs & IH)]; [exists []; constructor|].
  apply encode_wellFormed in Hp as (e & He).
  exists (e :: encs). constructor; assumption.
Qed.

(** *** Splitting a path into segments *)

Lemma segments_nonempty (s : string) : segments s <> [].
Proof.
  destruct s as [|c s]; [discriminate|]. cbn [segments].
  destruct (Ascii.eqb c "/"); [discriminate|].
  destruct (segments s); discriminate.
Qed.

Lemma segments_app (a rest : string) :
  noSlash a = true ->
  segments (a ++ String "/" rest) = a :: segments rest.
Proof.
  unfold noSlash. induction a as [|c a IH]; intros H.
  - reflexivity.
  - cbn [list_ascii_of_string forallb] in H.
    apply andb_true_iff in H as (Hc & Ha).
    cbn [String.append segments].
    destruct (Ascii.eqb c "/"); [discriminate|].
    rewrite (IH Ha). reflexivity.
Qed.

Lemma segments_last (a : string) : noSlash a = true -> segments a = [a].
Proof.
  unfold noSlash. induction a as [|c a IH]; intros H.
  - reflexivity.
  - cbn [list_ascii_of_string forallb] in H.
    apply andb_true_iff in H as (Hc & Ha).
    cbn [segments]. destruct (Ascii.eqb c "/"); [discriminate|].
    rewrite (IH Ha). reflexivity.
Qed.

Lemma segments_viewsPath (P N : string) :
  noSlash P = true -> noSlash N = true ->
  segments ("/" ++ P ++ "/namespaces/" ++ N ++ "/views")
  = [""; P; "namespaces"; N; "views"]%string.
Proof.
  intros HP HN.
  change ("/" ++ P ++ "/namespaces/" ++ N ++ "/views")%string
    with (String "/" (P ++ String "/" ("namespaces" ++ String "/"
            (N ++ String "/" "views"))))%string.
  cbn [segments]. change (Ascii.eqb "/" "/") with true. cbv iota.
  rewrite (segments_app P _ HP), (segments_app "namespaces" _ eq_refl),
    (segments_app N _ HN). reflexivity.
Qed.

Lemma segments_viewPath (P N V : string) :
  noSlash P = true -> noSlash N = true -> noSlash V = true ->
  segments ("/" ++ P ++ "/namespaces/" ++ N ++ "/views/" ++ V)
  = [""; P; "namespaces"; N; "views"; V]%string.
Proof.
  intros HP HN HV.
  change ("/" ++ P ++ "/namespaces/" ++ N ++ "/views/" ++ V)%string
    with (String "/" (P ++ String "/" ("namespaces" ++ String "/"
            (N ++ String "/" ("views" ++ String "/" V)))))%string.
  cbn [segments]. change (Ascii.eqb "/" "/") with true. cbv iota.
  rewrite (segments_app P _ HP), (segments_app "namespaces" _ eq_refl),
    (segments_app N _ HN), (segments_app "views" _ eq_refl),
    (segments_last V HV). reflexivity.
Qed.

(** C9: for a catalog prefix, namespace parts and view name that are
    well-formed strings, the four view operations send their request to
    [/P/namespaces/N/views] (list with GET, create with POST and a body)
    or [/P/namespaces/N/views/V] (get with GET, delete with DELETE),
    where [P] and [V] are the percent-encoded prefix and view name and
    [N], the same in all four, is the percent-encoding of the parts
    joined by U+001F, that is the encoded parts joined by [%1F].  [N]
    contains no slash: split at its slashes the path has [N] as its one
    namespace segment. *)
Theorem views_namespace_segment
    (prefix : JsString) (namespace : list JsString) (viewName : JsString)
    (Hp : isWellFormed prefix = true)
    (Hn : Forall (fun part => isWellFormed part = true) namespace)
    (Hv : isWellFormed viewName = true) :
  exists (P N V : string) (encs : list string),
    encodeURIComponent prefix = Some P /\
    encodeURIComponent viewName = Some V /\
    Forall2 (fun part e => encodeURIComponent part = Some e) namespace encs /\
    encodeURIComponent (join [0x1F] namespace) = Some N /\
    N = joinEncoded encs /\
    noSlash N = true /\
    ViewsApi.list_ prefix namespace
      = Some (mkRequest GET ("/" ++ P ++ "/namespaces/" ++ N ++ "/views") false) /\
    ViewsApi.get prefix namespace viewName
      = Some (mkRequest GET
                ("/" ++ P ++ "/namespaces/" ++ N ++ "/views/" ++ V) false) /\
    ViewsApi.delete prefix namespace viewName
      = Some (mkRequest DELETE
                ("/" ++ P ++ "/namespaces/" ++ N ++ "/views/" ++ V) false) /\
    ViewsApi.create prefix namespace
      = Some (mkRequest POST ("/" ++ P ++ "/namespaces/" ++ N ++ "/views") true) /\
    segments ("/" ++ P ++ "/namespaces/" ++ N ++ "/views")
      = [""; P; "namespaces"; N; "views"]%string /\
    segments ("/" ++ P ++ "/namespaces/" ++ N ++ "/views/" ++ V)
      = [""; P; "namespaces"; N; "views"; V]%string.
Proof.
  apply encode_wellFormed in Hp as (P & HP).
  apply encode_wellFormed in Hv as (V & HV).
  apply encode_parts in Hn as (encs & Hencs).
  pose proof (encode_namespace _ _ Hencs) as HN.
  exists P, (joinEncoded encs), V, encs.
  pose proof (encode_noSlash _ _ HP) as SP.
  pose proof (encode_noSlash _ _ HV) as SV.
  pose proof (encode_noSlash _ _ HN) as SN.
  unfold ViewsApi.list_, ViewsApi.get, ViewsApi.delete, ViewsApi.create,
    viewsPath, viewPath, bind.
  cbv zeta. fold (encodeNamespace namespace). rewrite HP, HV, HN.
  cbn [option_map].
  repeat split; try assumption; try reflexivity.
  - apply segments_viewsPath; assumption.
  - apply segments_viewPath; assumption.
Qed.

Lemma views_namespace_segment_witness :
  ViewsApi.get (lit "polaris") [lit "accounting"; lit "tax/2024"] (lit "v 1")
  = Some (mkRequest GET
            "/polaris/namespaces/accounting%1Ftax%2F2024/views/v%201" false) /\
  segments "/polaris/namespaces/accounting%1Ftax%2F2024/views/v%201"
  = ["" ; "polaris"; "namespaces"; "accounting%1Ftax%2F2024"; "views"; "v%201"]%string.
Proof.
  destruct (views_namespace_segment (lit "polaris")
              [lit "accounting"; lit "tax/2024"] (lit "v 1")
              eq_refl ltac:(repeat constructor) eq_refl)
    as (P & N & V & encs & HP & HV & _ & HN & _ & _ & _ & Hget & _ & _ & _ & Hseg).
  injection HP as <-. injection HV as <-. injection HN as <-.
  split; [exact Hget | exact Hseg].
Defined.

End ViewsApiFacts.

Module TableQueryFacts.
Import TableQuery.

Section Facts.
Context {IcebergTable GenericTable Error S : Type}.
Variable srv : Server IcebergTable GenericTable Error S.

(** C10: the query function first fetches the table as an Iceberg
    table.  When that fetch resolves, its result is returned and no
    other fetch is made.  Only when it rejects is the generic-table fetch
    made, with the same arguments; its result is returned when it
    resolves, and when it rejects too the error thrown is the one of the
    Iceberg fetch, whatever the generic fetch's error.  The drawer of the
    create-view modal runs the same function. *)
Theorem iceberg_first_then_generic (a : Args) (st : S) :
  let '(outcome, final, calls) := exec srv (queryFn a) st [] in
  hd_error calls = Some (TablesGet a) /\
  (In (TablesGetGeneric a) calls <->
   exists icebergError, fst (tablesGet srv a st) = inl icebergError) /\
  match tablesGet srv a st with
  | (inr table, st1) =>
      calls = [TablesGet a] /\ outcome = inr (Iceberg table) /\ final = st1
  | (inl icebergError, st1) =>
      calls = [TablesGet a; TablesGetGeneric a] /\
      match tablesGetGeneric srv a st1 with
      | (inr table, st2) => outcome = inr (Generic table) /\ final = st2
      | (inl genericError, st2) => outcome = inl icebergError /\ final = st2
      end
  end /\
  @drawerQueryFn IcebergTable GenericTable Error a = queryFn a.
Proof.
  cbn [exec queryFn].
  destruct (tablesGet srv a st) as [[icebergError|table] st1].
  - cbn [exec].
    destruct (tablesGetGeneric srv a st1) as [[genericError|table] st2];
      cbn [exec app hd_error fst]; repeat split; try reflexivity;
      try (intros _; eexists; reflexivity);
      try (intros _; right; left; reflexivity).
  - cbn [exec app hd_error fst]. repeat split; try reflexivity.
    + intros [H|[]]. discriminate H.
    + intros [e H]. discriminate H.
Qed.

End Facts.

(** Both fetches fail with different errors: the Iceberg one surfaces. *)
Example both_fetches_fail :
  let srv : Server nat nat string unit :=
    mkServer (fun _ st => (inl "iceberg: 404", st))
             (fun _ st => (inl "generic: 500", st)) in
  let a := mkArgs (Js.lit "polaris") [Js.lit "accounting"] (Js.lit "t") in
  exec srv (queryFn a) tt []
  = (inl "iceberg: 404", tt, [TablesGet a; TablesGetGeneric a]).
Proof. reflexivity. Qed.

End TableQueryFacts.

Module PhaseMoreFacts.
Import Phase PhaseInvariants.
Import PhaseFacts(Inv_inject, Inv_run, Inv_step, Inv_bound, Inv_terminated,
                  sumOver_moveTo, sumOver_nonneg, sumOver_lookup, pos_nonneg,
                  counts_total, counts_terminated, wrap_small,
                  ordinals_length, ordinals_snoc, sumOver_start).

Lemma ordinals_app (f m : nat) :
  ordinals 0 f ++ ordinals f m = ordinals 0 (f + m).
Proof. unfold ordinals. rewrite <- map_app, <- seq_app. reflexivity. Qed.

Lemma ordinals_NoDup (from count : nat) : NoDup (ordinals from count).
Proof.
  unfold ordinals.
  apply NoDup_fmap_2; [intros a b; apply Nat2Z.inj | apply NoDup_seq].
Qed.

Lemma ordinals_range (f : nat) (x : Z) :
  x ∈ ordinals 0 f -> 0 <= x < Z.of_nat f.
Proof.
  unfold ordinals. intros H.
  apply list_elem_of_In, in_map_iff in H as (n & <- & Hn).
  apply in_seq in Hn. lia.
Qed.

(** X1: at every moment of every run, whatever sessions hold the token,
    each of the [k] ordinals is in exactly one place: already visited,
    fed to a user whose requests have not run yet, or still in the
    feeder.  Nothing is visited twice and nothing outside [0 .. k-1] is
    visited. *)
Theorem every_ordinal_in_one_place (k : Z) (sessions : list bool)
    (Hk : 0 <= k)
    (Hb : k + Z.of_nat (length sessions) <= AtomicInteger.MAX_VALUE) :
  forall schedule p,
    run schedule (inject k sessions) = Some p ->
    visited p ++ inFlight (users p) ++ feeder p ≡ₚ ordinals 0 (Z.to_nat k) /\
    NoDup (visited p) /\
    (forall x, x ∈ visited p -> 0 <= x < k).
Proof.
  intros schedule p Hrun.
  destruct (Inv_run _ _ Hb _ _ _ _ (Inv_inject k sessions Hk) Hrun)
    as ((_ & _ & f & Hf & Hfeed & Hperm & _) & _).
  assert (visited p ++ inFlight (users p) ++ feeder p
          ≡ₚ ordinals 0 (Z.to_nat k)) as Hall.
  { rewrite app_assoc, Hperm, Hfeed, ordinals_app.
    replace (f + (Z.to_nat k - f))%nat with (Z.to_nat k) by lia. reflexivity. }
  split; [exact Hall|]. split.
  - assert (NoDup (visited p ++ inFlight (users p))) as Hnd
      by (rewrite Hperm; apply ordinals_NoDup).
    apply NoDup_app in Hnd as (Hnd & _). exact Hnd.
  - intros x Hx.
    assert (x ∈ ordinals 0 f) as Hin
      by (rewrite <- Hperm; apply elem_of_app; left; exact Hx).
    apply ordinals_range in Hin. lia.
Qed.

Lemma every_ordinal_in_one_place_witness :
  exists p, run [0; 2; 2; 0; 1]%nat (inject 3 [true; false; true]) = Some p /\
            visited p ++ inFlight (users p) ++ feeder p ≡ₚ [0; 1; 2].
Proof.
  eexists. split; [vm_compute; reflexivity|].
  apply (every_ordinal_in_one_place 3 [true; false; true] ltac:(lia)
           ltac:(unfold AtomicInteger.MAX_VALUE; simpl; lia)
           [0; 2; 2; 0; 1]%nat).
  vm_compute. reflexivity.
Defined.

(** *** No session holds the token *)

Lemma Unauthenticated_inject (k : Z) (w : nat) :
  Unauthenticated k (inject k (repeat false w)).
Proof.
  unfold Unauthenticated, inject. cbn [target visited feeder users counter].
  repeat split.
  - induction w as [|w IH]; constructor; [|exact IH].
    split; [reflexivity | left; reflexivity].
  - rewrite sumOver_start by reflexivity. reflexivity.
Qed.

Lemma Unauthenticated_step (k : Z) (i : nat) (p p' : t) :
  Z.of_nat (length (users p)) <= AtomicInteger.MAX_VALUE ->
  Unauthenticated k p -> step i p = Some p' ->
  Unauthenticated k p' /\ counter p' = counter p + 1 /\
  length (users p') = length (users p).
Proof.
  intros Hw (Ht & Hv & Hfeed & Hus & Hc) Hstep. unfold step in Hstep.
  destruct (users p !! i) as [u|] eqn:Hu; [|discriminate].
  destruct pos_nonneg as (N1 & N2 & N3 & N4).
  pose proof (sumOver_nonneg _ (users p) N2) as P2.
  pose proof (sumOver_nonneg _ (users p) N3) as P3.
  pose proof (sumOver_nonneg _ (users p) N4) as P4.
  pose proof (counts_total (users p)) as Htot.
  assert (hasAccessToken u = false /\ (pc u = AtCondition \/ pc u = Exited))
    as (Htok & Hpc).
  { rewrite Forall_forall in Hus. apply Hus.
    apply list_elem_of_lookup. exists i. exact Hu. }
  destruct u as [tok pcu]. cbn [hasAccessToken pc] in Htok, Hpc, Hstep.
  subst tok. destruct Hpc as [-> | ->]; [|discriminate].
  pose proof (sumOver_lookup _ _ _ _ N1 Hu) as L1.
  pose proof (sumOver_moveTo atExit _ _ _ Exited Hu) as HsD.
  change (atCondition (mkUser false AtCondition)) with 1 in L1.
  change (atExit (mkUser false AtCondition)) with 0 in HsD.
  change (atExit (mkUser (hasAccessToken (mkUser false AtCondition)) Exited))
    with 1 in HsD.
  unfold AtomicInteger.getAndIncrement in Hstep.
  rewrite andb_false_r in Hstep.
  rewrite wrap_small in Hstep
    by (unfold AtomicInteger.MIN_VALUE, AtomicInteger.MAX_VALUE in *; lia).
  injection Hstep as <-. cbn [target visited feeder users counter].
  split; [|split; [reflexivity | apply length_insert]].
  unfold Unauthenticated. cbn [target visited feeder users counter].
  repeat split; try assumption.
  - unfold moveTo. apply Forall_insert; [exact Hus|].
    split; [reflexivity | right; reflexivity].
  - rewrite HsD. lia.
Qed.

(** X2: a scenario none of whose [w] sessions holds the access token fetches
    nothing: in every run the feeder is untouched and nothing is visited.
    Each step is a user failing the loop condition, which still
    increments the counter, so the counter equals the number of steps
    taken, at most [w], and the scenario is over exactly when it reaches
    [w]. *)
Theorem nothing_fetched_without_token (k : Z) (w : nat)
    (Hw : Z.of_nat w <= AtomicInteger.MAX_VALUE) :
  forall schedule p,
    run schedule (inject k (repeat false w)) = Some p ->
    visited p = [] /\
    feeder p = newFeeder k /\
    counter p = Z.of_nat (length schedule) /\
    (length schedule <= w)%nat /\
    (terminated p = true <-> length schedule = w).
Proof.
  assert (forall schedule p0 p,
            length (users p0) = w -> Unauthenticated k p0 ->
            run schedule p0 = Some p ->
            Unauthenticated k p /\ length (users p) = w /\
            counter p = counter p0 + Z.of_nat (length schedule)) as Hgen.
  { induction schedule as [|i rest IH]; intros p0 p Hlen HU Hrun.
    - injection Hrun as <-. split; [exact HU|]. split; [exact Hlen|].
      simpl. lia.
    - cbn [run] in Hrun. destruct (step i p0) as [p1|] eqn:Hs; [|discriminate].
      destruct (Unauthenticated_step k i p0 p1 ltac:(lia) HU Hs)
        as (HU1 & Hc1 & Hl1).
      destruct (IH p1 p ltac:(lia) HU1 Hrun) as (HU' & Hl' & Hc').
      split; [exact HU'|]. split; [exact Hl'|]. simpl length. lia. }
  intros schedule p Hrun.
  assert (length (users (inject k (repeat false w))) = w) as Hlen0
    by (unfold inject; cbn [users]; rewrite length_map; apply repeat_length).
  destruct (Hgen schedule _ p Hlen0 (Unauthenticated_inject k w) Hrun)
    as ((Ht & Hv & Hfeed & Hus & Hc) & Hlen & Hcount).
  cbn [inject counter] in Hcount. unfold AtomicInteger.new in Hcount.
  destruct pos_nonneg as (N1 & N2 & N3 & N4).
  pose proof (sumOver_nonneg _ (users p) N1) as P1.
  pose proof (sumOver_nonneg _ (users p) N2) as P2.
  pose proof (sumOver_nonneg _ (users p) N3) as P3.
  pose proof (counts_total (users p)) as Htot.
  split; [exact Hv|]. split; [exact Hfeed|]. split; [lia|]. split; [lia|].
  split.
  - intros Hterm. destruct (counts_terminated _ Hterm) as (_ & _ & _ & H4 & _).
    lia.
  - intros Hn. unfold terminated. apply forallb_forall. intros u Hin.
    assert (sumOver atCondition (users p) = 0) as Hzero.
    { assert (sumOver atFeed (users p) = 0 /\ sumOver atExec (users p) = 0)
        as (HF & HE).
      { clear -Hus. induction Hus as [|u us (_ & Hpc) _ IH]; [split; reflexivity|].
        destruct IH as (IH1 & IH2). unfold sumOver in *.
        cbn [fold_right]. rewrite IH1, IH2. unfold atFeed, atExec.
        destruct Hpc as [-> | ->]; split; reflexivity. }
      lia. }
    rewrite Forall_forall in Hus.
    destruct (Hus u ltac:(apply list_elem_of_In; exact Hin)) as (_ & [Hpc|Hpc]);
      [|unfold exited; rewrite Hpc; reflexivity].
    exfalso. apply list_elem_of_In, list_elem_of_lookup in Hin as (j & Hj).
    pose proof (sumOver_lookup _ _ _ _ N1 Hj) as L.
    unfold atCondition in L at 1. rewrite Hpc in L. lia.
Qed.

Lemma nothing_fetched_without_token_witness :
  exists p, run [1; 0]%nat (inject 5 (repeat false 2)) = Some p /\
            terminated p = true /\ visited p = [] /\ counter p = 2.
Proof.
  assert (run [1; 0]%nat (inject 5 (repeat false 2))
          = Some (mk 5 2 [0; 1; 2; 3; 4]
                     [mkUser false Exited; mkUser false Exited] [])) as Hrun
    by (vm_compute; reflexivity).
  eexists. split; [exact Hrun|]. split; [reflexivity|].
  destruct (nothing_fetched_without_token 5 2
              ltac:(unfold AtomicInteger.MAX_VALUE; lia) [1; 0]%nat _ Hrun)
    as (Hv & _ & Hc & _).
  split; [exact Hv | exact Hc].
Defined.

(** *** A single user *)

Lemma InOrder_inject (k : Z) (b : bool) : InOrder k (inject k [b]).
Proof.
  exists 0%nat, (mkUser b AtCondition). unfold inject, newFeeder.
  cbn [users feeder visited map pc]. rewrite Nat.sub_0_r.
  repeat split.
Qed.

Lemma InOrder_step (k : Z) (i : nat) (p p' : t) :
  InOrder k p -> step i p = Some p' -> InOrder k p' /\ i = 0%nat.
Proof.
  intros (f & u & Hus & Hfeed & Hv) Hstep. unfold step in Hstep.
  rewrite Hus in Hstep. destruct i as [|i]; [|discriminate].
  cbn [lookup list_lookup] in Hstep. split; [|reflexivity].
  destruct u as [tok pcu]. cbn [pc hasAccessToken] in *.
  destruct pcu as [| |x|]; cbn [pc] in Hstep.
  - unfold AtomicInteger.getAndIncrement in Hstep. injection Hstep as <-.
    exists f. eexists. cbn [users feeder visited moveTo].
    split; [reflexivity|]. split; [exact Hfeed|].
    cbn [pc]. destruct ((counter p <? target p) && tok); exact Hv.
  - destruct (feeder p) as [|record rest] eqn:Ef; injection Hstep as <-.
    + exists f. eexists. cbn [users feeder visited moveTo].
      split; [reflexivity|]. split; [|exact Hv].
      destruct (Z.to_nat k - f)%nat; [reflexivity | discriminate Hfeed].
    + destruct (Z.to_nat k - f)%nat as [|m] eqn:Em; [discriminate Hfeed|].
      unfold ordinals in Hfeed. cbn [seq map] in Hfeed.
      injection Hfeed as -> ->.
      exists (S f). eexists. cbn [users feeder visited moveTo].
      split; [reflexivity|]. split.
      * replace (Z.to_nat k - S f)%nat with m by lia. reflexivity.
      * cbn [pc]. exists f. repeat split. exact Hv.
  - injection Hstep as <-. destruct Hv as (g & -> & -> & Hv).
    exists (S g). eexists. cbn [users feeder visited moveTo].
    split; [reflexivity|]. split; [exact Hfeed|].
    cbn [pc]. rewrite Hv, ordinals_snoc. reflexivity.
  - discriminate.
Qed.

Lemma InOrder_visited (k : Z) (p : t) :
  InOrder k p -> visited p = ordinals 0 (length (visited p)).
Proof.
  intros (f & u & _ & _ & Hv). destruct (pc u);
    try (rewrite Hv at 1; rewrite Hv, ordinals_length; reflexivity).
  destruct Hv as (g & _ & _ & Hv).
  rewrite Hv at 1. rewrite Hv, ordinals_length. reflexivity.
Qed.

Lemma InOrder_run (k : Z) (schedule : list nat) (p p' : t) :
  InOrder k p -> run schedule p = Some p' ->
  InOrder k p' /\ schedule = repeat 0%nat (length schedule).
Proof.
  revert p. induction schedule as [|i rest IH]; intros p HI Hrun.
  - injection Hrun as <-. split; [exact HI | reflexivity].
  - cbn [run] in Hrun. destruct (step i p) as [p1|] eqn:Hs; [|discriminate].
    destruct (InOrder_step _ _ _ _ HI Hs) as (HI1 & ->).
    destruct (IH _ HI1 Hrun) as (HI' & Hrest).
    split; [exact HI'|]. cbn [length repeat]. rewrite <- Hrest. reflexivity.
Qed.

(** The number of steps of a complete run in which every session holds
    the token. *)
Lemma complete_run_steps (k : Z) (sessions : list bool) (n : nat) (p : t) :
  Inv k sessions n p -> terminated p = true ->
  forallb (fun b => b) sessions = true -> (1 <= length sessions)%nat ->
  Z.of_nat n = 3 * k + Z.of_nat (length sessions).
Proof.
  intros HI Hterm Hall Hw.
  destruct (Inv_terminated _ _ _ _ HI Hterm) as (Hc & Hv).
  destruct (Hv Hall Hw) as (Hperm & Hck).
  destruct HI as (_ & _ & f & Hf & _ & Hp & Hcount & Hle & _ & Hn).
  destruct (counts_terminated _ Hterm) as (_ & H2 & _ & H4 & H5).
  rewrite H5, app_nil_r in Hp.
  apply Permutation_length in Hp, Hperm. rewrite ordinals_length in Hp, Hperm.
  lia.
Qed.

(** X3: the catalog scenario is injected with a single user.  With one user
    there is no choice of schedule, the ordinals are visited in
    increasing order without gaps, and a complete run visits
    [0, 1, ..., k-1] in this order in exactly [3k + 1] steps. *)
Theorem single_user_visits_in_order (k : Z)
    (Hk : 0 <= k) (Hb : k + 1 <= AtomicInteger.MAX_VALUE) :
  forall schedule p,
    run schedule (inject k (authenticated 1)) = Some p ->
    schedule = repeat 0%nat (length schedule) /\
    visited p = ordinals 0 (length (visited p)) /\
    (terminated p = true ->
     visited p = ordinals 0 (Z.to_nat k) /\
     Z.of_nat (length schedule) = 3 * k + 1).
Proof.
  intros schedule p Hrun. unfold authenticated in Hrun. cbn [repeat] in Hrun.
  destruct (InOrder_run k _ _ _ (InOrder_inject k true) Hrun) as (HI & Hsched).
  split; [exact Hsched|]. split; [exact (InOrder_visited _ _ HI)|].
  intros Hterm.
  assert (k + Z.of_nat (length [true]) <= AtomicInteger.MAX_VALUE) as Hb'
    by (simpl; lia).
  destruct (Inv_run _ _ Hb' _ _ _ _ (Inv_inject k [true] Hk) Hrun) as (HInv & _).
  destruct (Inv_terminated _ _ _ _ HInv Hterm) as (_ & Hv).
  destruct (Hv eq_refl ltac:(simpl; lia)) as (Hperm & _).
  split.
  - rewrite (InOrder_visited _ _ HI).
    apply Permutation_length in Hperm. rewrite ordinals_length in Hperm.
    rewrite Hperm. reflexivity.
  - pose proof (complete_run_steps _ _ _ _ HInv Hterm eq_refl
                  ltac:(simpl; lia)) as Hn.
    simpl in Hn. lia.
Qed.

Lemma single_user_visits_in_order_witness :
  exists p, run (repeat 0%nat 10) (inject 3 (authenticated 1)) = Some p /\
            terminated p = true /\ visited p = [0; 1; 2].
Proof.
  assert (run (repeat 0%nat 10) (inject 3 (authenticated 1))
          = Some (mk 3 4 [] [mkUser true Exited] [0; 1; 2])) as Hrun
    by (vm_compute; reflexivity).
  eexists. split; [exact Hrun|]. split; [reflexivity|].
  destruct (single_user_visits_in_order 3 ltac:(lia)
              ltac:(unfold AtomicInteger.MAX_VALUE; lia)
              (repeat 0%nat 10) _ Hrun) as (_ & _ & H).
  exact (proj1 (H eq_refl)).
Defined.

End PhaseMoreFacts.

Module SimulationMoreFacts.
Import Simulation SimulationInvariants.
Import SimulationFacts(Ordered_boot, Ordered_step, Ordered_run).

Lemma simulation_run_app (l1 l2 : list Label) (s : t) :
  run (l1 ++ l2) s = match run l1 s with Some s1 => run l2 s1 | None => None end.
Proof.
  revert s. induction l1 as [|l l1 IH]; intros s; [reflexivity|].
  cbn [app run]. destruct (step l s); [apply IH | reflexivity].
Qed.

Section Chain.
Variable pb : PopulationBuilder.
Hypothesis Hok : Forall populationOk pb.

Lemma Tracked_boot : Tracked pb (boot pb).
Proof.
  split; [apply Ordered_boot, Hok|].
  unfold boot. destruct pb; constructor.
Qed.

Lemma Tracked_step (l : Label) (s s' : t) :
  Tracked pb s -> step l s = Some s' -> Tracked pb s'.
Proof.
  intros (HO & Hfin) Hstep. split; [exact (Ordered_step _ Hok _ _ _ HO Hstep)|].
  destruct HO as (_ & _ & Hcur & _). unfold step in Hstep.
  destruct (current s) as [[pop r]|]; [|discriminate].
  destruct l as [i|].
  - destruct (userStep i r); [|discriminate]. injection Hstep as <-. exact Hfin.
  - destruct (over r) eqn:Ho; [|discriminate]. injection Hstep as <-.
    cbn [finished]. apply Forall_app. split; [exact Hfin|].
    constructor; [split; [exact Hcur | exact Ho] | constructor].
Qed.

Lemma Tracked_run (labels : list Label) (s s' : t) :
  Tracked pb s -> run labels s = Some s' -> Tracked pb s'.
Proof.
  revert s. induction labels as [|l rest IH]; intros s HT Hrun.
  - injection Hrun as <-. exact HT.
  - cbn [run] in Hrun. destruct (step l s) as [s1|] eqn:Hs; [|discriminate].
    exact (IH _ (Tracked_step _ _ _ HT Hs) Hrun).
Qed.

Lemma current_ok (s : t) (pop : Population) (r : Running) :
  Tracked pb s -> current s = Some (pop, r) -> populationOk pop.
Proof.
  intros ((Hpb & _) & _) Hc. unfold started in Hpb. rewrite Hc in Hpb.
  pose proof Hok as H. rewrite <- Hpb in H.
  apply Forall_app in H as (H & _). apply Forall_app in H as (_ & H).
  apply Forall_cons in H as (H & _). exact H.
Qed.

(** The users of the running population can always bring it to its
    end. *)
Lemma lift_run (pop : Population) (schedule : list nat) (p p' : Phase.t)
    (fin : list (Population * Running)) (w : list Population)
    (tr : list (nat * nat)) :
  Phase.run schedule p = Some p' ->
  exists tr',
    run (map UserStep schedule) (mk fin (Some (pop, Loop p)) w tr)
    = Some (mk fin (Some (pop, Loop p')) w tr').
Proof.
  revert p tr. induction schedule as [|i rest IH]; intros p tr Hrun.
  - injection Hrun as <-. exists tr. reflexivity.
  - cbn [Phase.run] in Hrun.
    destruct (Phase.step i p) as [p1|] eqn:Hs; [|discriminate].
    destruct (IH p1 (tr ++ [(length fin, i)]) Hrun) as (tr' & Hr).
    exists tr'. cbn [map run step current userStep]. rewrite Hs.
    cbn [option_map finished waiting trace]. exact Hr.
Qed.

Lemma finish_current (s : t) (pop : Population) (r : Running) :
  Tracked pb s -> current s = Some (pop, r) ->
  exists labels s' r',
    run labels s = Some s' /\ current s' = Some (pop, r') /\
    over r' = true /\ waiting s' = waiting s.
Proof.
  intros HT Hc. pose proof (current_ok _ _ _ HT Hc) as Hpop.
  destruct HT as ((_ & _ & Hreach & _) & _). rewrite Hc in Hreach.
  destruct s as [fin cur w tr]. cbn [current waiting] in *. subst cur.
  unfold reachable in Hreach. unfold populationOk in Hpop.
  cbn [fst snd] in Hreach.
  destruct (body pop) as [count|]; destruct r as [p|done]; try contradiction.
  - destruct Hpop as (Hk & _ & Hb). destruct Hreach as (n & HI).
    destruct (PhaseFacts.run_completes _ _ _ _ Hk Hb HI)
      as (schedule & p' & Hrun & Hterm).
    destruct (lift_run pop _ _ _ fin w tr Hrun) as (tr' & Hr).
    exists (map UserStep schedule), (mk fin (Some (pop, Loop p')) w tr'), (Loop p').
    repeat split; [exact Hr | exact Hterm].
  - destruct done.
    + exists [], (mk fin (Some (pop, Once true)) w tr), (Once true).
      repeat split.
    + exists [UserStep 0],
        (mk fin (Some (pop, Once true)) w (tr ++ [(length fin, 0%nat)])),
        (Once true).
      repeat split.
Qed.

Lemma can_finish (n : nat) :
  forall s, Tracked pb s -> length (waiting s) = n ->
  exists labels s', run labels s = Some s' /\ current s' = None.
Proof.
  induction n as [|n IH]; intros s HT Hlen;
    (destruct (current s) as [[pop r]|] eqn:Hc;
       [|exists [], s; split; [reflexivity | exact Hc]]);
    destruct (finish_current _ _ _ HT Hc)
      as (l1 & s1 & r1 & Hrun1 & Hc1 & Ho1 & Hw1);
    pose proof (Tracked_run _ _ _ HT Hrun1) as HT1;
    destruct (step StartNext s1) as [s2|] eqn:Hs2;
    try (unfold step in Hs2; rewrite Hc1, Ho1 in Hs2; discriminate Hs2);
    pose proof (Tracked_step _ _ _ HT1 Hs2) as HT2;
    assert (waiting s2 = tl (waiting s1) /\
            (waiting s1 = [] -> current s2 = None)) as (Hw2 & Hn2)
      by (unfold step in Hs2; rewrite Hc1, Ho1 in Hs2; injection Hs2 as <-;
          cbn [waiting current]; split; [reflexivity|];
          intros ->; reflexivity).
  - exists (l1 ++ [StartNext]), s2. rewrite simulation_run_app, Hrun1. cbn [run].
    rewrite Hs2. split; [reflexivity|]. apply Hn2. rewrite Hw1.
    destruct (waiting s); [reflexivity | discriminate Hlen].
  - destruct (IH s2 HT2) as (l2 & s3 & Hrun3 & Hc3).
    { rewrite Hw2, Hw1. destruct (waiting s); [discriminate Hlen|].
      simpl in *. lia. }
    exists (l1 ++ StartNext :: l2), s3. rewrite simulation_run_app, Hrun1. cbn [run].
    rewrite Hs2. split; [exact Hrun3 | exact Hc3].
Qed.

Lemma never_stuck (s : t) :
  current s <> None -> exists l s', step l s = Some s'.
Proof.
  intros Hc. unfold step. destruct (current s) as [[pop r]|]; [|contradiction].
  destruct (over r) eqn:Ho; [exists StartNext; eexists; reflexivity|].
  destruct r as [p|done]; cbn [over] in Ho.
  - destruct (PhaseFacts.step_progress _ Ho) as (i & p' & Hs).
    exists (UserStep i). cbn [userStep]. rewrite Hs. eexists. reflexivity.
  - subst done. exists (UserStep 0). eexists. reflexivity.
Qed.

Lemma finished_visitedAll (s : t) :
  Forall authenticated pb -> Tracked pb s -> current s = None ->
  map fst (finished s) = pb /\ Forall visitedAll (finished s).
Proof.
  intros Hauth ((Hpb & _ & Hw & _) & Hfin) Hc. rewrite Hc in Hw.
  unfold started in Hpb. rewrite Hc, Hw, !app_nil_r in Hpb.
  split; [exact Hpb|].
  assert (Forall (fun st => populationOk (fst st) /\ authenticated (fst st))
                 (finished s)) as Hpops.
  { apply Forall_forall. intros st Hin.
    assert (fst st ∈ pb) as Hin'.
    { rewrite <- Hpb. apply list_elem_of_In, in_map, list_elem_of_In, Hin. }
    rewrite Forall_forall in Hok, Hauth. split; [apply Hok | apply Hauth];
      exact Hin'. }
  apply Forall_forall. intros [pop r] Hin.
  rewrite Forall_forall in Hfin, Hpops.
  destruct (Hfin _ Hin) as (Hreach & Hover).
  destruct (Hpops _ Hin) as (Hpop & Ha).
  unfold reachable in Hreach. unfold populationOk in Hpop.
  unfold visitedAll, authenticated in *. cbn [fst snd] in *.
  destruct (body pop) as [count|]; destruct r as [p|done]; try contradiction.
  - destruct Hreach as (n & HI). destruct Hpop as (_ & Hw1 & _).
    split; [exact Hover|].
    destruct (PhaseFacts.Inv_terminated _ _ _ _ HI Hover) as (_ & Hv).
    exact (proj1 (Hv Ha Hw1)).
  - exact Hover.
Qed.

End Chain.

Lemma atOnceUsers_authenticated (n : nat) :
  forallb (fun b => b) (atOnceUsers (fun _ => true) n) = true.
Proof.
  unfold atOnceUsers. generalize 0%nat. induction n as [|n IH]; intros from;
    [reflexivity|]. cbn [seq map forallb]. apply IH.
Qed.

(** X4: "It fetches each entity exactly once": when every session holds the
    access token (and the counters stay within the range of an [Int]),
    the simulation can always be run to its end, it is never stuck
    before, and whenever it is over all six populations have run, in the
    order of the chain, each verification loop having visited each of
    its entities once. *)
Theorem simulation_fetches_each_entity_once
    (dp : Topology.ShapeParameters) (wp : WorkloadParameters)
    (Hok : Forall populationOk (setUp dp wp (fun _ _ => true))) :
  let pb := setUp dp wp (fun _ _ => true) in
  (exists labels s, run labels (boot pb) = Some s /\ current s = None) /\
  forall labels s,
    run labels (boot pb) = Some s ->
    (current s <> None -> exists l s', step l s = Some s') /\
    (current s = None ->
     map fst (finished s) = pb /\ Forall visitedAll (finished s)).
Proof.
  cbv zeta. split.
  - exact (can_finish _ Hok _ _ (Tracked_boot _ Hok) eq_refl).
  - intros labels s Hrun.
    pose proof (Tracked_run _ Hok _ _ _ (Tracked_boot _ Hok) Hrun) as HT.
    split; [apply never_stuck|].
    apply (finished_visitedAll _ Hok); [|exact HT].
    unfold setUp, andThen, inject, authenticated.
    repeat (apply Forall_app; split);
      repeat constructor; cbn [sessions]; apply atOnceUsers_authenticated.
Qed.

Lemma simulation_fetches_each_entity_once_witness :
  let dp := Topology.mkShape 1 2 2 1 1 (-1) (-1) false in
  let pb := setUp dp (mkWorkload 1 1 1) (fun _ _ => true) in
  let labels :=
    [UserStep 0; StartNext] ++ repeat (UserStep 0) 4 ++ [StartNext]
    ++ repeat (UserStep 0) 10 ++ [StartNext]
    ++ repeat (UserStep 0) 7 ++ [StartNext]
    ++ repeat (UserStep 0) 7 ++ [StartNext] ++ [UserStep 0; StartNext] in
  Forall populationOk pb /\
  exists s, run labels (boot pb) = Some s /\ current s = None /\
            Forall visitedAll (finished s).
Proof.
  cbv zeta.
  assert (Forall populationOk
            (setUp (Topology.mkShape 1 2 2 1 1 (-1) (-1) false)
                   (mkWorkload 1 1 1) (fun _ _ => true))) as Hok.
  { repeat constructor; vm_compute; intros; discriminate. }
  split; [exact Hok|].
  pose proof (proj2 (simulation_fetches_each_entity_once _ _ Hok)) as H.
  cbv zeta in H.
  match goal with
  | |- exists s, run ?l ?b = Some s /\ _ =>
      specialize (H l); remember (run l b) as o eqn:E
  end.
  vm_compute in E. subst o.
  eexists. split; [reflexivity|]. split; [reflexivity|].
  exact (proj2 (proj2 (H _ eq_refl) eq_refl)).
Defined.

End SimulationMoreFacts.

Module ManglerMoreFacts.
Import JavaLang Mangler SharedManglerInvariants.
Import ManglerFacts(mkString_hex, digest_length, mangled_hex, toString_parseInt,
                    string_length_app).

(** *** A disabled mangler shared by threads *)

Lemma disabled_step (init : list SharedMangler.Thread) (i : nat)
    (s s' : SharedMangler.t) :
  enabled (SharedMangler.mangler s) = false ->
  Forall (fun th => called th = true) init ->
  Forall2 plainOutcome init (SharedMangler.threads s) ->
  SharedMangler.step i s = Some s' ->
  SharedMangler.mangler s' = SharedMangler.mangler s /\
  Forall2 plainOutcome init (SharedMangler.threads s').
Proof.
  intros Hdis Hinit HF Hstep. unfold SharedMangler.step in Hstep.
  destruct (SharedMangler.threads s !! i) as [th|] eqn:Hth; [|discriminate].
  destruct (Forall2_lookup_r _ _ _ _ _ HF Hth) as (th0 & Hth0 & Hout).
  pose proof (Forall_lookup_1 _ _ _ _ Hinit Hth0) as Hcalled.
  destruct th as [prefix ordinal| |result]; [| |discriminate].
  - rewrite Hdis in Hstep. injection Hstep as <-.
    cbn [SharedMangler.mangler SharedMangler.threads].
    split; [reflexivity|].
    rewrite <- (list_insert_id init i th0 Hth0).
    apply Forall2_insert; [exact HF|].
    destruct Hout as [<- | (p & n & _ & [=])].
    right. exists prefix, ordinal. split; reflexivity.
  - exfalso. destruct Hout as [<- | (p & n & _ & [=])]. discriminate Hcalled.
Qed.

(** X5: with [enabled = false] sharing a mangler between threads is
    harmless: however the calls overlap, the mangler is left as it was
    and every thread that has returned holds the plain name of its own
    call, prefix followed by ordinal. *)
Theorem disabled_mangler_safe_to_share
    (m : Mangler.t) (calls : list SharedMangler.Thread)
    (Hdis : enabled m = false)
    (Hcalls : Forall (fun th => called th = true) calls) :
  forall schedule s,
    SharedMangler.run schedule (SharedMangler.mk m calls) = Some s ->
    SharedMangler.mangler s = m /\
    Forall2 plainOutcome calls (SharedMangler.threads s).
Proof.
  assert (forall schedule s0 s,
            SharedMangler.mangler s0 = m ->
            Forall2 plainOutcome calls (SharedMangler.threads s0) ->
            SharedMangler.run schedule s0 = Some s ->
            SharedMangler.mangler s = m /\
            Forall2 plainOutcome calls (SharedMangler.threads s)) as Hgen.
  { induction schedule as [|i rest IH]; intros s0 s Hm HF Hrun.
    - injection Hrun as <-. split; assumption.
    - cbn [SharedMangler.run] in Hrun.
      destruct (SharedMangler.step i s0) as [s1|] eqn:Hs; [|discriminate].
      destruct (disabled_step calls i s0 s1 ltac:(rewrite Hm; exact Hdis)
                  Hcalls HF Hs) as (Hm1 & HF1).
      apply (IH s1 s); [rewrite Hm1; exact Hm | exact HF1 | exact Hrun]. }
  intros schedule s Hrun.
  apply (Hgen schedule (SharedMangler.mk m calls) s eq_refl); [|exact Hrun].
  cbn [SharedMangler.threads]. clear.
  induction calls; constructor; [left; reflexivity | assumption].
Qed.

Lemma disabled_mangler_safe_to_share_witness :
  option_map SharedMangler.threads
    (SharedMangler.run [1; 0]%nat
       (SharedMangler.mk (new false)
          [SharedMangler.Called "NS_" 7; SharedMangler.Called "T_" 8]))
  = Some [SharedMangler.Returned "NS_7"; SharedMangler.Returned "T_8"] /\
  Forall2 plainOutcome
    [SharedMangler.Called "NS_" 7; SharedMangler.Called "T_" 8]
    [SharedMangler.Returned "NS_7"; SharedMangler.Returned "T_8"].
Proof.
  split; [reflexivity|].
  exact (proj2 (disabled_mangler_safe_to_share (new false)
                  [SharedMangler.Called "NS_" 7; SharedMangler.Called "T_" 8]
                  eq_refl ltac:(repeat constructor) [1; 0]%nat _ eq_refl)).
Defined.

(** *** An enabled mangler shared by threads *)

Lemma digest_hexName (bytes : list Z) :
  hexName (mkString (map format_02x (Md5.digest bytes))).
Proof.
  destruct (mkString_hex (Md5.digest bytes)) as [Hl Hh].
  rewrite digest_length in Hl. split; assumption.
Qed.

Lemma enabled_step (i : nat) (s s' : SharedMangler.t) :
  enabled (SharedMangler.mangler s) = true ->
  Forall hexOutcome (SharedMangler.threads s) ->
  (forallb (fun th => negb (inProgress th)) (SharedMangler.threads s) = true ->
   MD5 (SharedMangler.mangler s) = MessageDigest.getInstance) ->
  SharedMangler.step i s = Some s' ->
  enabled (SharedMangler.mangler s') = true /\
  Forall hexOutcome (SharedMangler.threads s') /\
  (forallb (fun th => negb (inProgress th)) (SharedMangler.threads s') = true ->
   MD5 (SharedMangler.mangler s') = MessageDigest.getInstance).
Proof.
  intros Hen HF Hidle Hstep. unfold SharedMangler.step in Hstep.
  destruct (SharedMangler.threads s !! i) as [th|] eqn:Hth; [|discriminate].
  destruct th as [prefix ordinal| |result]; [| |discriminate].
  - rewrite Hen in Hstep. injection Hstep as <-.
    cbn [SharedMangler.mangler SharedMangler.threads enabled MD5].
    split; [reflexivity|]. split.
    + apply Forall_insert; [exact HF | exact I].
    + intros Hno. exfalso.
      rewrite forallb_forall in Hno.
      specialize (Hno SharedMangler.Updated).
      assert (In SharedMangler.Updated
                (<[i:=SharedMangler.Updated]> (SharedMangler.threads s))) as Hin.
      { apply list_elem_of_In, list_elem_of_lookup. exists i.
        apply list_lookup_insert_eq. apply lookup_lt_Some in Hth. exact Hth. }
      specialize (Hno Hin). discriminate Hno.
  - unfold MessageDigest.finish in Hstep. injection Hstep as <-.
    cbn [SharedMangler.mangler SharedMangler.threads enabled MD5].
    split; [exact Hen|]. split.
    + apply Forall_insert; [exact HF | apply digest_hexName].
    + intros _. reflexivity.
Qed.

(** X6: with [enabled = true], take the overlaps in which the
    operations of the shared engine are interleaved in any order while
    each [update] and each [digest()] runs undisturbed (the engine
    promises no such thing: these are some of the overlaps that can
    happen, the ones of the schedules of [SharedMangler.run]).  In all
    of them a thread may receive the digest of the wrong bytes, but what
    it receives is always a name of 32 lowercase hexadecimal characters;
    and whenever no call is between its two accesses to the engine, the
    mangler is back in the state of a new one, so calls made after such
    an overlap return the right names again. *)
Theorem enabled_mangler_interleaved_operations (calls : list SharedMangler.Thread)
    (Hcalls : Forall (fun th => called th = true) calls) :
  forall schedule s,
    SharedMangler.run schedule (SharedMangler.mk (new true) calls) = Some s ->
    Forall hexOutcome (SharedMangler.threads s) /\
    (forallb (fun th => negb (inProgress th)) (SharedMangler.threads s) = true ->
     SharedMangler.mangler s = new true).
Proof.
  assert (forall schedule s0 s,
            enabled (SharedMangler.mangler s0) = true ->
            Forall hexOutcome (SharedMangler.threads s0) ->
            (forallb (fun th => negb (inProgress th))
                     (SharedMangler.threads s0) = true ->
             MD5 (SharedMangler.mangler s0) = MessageDigest.getInstance) ->
            SharedMangler.run schedule s0 = Some s ->
            enabled (SharedMangler.mangler s) = true /\
            Forall hexOutcome (SharedMangler.threads s) /\
            (forallb (fun th => negb (inProgress th))
                     (SharedMangler.threads s) = true ->
             MD5 (SharedMangler.mangler s) = MessageDigest.getInstance)) as Hgen.
  { induction schedule as [|i rest IH]; intros s0 s Hen HF Hidle Hrun.
    - injection Hrun as <-. repeat split; assumption.
    - cbn [SharedMangler.run] in Hrun.
      destruct (SharedMangler.step i s0) as [s1|] eqn:Hs; [|discriminate].
      destruct (enabled_step i s0 s1 Hen HF Hidle Hs) as (Hen1 & HF1 & Hidle1).
      exact (IH s1 s Hen1 HF1 Hidle1 Hrun). }
  intros schedule s Hrun.
  destruct (Hgen schedule (SharedMangler.mk (new true) calls) s eq_refl)
    with (3 := Hrun) as (Hen & HF & Hidle).
  - cbn [SharedMangler.threads]. eapply Forall_impl; [exact Hcalls|].
    intros [| |] H; try exact I. discriminate H.
  - intros _. reflexivity.
  - split; [exact HF|]. intros Hno. specialize (Hidle Hno).
    destruct (SharedMangler.mangler s) as [en md]. cbn [enabled MD5] in *.
    subst. reflexivity.
Qed.

Lemma enabled_mangler_interleaved_operations_witness :
  exists s,
    SharedMangler.run [0; 1; 0; 1]%nat
      (SharedMangler.mk (new true)
         [SharedMangler.Called "NS_" 0; SharedMangler.Called "T_" 0]) = Some s /\
    Forall hexOutcome (SharedMangler.threads s) /\
    SharedMangler.mangler s = new true.
Proof.
  assert (exists s,
    SharedMangler.run [0; 1; 0; 1]%nat
      (SharedMangler.mk (new true)
         [SharedMangler.Called "NS_" 0; SharedMangler.Called "T_" 0]) = Some s /\
    forallb (fun th => negb (inProgress th)) (SharedMangler.threads s) = true)
    as (s & Hrun & Hidle)
    by (eexists; split; [vm_compute; reflexivity | reflexivity]).
  exists s. split; [exact Hrun|].
  destruct (enabled_mangler_interleaved_operations
              [SharedMangler.Called "NS_" 0; SharedMangler.Called "T_" 0]
              ltac:(repeat constructor) _ _ Hrun) as (HF & Hm).
  split; [exact HF | exact (Hm Hidle)].
Defined.

(** *** Names do not collide *)

Lemma toString_inj (n1 n2 : Z) :
  Integer_toString n1 = Integer_toString n2 -> n1 = n2.
Proof.
  intros H. apply (f_equal Integer_parseInt) in H.
  rewrite !toString_parseInt in H. injection H as H. exact H.
Qed.

Lemma unmangled_not_hex (k : Kind) (n : Z) (hex : string) :
  hexName hex -> fst (name (new false) k n) <> hex.
Proof.
  intros (Hl & Hh) E. subst hex.
  destruct k; cbn in Hh; discriminate Hh.
Qed.

(** X7: in unmangled mode two entities have the same name only if they are
    of the same kind and have the same ordinal; and no unmangled name is
    ever the mangled name of anything, as it starts with an uppercase
    letter. *)
Theorem unmangled_names_distinct (k1 k2 : Kind) (n1 n2 : Z)
    (H : fst (name (new false) k1 n1) = fst (name (new false) k2 n2)) :
  (k1 = k2 /\ n1 = n2) /\
  forall prefix ordinal, fst (name (new false) k1 n1) <> mangled prefix ordinal.
Proof.
  split.
  - destruct k1, k2; cbn in H; try discriminate H;
      injection H as H; apply toString_inj in H;
      (split; [reflexivity | exact H]).
  - intros prefix ordinal. apply unmangled_not_hex.
    destruct (mangled_hex prefix ordinal) as [Hl Hh]. split; assumption.
Qed.

Lemma unmangled_names_distinct_witness :
  (Table = Table /\ 12 = 12) /\
  fst (name (new false) Table 12) <> mangled "T_" 12.
Proof.
  destruct (unmangled_names_distinct Table Table 12 12 eq_refl) as (H1 & H2).
  split; [exact H1 | apply H2].
Defined.

End ManglerMoreFacts.

Module RouteFacts.
Import Js Route.
Import ViewsApi(encodeNamespace, joinEncoded, mkRequest, GET).
Import ViewsApiFacts(list_pairs_ind, encode_app, encode_wellFormed,
                     encode_namespace, encode_parts, encode_pair,
                     wellFormed_pair, append_assoc).

(** *** Splitting and joining *)

Lemma split_nonempty (sep : Z) (s : JsString) : split sep s <> [].
Proof.
  destruct s as [|c s]; [discriminate|]. cbn [split].
  destruct (c =? sep); [discriminate|]. destruct (split sep s); discriminate.
Qed.

Lemma join_cons (sep : Z) (part : JsString) (parts : list JsString) :
  parts <> [] ->
  join [sep] (part :: parts) = part ++ sep :: join [sep] parts.
Proof.
  destruct parts as [|p ps]; [contradiction|]. intros _.
  unfold join. cbn [flat_map]. rewrite <- app_assoc. reflexivity.
Qed.

Lemma join_split (sep : Z) (s : JsString) : join [sep] (split sep s) = s.
Proof.
  induction s as [|c s IH]; [reflexivity|]. cbn [split].
  destruct (Z.eqb_spec c sep) as [->|Hne].
  - rewrite join_cons by apply split_nonempty. rewrite IH. reflexivity.
  - pose proof (split_nonempty sep s) as Hn.
    destruct (split sep s) as [|part more]; [contradiction|].
    destruct more as [|p ps].
    + unfold join in *. cbn [flat_map] in *. rewrite app_nil_r in *.
      rewrite IH. reflexivity.
    + rewrite join_cons in IH by discriminate.
      rewrite join_cons by discriminate. cbn [app]. rewrite IH. reflexivity.
Qed.

Lemma split_parts (sep : Z) (s : JsString) :
  Forall (fun part => ~ In sep part) (split sep s).
Proof.
  induction s as [|c s IH]; [repeat constructor; intros []|]. cbn [split].
  destruct (Z.eqb_spec c sep) as [->|Hne].
  - constructor; [intros [] | exact IH].
  - destruct (split sep s) as [|part more]; [repeat constructor|].
    + intros [H|[]]. exact (Hne H).
    + apply Forall_cons in IH as (Hp & Hm). constructor; [|exact Hm].
      intros [H|H]; [exact (Hne H) | exact (Hp H)].
Qed.

Lemma split_app (sep : Z) (part rest : JsString) :
  ~ In sep part -> split sep (part ++ sep :: rest) = part :: split sep rest.
Proof.
  induction part as [|c part IH]; intros Hn.
  - cbn [app split]. rewrite Z.eqb_refl. reflexivity.
  - cbn [app split]. destruct (Z.eqb_spec c sep) as [->|Hne].
    + exfalso. apply Hn. left. reflexivity.
    + rewrite IH by (intros H; apply Hn; right; exact H). reflexivity.
Qed.

Lemma split_single (sep : Z) (part : JsString) :
  ~ In sep part -> split sep part = [part].
Proof.
  induction part as [|c part IH]; intros Hn; [reflexivity|]. cbn [split].
  destruct (Z.eqb_spec c sep) as [->|Hne].
  - exfalso. apply Hn. left. reflexivity.
  - rewrite IH by (intros H; apply Hn; right; exact H). reflexivity.
Qed.

Lemma split_join (sep : Z) (parts : list JsString) :
  parts <> [] -> Forall (fun part => ~ In sep part) parts ->
  split sep (join [sep] parts) = parts.
Proof.
  induction parts as [|part parts IH]; [contradiction|]. intros _ HF.
  apply Forall_cons in HF as (Hp & HF).
  destruct parts as [|p ps].
  - unfold join. cbn [flat_map]. rewrite app_nil_r.
    apply split_single, Hp.
  - rewrite join_cons by discriminate. rewrite split_app by exact Hp.
    rewrite IH by (discriminate || exact HF). reflexivity.
Qed.

Lemma join_inj (sep : Z) (ns1 ns2 : list JsString) :
  ns1 <> [] -> ns2 <> [] ->
  Forall (fun part => ~ In sep part) ns1 ->
  Forall (fun part => ~ In sep part) ns2 ->
  join [sep] ns1 = join [sep] ns2 -> ns1 = ns2.
Proof.
  intros H1 H2 F1 F2 E. apply (f_equal (split sep)) in E.
  rewrite !split_join in E by assumption. exact E.
Qed.

(** X8: the namespace of a details page is the route parameter split at its
    dots: joined again with dots ([nsPath]) it is the parameter itself;
    no part contains a dot; and the array is empty only when the
    parameter is missing.  For the empty parameter it is [[""]], of
    length one, so the query guard [namespaceArray.length > 0] lets the
    fetch run exactly in the case where the page, whose own guard tests
    the parameter, reports that the parameters are required. *)
Theorem route_namespace_round_trip
    (catalogName namespaceParam entityName : option JsString) :
  (forall s, namespaceParam = Some s -> nsPath namespaceParam = s) /\
  Forall (fun part => ~ In dot part) (namespaceArray namespaceParam) /\
  (namespaceArray namespaceParam = [] <-> namespaceParam = None) /\
  (queryEnabled catalogName namespaceParam entityName = true /\
   paramsMissing catalogName namespaceParam entityName = true
   <-> truthy catalogName = true /\ truthy entityName = true /\
       namespaceParam = Some []).
Proof.
  split; [|split; [|split]].
  - intros s ->. apply join_split.
  - destruct namespaceParam; [apply split_parts | constructor].
  - destruct namespaceParam as [s|]; cbn [namespaceArray].
    + split; [|discriminate]. intros H. exfalso.
      exact (split_nonempty _ _ H).
    + split; reflexivity.
  - unfold queryEnabled, paramsMissing.
    destruct (truthy catalogName), (truthy entityName);
      cbn [andb orb negb]; rewrite ?andb_false_r, ?orb_false_r;
      try (split; [intros [H _]; discriminate H | intros (H1 & H2 & _); discriminate]).
    destruct namespaceParam as [[|c s]|]; cbn [truthy namespaceArray negb].
    + split; [intros _; repeat split | intros _; split; reflexivity].
    + split; [intros [_ H]; discriminate H | intros (_ & _ & [=])].
    + split; [intros [H _]; discriminate H | intros (_ & _ & [=])].
Qed.

(** *** Well-formedness across a separator *)

Lemma wellFormed_sep (sep : Z) (a b : JsString) :
  isLeadSurrogate sep = false -> isTrailSurrogate sep = false ->
  isWellFormed (a ++ sep :: b) = isWellFormed a && isWellFormed b.
Proof.
  intros Hl Ht.
  induction a as [|x|x y l IHl IHyl] using list_pairs_ind.
  - cbn [app isWellFormed]. rewrite Hl, Ht. reflexivity.
  - cbn [app]. rewrite wellFormed_pair. cbn [isWellFormed].
    destruct (isLeadSurrogate x); [rewrite Ht; reflexivity|].
    rewrite Hl, Ht. cbn [negb andb]. rewrite andb_true_r. reflexivity.
  - change ((x :: y :: l) ++ sep :: b) with (x :: y :: (l ++ sep :: b)).
    rewrite !wellFormed_pair.
    change (y :: l ++ sep :: b) with ((y :: l) ++ sep :: b).
    rewrite IHl, IHyl.
    destruct (isLeadSurrogate x); rewrite andb_assoc; reflexivity.
Qed.

Lemma wellFormed_join (sep : Z) (parts : list JsString) :
  isLeadSurrogate sep = false -> isTrailSurrogate sep = false ->
  isWellFormed (join [sep] parts) = forallb isWellFormed parts.
Proof.
  intros Hl Ht. induction parts as [|part parts IH]; [reflexivity|].
  destruct parts as [|p ps].
  - unfold join. cbn [flat_map forallb]. rewrite app_nil_r, andb_true_r.
    reflexivity.
  - rewrite join_cons by discriminate.
    rewrite wellFormed_sep by assumption. rewrite IH. reflexivity.
Qed.

Lemma forallb_Forall_wellFormed (parts : list JsString) :
  forallb isWellFormed parts = true <->
  Forall (fun part => isWellFormed part = true) parts.
Proof.
  rewrite forallb_forall, Forall_forall. split; intros H x Hx; apply H.
  - apply list_elem_of_In, Hx.
  - apply list_elem_of_In, Hx.
Qed.

Lemma encode_none (s : JsString) :
  encodeURIComponent s = None <-> isWellFormed s = false.
Proof.
  split.
  - intros E. destruct (isWellFormed s) eqn:W; [|reflexivity].
    apply encode_wellFormed in W as (e & He). rewrite He in E. discriminate E.
  - intros W. destruct (encodeURIComponent s) as [e|] eqn:E; [|reflexivity].
    assert (isWellFormed s = true) as W'
      by (apply encode_wellFormed; eexists; exact E).
    rewrite W in W'. discriminate W'.
Qed.

(** *** [encodeNamespace] *)

(** X9: the namespace string sent to the catalog determines the namespace
    array as long as the array is not empty and no part contains the
    unit separator.  Beyond that it is ambiguous: a separator inside a
    part cannot be told from the one between two parts, and the empty
    array gives the same string as the array holding one empty part. *)
Theorem encodeNamespace_injective (ns1 ns2 : list JsString)
    (H1 : ns1 <> []) (H2 : ns2 <> [])
    (F1 : Forall (fun part => ~ In 0x1F part) ns1)
    (F2 : Forall (fun part => ~ In 0x1F part) ns2)
    (E : encodeNamespace ns1 = encodeNamespace ns2) :
  ns1 = ns2 /\
  (forall a b rest,
     encodeNamespace ((a ++ 0x1F :: b) :: rest) = encodeNamespace (a :: b :: rest)) /\
  encodeNamespace [] = encodeNamespace [[]].
Proof.
  split; [exact (join_inj _ _ _ H1 H2 F1 F2 E)|]. split; [|reflexivity].
  intros a b rest. unfold encodeNamespace, join. cbn [flat_map app].
  rewrite <- !app_assoc. reflexivity.
Qed.

Lemma encodeNamespace_injective_witness :
  [lit "accounting"; lit "tax"] = [lit "accounting"; lit "tax"] /\
  encodeNamespace [lit "accounting" ++ 0x1F :: lit "tax"]
  = encodeNamespace [lit "accounting"; lit "tax"].
Proof.
  destruct (encodeNamespace_injective
              [lit "accounting"; lit "tax"] [lit "accounting"; lit "tax"]
              ltac:(discriminate) ltac:(discriminate)
              ltac:(repeat constructor; vm_compute; intuition discriminate)
              ltac:(repeat constructor; vm_compute; intuition discriminate)
              eq_refl) as (H & Hamb & _).
  split; [exact H | exact (Hamb _ _ [])].
Defined.

(** *** When the views API throws *)

(** X10: building the path throws, and no request is made, exactly when the
    catalog name, a namespace part or (for get and delete) the view name
    holds a surrogate that is not part of a pair; list and create never
    look at anything else. *)
Theorem views_api_throws_iff
    (prefix : JsString) (namespace : list JsString) (viewName : JsString) :
  (ViewsApi.list_ prefix namespace = None <->
   isWellFormed prefix && forallb isWellFormed namespace = false) /\
  (ViewsApi.create prefix namespace = None <->
   isWellFormed prefix && forallb isWellFormed namespace = false) /\
  (ViewsApi.get prefix namespace viewName = None <->
   isWellFormed prefix && forallb isWellFormed namespace
   && isWellFormed viewName = false) /\
  (ViewsApi.delete prefix namespace viewName = None <->
   isWellFormed prefix && forallb isWellFormed namespace
   && isWellFormed viewName = false).
Proof.
  unfold ViewsApi.list_, ViewsApi.create, ViewsApi.get, ViewsApi.delete,
    ViewsApi.viewsPath, ViewsApi.viewPath, ViewsApi.bind. cbv zeta.
  pose proof (encode_none prefix) as HP.
  pose proof (encode_none (encodeNamespace namespace)) as HN.
  pose proof (encode_none viewName) as HV.
  unfold encodeNamespace in HN at 2.
  rewrite (wellFormed_join 0x1F namespace eq_refl eq_refl) in HN.
  destruct (encodeURIComponent prefix) as [P|];
    destruct (encodeURIComponent (encodeNamespace namespace)) as [N|];
    destruct (encodeURIComponent viewName) as [V|];
    destruct (isWellFormed prefix);
    destruct (forallb isWellFormed namespace);
    destruct (isWellFormed viewName);
    cbn [option_map andb];
    repeat split; intros H; try reflexivity; try discriminate H;
    try (apply HP in H; discriminate H);
    try (apply HN in H; discriminate H);
    try (apply HV in H; discriminate H);
    try (pose proof (proj1 HP eq_refl) as X; discriminate X);
    try (pose proof (proj1 HN eq_refl) as X; discriminate X);
    try (pose proof (proj1 HV eq_refl) as X; discriminate X);
    try (pose proof (proj2 HP eq_refl) as X; discriminate X);
    try (pose proof (proj2 HN eq_refl) as X; discriminate X);
    try (pose proof (proj2 HV eq_refl) as X; discriminate X).
Qed.

(** *** From the route to the request *)

Lemma encode_unreserved_head (c : Z) (rest : JsString) :
  isUnreserved c = true ->
  encodeURIComponent (c :: rest)
  = option_map (String (charOf c)) (encodeURIComponent rest).
Proof. intros H. cbn [encodeURIComponent]. rewrite H. reflexivity. Qed.

Lemma encode_dotted (others : list JsString) (encs : list string) :
  Forall2 (fun part e => encodeURIComponent part = Some e) others encs ->
  encodeURIComponent (flat_map (fun part => [dot] ++ part) others)
  = Some (fold_right (fun part acc => ("." ++ part ++ acc)%string)
                     EmptyString encs).
Proof.
  induction 1 as [|part e others encs He _ IH]; [reflexivity|].
  cbn [flat_map fold_right]. rewrite <- app_assoc.
  change ([dot] ++ part ++ flat_map (fun part => [dot] ++ part) others)
    with (dot :: (part ++ flat_map (fun part => [dot] ++ part) others)).
  rewrite encode_unreserved_head by reflexivity.
  rewrite (encode_app _ _ _ He), IH. reflexivity.
Qed.

Lemma encode_joinDots (parts : list JsString) (encs : list string) :
  Forall2 (fun part e => encodeURIComponent part = Some e) parts encs ->
  encodeURIComponent (join [dot] parts) = Some (joinDots encs).
Proof.
  intros H. destruct H as [|first e others encs He Hrest]; [reflexivity|].
  unfold join, joinDots.
  rewrite (encode_app _ _ _ He), (encode_dotted _ _ Hrest). reflexivity.
Qed.

Lemma get_path (prefix : JsString) (namespace : list JsString)
    (viewName : JsString) (P N V : string) :
  encodeURIComponent prefix = Some P ->
  encodeURIComponent (encodeNamespace namespace) = Some N ->
  encodeURIComponent viewName = Some V ->
  ViewsApi.get prefix namespace viewName
  = Some (mkRequest GET ("/" ++ P ++ "/namespaces/" ++ N ++ "/views/" ++ V) false).
Proof.
  intros HP HN HV. unfold ViewsApi.get, ViewsApi.viewPath, ViewsApi.bind.
  cbv zeta. rewrite HP, HN, HV. reflexivity.
Qed.

Lemma split_wellFormed (s : JsString) :
  isWellFormed s = true ->
  Forall (fun part => isWellFormed part = true) (split dot s).
Proof.
  intros H. apply forallb_Forall_wellFormed.
  rewrite <- (wellFormed_join dot) by reflexivity.
  rewrite join_split. exact H.
Qed.

(** X11: how the namespace of a details page reaches the catalog: for a
    well-formed route parameter the page splits it at its dots and the
    API joins the parts with U+001F, so that where the route's own path
    segment (as written when the page navigates) has the encoded parts
    with dots between them, the request's segment has the same encoded
    parts with [%1F] between them. *)
Theorem route_namespace_reaches_api
    (catalogName namespaceParam viewName : JsString)
    (Hc : isWellFormed catalogName = true)
    (Hn : isWellFormed namespaceParam = true)
    (Hv : isWellFormed viewName = true) :
  exists (C V : string) (encs : list string),
    Forall2 (fun part e => encodeURIComponent part = Some e)
            (namespaceArray (Some namespaceParam)) encs /\
    encodeURIComponent namespaceParam = Some (joinDots encs) /\
    ViewsApi.get catalogName (namespaceArray (Some namespaceParam)) viewName
    = Some (mkRequest GET
              ("/" ++ C ++ "/namespaces/" ++ joinEncoded encs ++ "/views/" ++ V)
              false).
Proof.
  apply encode_wellFormed in Hc as (C & HC).
  apply encode_wellFormed in Hv as (V & HV).
  destruct (encode_parts _ (split_wellFormed _ Hn)) as (encs & Hencs).
  exists C, V, encs. cbn [namespaceArray]. split; [exact Hencs|]. split.
  - rewrite <- (join_split dot namespaceParam) at 1.
    exact (encode_joinDots _ _ Hencs).
  - exact (get_path _ _ _ _ _ _ HC (encode_namespace _ _ Hencs) HV).
Qed.

Lemma route_namespace_reaches_api_witness :
  exists (C V : string) (encs : list string),
    Forall2 (fun part e => encodeURIComponent part = Some e)
            [lit "accounting"; lit "tax"] encs /\
    encodeURIComponent (lit "accounting.tax") = Some (joinDots encs) /\
    ViewsApi.get (lit "polaris") [lit "accounting"; lit "tax"] (lit "v")
    = Some (mkRequest GET
              ("/" ++ C ++ "/namespaces/" ++ joinEncoded encs ++ "/views/" ++ V)
              false).
Proof.
  exact (route_namespace_reaches_api (lit "polaris") (lit "accounting.tax")
           (lit "v") eq_refl eq_refl eq_refl).
Defined.

(** *** The cache key of the drawers *)

Lemma append_inv_head (a b c : string) :
  (a ++ b)%string = (a ++ c)%string -> b = c.
Proof.
  induction a as [|x a IH]; [trivial|]. cbn [String.append].
  intros [= H]. exact (IH H).
Qed.

(** X12: the drawers key their cached query by the namespace parts joined
    with dots.  A namespace with a part [a.b] and the namespace with the
    two parts [a] and [b] in its place get the same key although their
    requests differ, so one can be served the other's cached answer.
    Namespaces whose parts hold no dot never share a key. *)
Theorem query_key_collides_on_dots
    (catalogName a b : JsString) (rest : list JsString) (viewName : JsString)
    (Hc : isWellFormed catalogName = true)
    (Ha : isWellFormed a = true) (Hb : isWellFormed b = true)
    (Hrest : Forall (fun part => isWellFormed part = true) rest)
    (Hv : isWellFormed viewName = true) :
  queryKey "view" catalogName ((a ++ dot :: b) :: rest) viewName
  = queryKey "view" catalogName (a :: b :: rest) viewName /\
  (exists r1 r2,
     ViewsApi.get catalogName ((a ++ dot :: b) :: rest) viewName = Some r1 /\
     ViewsApi.get catalogName (a :: b :: rest) viewName = Some r2 /\
     r1 <> r2) /\
  (forall ns1 ns2,
     ns1 <> [] -> ns2 <> [] ->
     Forall (fun part => ~ In dot part) ns1 ->
     Forall (fun part => ~ In dot part) ns2 ->
     queryKey "view" catalogName ns1 viewName
     = queryKey "view" catalogName ns2 viewName ->
     ns1 = ns2).
Proof.
  split; [|split].
  - unfold queryKey, join. cbn [flat_map app]. rewrite <- !app_assoc.
    reflexivity.
  - apply encode_wellFormed in Hc as (C & HC).
    apply encode_wellFormed in Hv as (V & HV).
    apply encode_wellFormed in Ha as (ea & Hea).
    apply encode_wellFormed in Hb as (eb & Heb).
    destruct (encode_parts _ Hrest) as (encs & Hencs).
    assert (encodeURIComponent (a ++ dot :: b) = Some (ea ++ "." ++ eb)%string)
      as Hab.
    { rewrite (encode_app _ _ _ Hea), encode_unreserved_head by reflexivity.
      rewrite Heb. reflexivity. }
    assert (Forall2 (fun part e => encodeURIComponent part = Some e)
              ((a ++ dot :: b) :: rest) ((ea ++ "." ++ eb)%string :: encs))
      as F1 by (constructor; assumption).
    assert (Forall2 (fun part e => encodeURIComponent part = Some e)
              (a :: b :: rest) (ea :: eb :: encs))
      as F2 by (repeat constructor; assumption).
    pose proof (encode_namespace _ _ F1) as HN1.
    pose proof (encode_namespace _ _ F2) as HN2.
    rewrite (get_path _ _ _ _ _ _ HC HN1 HV), (get_path _ _ _ _ _ _ HC HN2 HV).
    eexists. eexists. split; [reflexivity|]. split; [reflexivity|].
    intros [= E]. apply append_inv_head in E.
    change ("/namespaces/" ++ ?x)%string with ("/namespaces/" ++ x)%string in E.
    apply (append_inv_head "/namespaces/") in E.
    unfold joinEncoded in E. cbn [fold_right] in E.
    rewrite !append_assoc in E. apply append_inv_head in E.
    discriminate E.
  - intros ns1 ns2 H1 H2 F1 F2 [= E]. exact (join_inj _ _ _ H1 H2 F1 F2 E).
Qed.

Lemma query_key_collides_on_dots_witness :
  queryKey "view" (lit "polaris") [lit "a" ++ dot :: lit "b"] (lit "v")
  = queryKey "view" (lit "polaris") [lit "a"; lit "b"] (lit "v") /\
  exists r1 r2,
    ViewsApi.get (lit "polaris") [lit "a" ++ dot :: lit "b"] (lit "v") = Some r1 /\
    ViewsApi.get (lit "polaris") [lit "a"; lit "b"] (lit "v") = Some r2 /\
    r1 <> r2.
Proof.
  destruct (query_key_collides_on_dots (lit "polaris") (lit "a") (lit "b") []
              (lit "v") eq_refl eq_refl eq_refl ltac:(constructor) eq_refl)
    as (Hkey & Hreq & _).
  split; [exact Hkey | exact Hreq].
Defined.

End RouteFacts.

Module ViewFormFacts.
Import Js ViewForm.
Import ViewsApi(encodeNamespace, mkRequest, url, GET, DELETE, POST).
Import ViewsApiFacts(list_pairs_ind, encode_pair, encode_wellFormed,
                     encode_namespace, encode_parts, append_assoc).
Import ManglerFacts(list_ascii_of_string_app).
Import RouteFacts(encode_unreserved_head, get_path).

(** *** The characters of a path *)

Lemma pathChar_charOf (c : Z) :
  isUnreserved c = true -> pathChar (charOf c) = true.
Proof.
  intros H. pose proof (ViewsApiFacts.unreserved_range _ H) as (Hr & _).
  unfold pathChar, charOf. cbv zeta.
  rewrite nat_ascii_embedding by lia. rewrite Z2Nat.id by lia.
  rewrite H. reflexivity.
Qed.

Lemma pathChar_hexUpper (d : Z) : pathChar (hexUpper d) = true.
Proof.
  unfold hexUpper. generalize (Z.to_nat d). intros n.
  do 16 (destruct n as [|n]; [reflexivity|]). destruct n; reflexivity.
Qed.

Lemma pathChars_app (a b : string) :
  forallb pathChar (list_ascii_of_string (a ++ b))
  = forallb pathChar (list_ascii_of_string a)
    && forallb pathChar (list_ascii_of_string b).
Proof. rewrite list_ascii_of_string_app. apply forallb_app. Qed.

Lemma pathChars_escapeAll (octets : list Z) :
  forallb pathChar (list_ascii_of_string (escapeAll octets)) = true.
Proof.
  induction octets as [|o os IH]; [reflexivity|].
  cbn [escapeAll fold_right]. fold (escapeAll os).
  rewrite pathChars_app, IH. unfold escape.
  cbn [list_ascii_of_string forallb]. rewrite !pathChar_hexUpper. reflexivity.
Qed.

Lemma encode_pathChars (s : JsString) (e : string) :
  encodeURIComponent s = Some e ->
  forallb pathChar (list_ascii_of_string e) = true.
Proof.
  revert e. induction s as [|a|a b l IHl IHbl] using list_pairs_ind; intros e.
  - intros [= <-]. reflexivity.
  - cbn [encodeURIComponent].
    destruct (isUnreserved a) eqn:Ha.
    + intros [= <-]. cbn [list_ascii_of_string forallb].
      rewrite (pathChar_charOf _ Ha). reflexivity.
    + destruct (isLeadSurrogate a); [discriminate|].
      destruct (isTrailSurrogate a); [discriminate|].
      intros [= <-]. rewrite pathChars_app, pathChars_escapeAll. reflexivity.
  - rewrite encode_pair. destruct (isUnreserved a) eqn:Ha.
    + destruct (encodeURIComponent (b :: l)) as [e'|]; [|discriminate].
      intros [= <-]. cbn [list_ascii_of_string forallb].
      rewrite (pathChar_charOf _ Ha), (IHbl _ eq_refl). reflexivity.
    + destruct (isLeadSurrogate a).
      * destruct (isTrailSurrogate b); [|discriminate].
        destruct (encodeURIComponent l) as [e'|]; [|discriminate].
        intros [= <-]. rewrite pathChars_app, pathChars_escapeAll.
        exact (IHl _ eq_refl).
      * destruct (isTrailSurrogate a); [discriminate|].
        destruct (encodeURIComponent (b :: l)) as [e'|]; [|discriminate].
        intros [= <-]. rewrite pathChars_app, pathChars_escapeAll.
        exact (IHbl _ eq_refl).
Qed.

Lemma viewsPath_chars (P N : string) :
  forallb pathChar (list_ascii_of_string P) = true ->
  forallb pathChar (list_ascii_of_string N) = true ->
  forallb pathChar
    (list_ascii_of_string ("/" ++ P ++ "/namespaces/" ++ N ++ "/views")) = true.
Proof. intros CP CN. rewrite !pathChars_app, CP, CN. reflexivity. Qed.

Lemma viewPath_chars (P N V : string) :
  forallb pathChar (list_ascii_of_string P) = true ->
  forallb pathChar (list_ascii_of_string N) = true ->
  forallb pathChar (list_ascii_of_string V) = true ->
  forallb pathChar
    (list_ascii_of_string
       ("/" ++ P ++ "/namespaces/" ++ N ++ "/views/" ++ V)) = true.
Proof. intros CP CN CV. rewrite !pathChars_app, CP, CN, CV. reflexivity. Qed.

(** X13: whatever the catalog name, the namespace parts and the view name
    hold, a path built by the views API consists of slashes, percent
    signs and unreserved characters only; in particular it contains no
    question mark, no hash sign and no space, so nothing in a name can
    open a query string or a fragment. *)
Theorem views_paths_are_plain
    (prefix : JsString) (namespace : list JsString) (viewName : JsString)
    (rq : ViewsApi.Request)
    (H : In (Some rq)
            [ViewsApi.list_ prefix namespace;
             ViewsApi.get prefix namespace viewName;
             ViewsApi.delete prefix namespace viewName;
             ViewsApi.create prefix namespace]) :
  forallb pathChar (list_ascii_of_string (url rq)) = true /\
  ~ In "?"%char (list_ascii_of_string (url rq)) /\
  ~ In "#"%char (list_ascii_of_string (url rq)) /\
  ~ In " "%char (list_ascii_of_string (url rq)).
Proof.
  assert (forallb pathChar (list_ascii_of_string (url rq)) = true) as Hall.
  { unfold ViewsApi.list_, ViewsApi.get, ViewsApi.delete, ViewsApi.create,
      ViewsApi.viewsPath, ViewsApi.viewPath, ViewsApi.bind in H. cbv zeta in H.
    destruct (encodeURIComponent prefix) as [P|] eqn:HP;
      [|cbn in H; intuition discriminate].
    destruct (encodeURIComponent (encodeNamespace namespace)) as [N|] eqn:HN;
      [|cbn in H; intuition discriminate].
    pose proof (encode_pathChars _ _ HP) as CP.
    pose proof (encode_pathChars _ _ HN) as CN.
    destruct (encodeURIComponent viewName) as [V|] eqn:HV;
      [pose proof (encode_pathChars _ _ HV) as CV|];
      cbn [option_map In] in H;
      destruct H as [H|[H|[H|[H|[]]]]]; try discriminate H;
      injection H as <-; cbn [url];
      first [ exact (viewsPath_chars P N CP CN)
            | exact (viewPath_chars P N V CP CN CV) ]. }
  split; [exact Hall|].
  rewrite forallb_forall in Hall.
  repeat split; intros Hin; specialize (Hall _ Hin); discriminate Hall.
Qed.

Lemma views_paths_are_plain_witness :
  exists rq,
    ViewsApi.get (lit "a?b") [lit "x#y"; lit "z w"] (lit "v/1") = Some rq /\
    url rq = "/a%3Fb/namespaces/x%23y%1Fz%20w/views/v%2F1" /\
    ~ In "?"%char (list_ascii_of_string (url rq)).
Proof.
  eexists. split; [reflexivity|]. split; [reflexivity|].
  refine (proj1 (proj2 (views_paths_are_plain (lit "a?b")
            [lit "x#y"; lit "z w"] (lit "v/1") _ _))).
  right. left. reflexivity.
Defined.

(** *** Names the form accepts *)

Lemma nameChar_unreserved (c : Z) :
  isNameChar c = true -> isUnreserved c = true.
Proof.
  unfold isNameChar, isNameStart, isUnreserved. cbn [existsb].
  rewrite !orb_true_iff, !andb_true_iff, !Z.leb_le, !Z.eqb_eq. lia.
Qed.

Lemma encode_unreserved (s : JsString) :
  forallb isUnreserved s = true -> encodeURIComponent s = Some (text s).
Proof.
  induction s as [|c s IH]; [reflexivity|]. cbn [forallb].
  intros H. apply andb_true_iff in H as (Hc & Hs).
  rewrite encode_unreserved_head by exact Hc. rewrite (IH Hs). reflexivity.
Qed.

Lemma accepted_name (n : JsString) :
  nameRegex n = true -> n <> [] /\ forallb isUnreserved n = true.
Proof.
  destruct n as [|c rest]; [discriminate|]. cbn [nameRegex forallb].
  intros H. apply andb_true_iff in H as (Hc & Hr). split; [discriminate|].
  apply andb_true_iff. split.
  - apply nameChar_unreserved. unfold isNameChar. rewrite Hc. reflexivity.
  - rewrite forallb_forall in *. intros x Hx.
    apply nameChar_unreserved, Hr, Hx.
Qed.

Lemma viewPath_extends (P N V : string) :
  ("/" ++ P ++ "/namespaces/" ++ N ++ "/views/" ++ V)%string
  = (("/" ++ P ++ "/namespaces/" ++ N ++ "/views") ++ "/" ++ V)%string.
Proof. symmetry. rewrite !append_assoc. reflexivity. Qed.

(** X14: a view name the create form accepts is not empty and is made of
    unreserved characters only, so [encodeURIComponent] leaves it as it
    is: in a well-formed catalog and namespace, the view just created by
    a POST to [path] is read and deleted at [path/name], the name
    unescaped.  The name's [min(1)] check never decides, as the pattern
    rejects the empty name too; the untouched form is rejected. *)
Theorem accepted_view_name_is_path_segment
    (v : FormValues) (catalogName : JsString) (namespace : list JsString)
    (Hv : schemaAccepts v = true)
    (Hc : isWellFormed catalogName = true)
    (Hn : Forall (fun part => isWellFormed part = true) namespace) :
  name v <> [] /\
  encodeURIComponent (name v) = Some (text (name v)) /\
  (exists path,
     ViewsApi.create catalogName namespace = Some (mkRequest POST path true) /\
     ViewsApi.get catalogName namespace (name v)
     = Some (mkRequest GET (path ++ "/" ++ text (name v)) false) /\
     ViewsApi.delete catalogName namespace (name v)
     = Some (mkRequest DELETE (path ++ "/" ++ text (name v)) false)) /\
  (forall n, nameRegex n = true -> min1 n = true) /\
  schemaAccepts defaultValues = false.
Proof.
  unfold schemaAccepts in Hv.
  apply andb_true_iff in Hv as (Hv & _). apply andb_true_iff in Hv as (Hv & _).
  apply andb_true_iff in Hv as (_ & Hre).
  destruct (accepted_name _ Hre) as (Hne & Hun).
  pose proof (encode_unreserved _ Hun) as HV.
  apply encode_wellFormed in Hc as (C & HC).
  destruct (encode_parts _ Hn) as (encs & Hencs).
  pose proof (encode_namespace _ _ Hencs) as HN.
  split; [exact Hne|]. split; [exact HV|]. split; [|split].
  - exists ("/" ++ C ++ "/namespaces/" ++ ViewsApi.joinEncoded encs ++ "/views")%string.
    unfold ViewsApi.create, ViewsApi.get, ViewsApi.delete,
      ViewsApi.viewsPath, ViewsApi.viewPath, ViewsApi.bind. cbv zeta.
    rewrite HC, HN, HV. cbn [option_map].
    rewrite (viewPath_extends C (ViewsApi.joinEncoded encs) (text (name v))).
    repeat split.
  - intros n Hn'. destruct n; [discriminate Hn' | reflexivity].
  - reflexivity.
Qed.

Lemma accepted_view_name_is_path_segment_witness :
  schemaAccepts (mkValues (lit "my_view") (lit "SELECT 1") (lit "spark")) = true /\
  encodeURIComponent (lit "my_view") = Some "my_view".
Proof.
  split; [reflexivity|].
  exact (proj1 (proj2 (accepted_view_name_is_path_segment
           (mkValues (lit "my_view") (lit "SELECT 1") (lit "spark"))
           (lit "polaris") [lit "accounting"] eq_refl eq_refl
           ltac:(repeat constructor)))).
Defined.

End ViewFormFacts.

Module TableDetailsFacts.
Import TableQuery TableDetails.

Section Facts.
Context {LoadTableResult LoadGenericTableResponse GenericTable Error S : Type}.
Variable hasTableKey : Data LoadTableResult LoadGenericTableResponse -> bool.
Variable tableProperty :
  Data LoadTableResult LoadGenericTableResponse -> option GenericTable.
Variable srv : Server LoadTableResult LoadGenericTableResponse Error S.

(** X15: [renderTableContent] of the table details page renders nothing
    in exactly one case: the query holds data, without error and not
    loading, that has a [table] key whose value is falsy (a response
    [{table: null}]); the guard of [renderGenericTable] then returns
    null, while Delete stays enabled and would run
    [tablesApi.deleteGeneric].  The guard of [renderIcebergTable] is never
    taken from [renderTableContent].  A table card is rendered only from
    data that is there, with no error and not while loading; for
    responses that are as their types declare them the page never
    renders nothing; and whenever the rename and edit modals are mounted
    their buttons are shown and enabled. *)
Theorem table_content_null_iff
    (a : Args) (q : QueryResult LoadTableResult LoadGenericTableResponse Error) :
  (renderTableContent hasTableKey tableProperty q = Null <->
   isLoading q = false /\ error q = None /\
   exists d, data q = Some d /\ hasTableKey d = true /\ tableProperty d = None) /\
  (renderTableContent hasTableKey tableProperty q = Null ->
   buttonsDisabled q = false /\ deleteDialogMounted q = true /\
   renameShown hasTableKey q = false /\
   handleDelete hasTableKey a q = TablesDeleteGeneric a) /\
  (isGenericTable hasTableKey (data q) = false -> data q <> None ->
   renderIcebergTable hasTableKey (GenericTable := GenericTable) q <> Null) /\
  (forall t,
     renderTableContent hasTableKey tableProperty q = GenericTableCard t ->
     exists d, data q = Some d /\ hasTableKey d = true /\
               tableProperty d = Some t /\
               error q = None /\ isLoading q = false) /\
  (forall d,
     renderTableContent hasTableKey tableProperty q = IcebergTableCard d ->
     data q = Some d /\ hasTableKey d = false /\
     error q = None /\ isLoading q = false) /\
  (wellTyped hasTableKey tableProperty ->
   renderTableContent hasTableKey tableProperty q <> Null) /\
  (modalsMounted hasTableKey q = true ->
   renameShown hasTableKey q = true /\ buttonsDisabled q = false /\
   deleteDialogMounted q = true).
Proof.
  destruct q as [l e d].
  unfold renderTableContent, renderGenericTable, renderIcebergTable,
    modalsMounted, renameShown, buttonsDisabled, deleteDialogMounted,
    handleDelete, genericTableData, icebergTableData, isGenericTable.
  cbn [isLoading error data].
  destruct l; [|destruct e as [e|]; [|destruct d as [d|]]].
  - (* loading *)
    split; [split; [discriminate|intros (H & _); discriminate H]|].
    split; [discriminate|]. split.
    { destruct d as [d|]; [|intros _ H; exfalso; apply H; reflexivity].
      intros ->. discriminate. }
    split; [discriminate|]. split; [discriminate|]. split; [discriminate|].
    destruct d as [d|]; [|discriminate].
    destruct (hasTableKey d); [discriminate|]. intros _. repeat split.
  - (* an error *)
    split; [split; [discriminate|intros (_ & H & _); discriminate H]|].
    split; [discriminate|]. split.
    { destruct d as [d|]; [|intros _ H; exfalso; apply H; reflexivity].
      intros ->. discriminate. }
    split; [discriminate|]. split; [discriminate|]. split; [discriminate|].
    destruct d as [d|]; [|discriminate].
    destruct (hasTableKey d); [discriminate|]. intros _. repeat split.
  - (* data *)
    destruct (hasTableKey d) eqn:Hk; cbn [negb].
    + destruct (tableProperty d) as [t|] eqn:Ht.
      * split; [split; [discriminate|]|].
        { intros (_ & _ & d' & Hd & _ & Hn). injection Hd as <-.
          rewrite Ht in Hn. discriminate Hn. }
        split; [discriminate|]. split; [discriminate|]. split.
        { intros t' H. injection H as <-. exists d. repeat split; assumption. }
        split; [discriminate|]. split; [discriminate|]. discriminate.
      * split; [split|].
        { intros _. repeat split. exists d. repeat split; assumption. }
        { reflexivity. }
        split; [intros _; repeat split|]. split; [discriminate|].
        split; [discriminate|]. split; [discriminate|]. split; [|discriminate].
        intros [HI HG] _. destruct d as [t|g].
        -- rewrite HI in Hk. discriminate Hk.
        -- destruct (HG g) as [_ Hv]. apply Hv. exact Ht.
    + split; [split; [discriminate|]|].
      { intros (_ & _ & d' & Hd & Hk' & _). injection Hd as <-.
        rewrite Hk in Hk'. discriminate Hk'. }
      split; [discriminate|]. split; [discriminate|]. split; [discriminate|].
      split.
      { intros d' H. injection H as <-. repeat split; assumption. }
      split; [discriminate|]. intros _. repeat split.
  - (* nothing *)
    split; [split; [discriminate|]|].
    { intros (_ & _ & d' & Hd & _). discriminate Hd. }
    split; [discriminate|]. split.
    { intros _ H. exfalso. apply H. reflexivity. }
    split; [discriminate|]. split; [discriminate|]. split; discriminate.
Qed.

(** One run of the query function, whatever fetches were made before. *)
Lemma attempt_calls (a : Args) (st : S) (calls : list Call) :
  exec srv (queryFn a) st calls
  = (let '(outcome, final, made) := exec srv (queryFn a) st [] in
     (outcome, final, calls ++ made)).
Proof.
  cbn [exec queryFn].
  destruct (tablesGet srv a st) as [[icebergError|table] st1]; cbn [exec].
  - destruct (tablesGetGeneric srv a st1) as [[genericError|table] st2];
      cbn [exec app]; rewrite <- app_assoc; reflexivity.
  - reflexivity.
Qed.

(** A rejected run has made both fetches. *)
Lemma attempt_rejected (a : Args) (st final : S) (e : Error) (made : list Call) :
  exec srv (queryFn a) st [] = (inl e, final, made) ->
  made = [TablesGet a; TablesGetGeneric a] /\
  fst (tablesGet srv a st) = inl e.
Proof.
  cbn [exec queryFn].
  destruct (tablesGet srv a st) as [[icebergError|table] st1]; cbn [exec].
  - destruct (tablesGetGeneric srv a st1) as [[genericError|table] st2];
      cbn [exec app]; intros H; [|discriminate H].
    injection H as <- <- <-. split; reflexivity.
  - intros H. discriminate H.
Qed.

(** The first fetch is a number of rejected runs, as many as there are
    retries when the last run is rejected too, followed by one more run
    whose outcome is the query's. *)
Lemma firstFetch_runs (a : Args) (retry : nat) :
  forall (st : S) (calls : list Call),
  exists (failed : nat) (st' : S) (made : list Call) outcome final,
    firstFetch srv retry a st calls
    = (outcome, final,
       calls ++ concat (repeat [TablesGet a; TablesGetGeneric a] failed) ++ made) /\
    (failed <= retry)%nat /\
    exec srv (queryFn a) st' [] = (outcome, final, made) /\
    (forall e, outcome = inl e -> failed = retry).
Proof.
  induction retry as [|retry IH]; intros st calls; cbn [firstFetch];
    rewrite attempt_calls;
    destruct (exec srv (queryFn a) st []) as [[outcome final] made] eqn:E.
  - exists 0%nat, st, made, outcome, final. cbn [repeat concat app].
    split; [destruct outcome; reflexivity|]. split; [lia|].
    split; [exact E|]. reflexivity.
  - destruct outcome as [e|d].
    + destruct (attempt_rejected _ _ _ _ _ E) as [-> _].
      destruct (IH final (calls ++ [TablesGet a; TablesGetGeneric a]))
        as (failed & st' & made' & outcome' & final' & Hf & Hle & Hex & Hall).
      exists (Datatypes.S failed), st', made', outcome', final'.
      split.
      { rewrite Hf. cbn [repeat concat]. rewrite <- !app_assoc. reflexivity. }
      split; [lia|]. split; [exact Hex|].
      intros e' He. rewrite (Hall e' He). reflexivity.
    + exists 0%nat, st, made, (inr d), final. cbn [repeat concat app].
      split; [reflexivity|]. split; [lia|]. split; [exact E|].
      intros e H. discriminate H.
Qed.


End Facts.


End TableDetailsFacts.

Module MetadataFacts.
Import Metadata.

Lemma find_present {A : Type} (f : A -> bool) (l : list A) :
  (exists x, In x l /\ f x = true) ->
  exists y, find f l = Some y /\ In y l /\ f y = true.
Proof.
  intros [x [Hin Hx]]. destruct (find f l) as [y|] eqn:E.
  - exists y. destruct (find_some _ _ E) as [H1 H2]. auto.
  - rewrite (find_none _ _ E x Hin) in Hx. discriminate Hx.
Qed.

(** X17: the current schema of a view is undefined only when the view
    has no schema at all: on the page and in the drawer alike it is
    missing exactly when the data, its metadata or its schemas are
    missing or the schema list is empty, and otherwise it is one of the
    view's schemas. *)
Theorem view_schema_undefined_iff (viewData : option LoadViewResult) :
  (pageCurrentSchema viewData = None <->
   schemasOf viewData = None \/ schemasOf viewData = Some []) /\
  (drawerCurrentSchema viewData = None <->
   schemasOf viewData = None \/ schemasOf viewData = Some []) /\
  (forall s, pageCurrentSchema viewData = Some s \/
             drawerCurrentSchema viewData = Some s ->
     exists ss, schemasOf viewData = Some ss /\ In s ss).
Proof.
  unfold pageCurrentSchema, drawerCurrentSchema.
  destruct viewData as [[[md|]]|]; cbn [schemasOf view_metadata orElse];
    try (repeat split; try (intros _; left; reflexivity);
         intros s [H|H]; discriminate H).
  destruct (view_schemas md) as [ss|]; cbn [orElse];
    try (repeat split; try (intros _; left; reflexivity);
         intros s [H|H]; discriminate H).
  split; [|split].
  - destruct (find _ ss) as [s|] eqn:E; cbn [orElse].
    + split; [discriminate|]. intros [H|H]; [discriminate H|].
      injection H as ->. discriminate E.
    + destruct ss as [|s0 ss]; cbn [hd_error].
      * split; auto.
      * split; [discriminate|]. intros [H|H]; discriminate H.
  - destruct (find _ ss) as [s|] eqn:E; cbn [orElse].
    + split; [discriminate|]. intros [H|H]; [discriminate H|].
      injection H as ->. discriminate E.
    + destruct ss as [|s0 ss]; cbn [hd_error].
      * split; auto.
      * split; [discriminate|]. intros [H|H]; discriminate H.
  - intros s H. exists ss. split; [reflexivity|].
    destruct H as [H|H];
      match type of H with
      | orElse (find ?f ss) _ = _ => destruct (find f ss) as [s'|] eqn:E
      end; cbn [orElse] in H.
    + injection H as <-. apply (find_some _ _ E).
    + destruct ss; [discriminate H|]. injection H as <-. left. reflexivity.
    + injection H as <-. apply (find_some _ _ E).
    + destruct ss; [discriminate H|]. injection H as <-. left. reflexivity.
Qed.

(** X18: the drawer and the page pick the current schema of a view
    differently.  With a current version whose schema is among the
    view's schemas, the drawer shows a schema with that version's schema
    id.  The page compares schema ids with the current version id: it
    shows a schema with the current version's schema id exactly when
    that id happens to equal the current version id and a schema has it,
    or when no schema's id is the current version id and the first
    schema has the version's schema id. *)
Theorem page_schema_matches_version_iff
    (md : ViewMetadata) (ss : list TableSchema) (v : ViewVersion)
    (Hss : view_schemas md = Some ss)
    (Hv : currentVersion (Some (mkView (Some md))) = Some v)
    (Hs : exists s, In s ss /\ schema_id s = version_schema_id v) :
  let viewData := Some (mkView (Some md)) in
  version_id v = current_version_id md /\
  option_map schema_id (drawerCurrentSchema viewData)
  = Some (version_schema_id v) /\
  (option_map schema_id (pageCurrentSchema viewData)
   = Some (version_schema_id v) <->
   (version_schema_id v = current_version_id md /\
    exists s, In s ss /\ schema_id s = current_version_id md) \/
   ((forall s, In s ss -> schema_id s <> current_version_id md) /\
    option_map schema_id (hd_error ss) = Some (version_schema_id v))).
Proof.
  intros viewData. subst viewData. split; [|split].
  - unfold currentVersion in Hv. cbn [view_metadata] in Hv.
    destruct (versions md) as [vs|]; [|discriminate Hv].
    apply find_some in Hv. lia.
  - unfold drawerCurrentSchema. rewrite Hv.
    cbn [schemasOf view_metadata]. rewrite Hss.
    destruct (find_present (fun s => schema_id s =? version_schema_id v) ss)
      as [y [Hy [_ Hid]]].
    { destruct Hs as [s [Hin Hid]]. exists s. split; [exact Hin|lia]. }
    rewrite Hy. cbn [orElse option_map]. f_equal. lia.
  - unfold pageCurrentSchema. cbn [schemasOf view_metadata]. rewrite Hss.
    destruct (find (fun s => schema_id s =? current_version_id md) ss)
      as [t|] eqn:E; cbn [orElse option_map].
    + destruct (find_some _ _ E) as [Hin Hid]. split.
      * intros H. injection H as H. left. split; [lia|].
        exists t. split; [exact Hin|lia].
      * intros [[H _]|[H _]].
        -- f_equal. lia.
        -- exfalso. apply (H t Hin). lia.
    + split.
      * intros H. right. split; [|exact H].
        intros s Hin Hid. pose proof (find_none _ _ E s Hin) as Hn.
        cbn beta in Hn. lia.
      * intros [[_ [s [Hin Hid]]]|[_ H]]; [|exact H].
        pose proof (find_none _ _ E s Hin) as Hn. cbn beta in Hn. lia.
Qed.

Lemma page_schema_matches_version_iff_witness :
  let md := mkViewMetadata
              (Some [mkSchema 0 ["id"]; mkSchema 1 ["id"; "total"]])
              (Some [mkVersion 1 0 None; mkVersion 2 1 None]) 2 in
  let viewData := Some (mkView (Some md)) in
  option_map schema_id (drawerCurrentSchema viewData) = Some 1 /\
  option_map schema_id (pageCurrentSchema viewData) = Some 0.
Proof.
  pose (md := mkViewMetadata
                (Some [mkSchema 0 ["id"]; mkSchema 1 ["id"; "total"]])
                (Some [mkVersion 1 0 None; mkVersion 2 1 None]) 2).
  assert (Hs : exists s, In s [mkSchema 0 ["id"]; mkSchema 1 ["id"; "total"]]
                         /\ schema_id s = version_schema_id (mkVersion 2 1 None)).
  { exists (mkSchema 1 ["id"; "total"]). split; [right; left|]; reflexivity. }
  pose proof (page_schema_matches_version_iff md _ (mkVersion 2 1 None)
                eq_refl eq_refl Hs) as [_ [Hd _]].
  split; [exact Hd|reflexivity].
Defined.

(** X19: the SQL shown for a view is taken from its current version
    only: when [currentSql] is defined, it is a representation of type
    sql of a version whose id is the current version id; and when no
    version has that id nothing is shown, whatever the other versions
    hold. *)
Theorem current_sql_from_current_version
    (md : ViewMetadata) (r : Representation)
    (Hr : currentSql (Some (mkView (Some md))) = Some r) :
  type r = "sql"%string /\
  exists vs v rs,
    versions md = Some vs /\ In v vs /\
    version_id v = current_version_id md /\
    currentVersion (Some (mkView (Some md))) = Some v /\
    representations v = Some rs /\ In r rs.
Proof.
  unfold currentSql in Hr.
  destruct (currentVersion (Some (mkView (Some md)))) as [v|] eqn:Hv;
    [|discriminate Hr].
  destruct (representations v) as [rs|] eqn:Hrs; [|discriminate Hr].
  destruct (find_some _ _ Hr) as [Hin Hty].
  split; [apply String.eqb_eq; exact Hty|].
  unfold currentVersion in Hv. cbn [view_metadata] in Hv.
  destruct (versions md) as [vs|] eqn:Hvs; [|discriminate Hv].
  destruct (find_some _ _ Hv) as [Hinv Hid].
  exists vs, v, rs. repeat split; try assumption; try reflexivity. lia.
Qed.

Lemma current_sql_from_current_version_witness :
  let r := mkRepresentation "sql" "SELECT 1" "spark" in
  let md := mkViewMetadata
              (Some [mkSchema 0 ["id"]])
              (Some [mkVersion 1 0 (Some [mkRepresentation "sql" "SELECT 0" "trino"]);
                     mkVersion 2 0 (Some [r])]) 2 in
  type r = "sql"%string /\
  exists vs v rs,
    versions md = Some vs /\ In v vs /\
    version_id v = current_version_id md /\
    currentVersion (Some (mkView (Some md))) = Some v /\
    representations v = Some rs /\ In r rs.
Proof.
  exact (current_sql_from_current_version
           (mkViewMetadata
              (Some [mkSchema 0 ["id"]])
              (Some [mkVersion 1 0 (Some [mkRepresentation "sql" "SELECT 0" "trino"]);
                     mkVersion 2 0 (Some [mkRepresentation "sql" "SELECT 1" "spark"])]) 2)
           (mkRepresentation "sql" "SELECT 1" "spark") eq_refl).
Defined.

End MetadataFacts.
